(** * Mesh wire protocol: a shallow embedding of the synchronisation core

    The development follows the TypeScript sources of the repository:
    - [XOR]          : xor.ts (XOR distance utilities),
    - [FingerTable]  : fingertable.ts (k-bucket routing table),
    - [RateLimiter]  : createRateLimiter of wire-transport.ts,
    - [MessageQueue] : createMessageQueue of wire-transport.ts,
    - [Ham], [Dup]   : ham.ts and dup.ts,
    - [Wire]         : WireTransport of wire-transport.ts.

    JavaScript objects used as maps are [gmap]s, arrays are lists, numbers are
    integers of [Z] (or [nat] for lengths and counters), and the event loop is
    a transition function on an explicit state. *)

From Stdlib Require Import ZArith List Lia Bool.
From stdpp Require Import gmap strings list fin_maps pretty sorting.

Open Scope Z_scope.

(* ===================================================================== *)
(** * Part I: the program                                                 *)
(* ===================================================================== *)

(** ** xor.ts *)

Module XOR.

(** The inner [for (bit = 0; bit < 8; bit++)] loop of [leadingZeros]:
    [n] iterations are left, [mask] is the current mask. *)
Fixpoint bitLoop (n : nat) (byte mask : Z) : nat :=
  match n with
  | O => O
  | S n' =>
      if negb (Z.land byte mask =? 0) then O
      else S (bitLoop n' byte (Z.shiftr mask 1))
  end.

Fixpoint leadingZeros (dist : list Z) : nat :=
  match dist with
  | [] => O
  | byte :: rest =>
      if byte =? 0 then (8 + leadingZeros rest)%nat
      else bitLoop 8 byte 128
  end.

Fixpoint xorBuffers (a b : list Z) : list Z :=
  match a, b with
  | x :: a', y :: b' => Z.lxor x y :: xorBuffers a' b'
  | _, _ => []
  end.

(** [compareDistance]: the loop over the common prefix, then the lengths. *)
Fixpoint compareDistance (distA distB : list Z) : Z :=
  match distA, distB with
  | x :: a', y :: b' =>
      if x <? y then -1 else if y <? x then 1 else compareDistance a' b'
  | [], [] => 0
  | [], _ :: _ => -1
  | _ :: _, [] => 1
  end.

(** [Array.prototype.sort(cmp)]: the sort is stable, so with a consistent
    comparator the result is the one of an insertion sort that puts an
    element before the first later element that is not smaller. *)
Fixpoint insert_sorted {A} (cmp : A -> A -> Z) (x : A) (l : list A) : list A :=
  match l with
  | [] => [x]
  | y :: l' => if cmp x y <=? 0 then x :: y :: l' else y :: insert_sorted cmp x l'
  end.

Definition sort {A} (cmp : A -> A -> Z) (l : list A) : list A :=
  foldr (insert_sorted cmp) [] l.

Section Hashed.
(** [sha256] comes from sea-utils.ts; it is a parameter here. *)
Variable sha256 : string -> list Z.

Definition toHash (id : string) : list Z := sha256 id.

Definition distance (idA idB : string) : list Z :=
  xorBuffers (toHash idA) (toHash idB).

Definition bucketIndex (myPeerId peerId : string) : nat :=
  leadingZeros (distance myPeerId peerId).

(** [findKClosest(targetId, peerIds, k)], for a count [k]. *)
Definition findKClosest (targetId : string) (peerIds : list string) (k : nat)
  : list string :=
  let targetHash := toHash targetId in
  let peersWithDistance :=
    map (fun peerId => (peerId, xorBuffers (toHash peerId) targetHash)) peerIds in
  let sorted := sort (fun a b => compareDistance (snd a) (snd b)) peersWithDistance in
  map fst (take k sorted).

Definition isCloser (peerA peerB targetId : string) : bool :=
  let targetHash := toHash targetId in
  let distA := xorBuffers (toHash peerA) targetHash in
  let distB := xorBuffers (toHash peerB) targetHash in
  compareDistance distA distB <? 0.

Definition filterCloser (myPeerId targetId : string) (peerIds : list string)
  : list string :=
  let targetHash := toHash targetId in
  let myDistance := xorBuffers (toHash myPeerId) targetHash in
  List.filter (fun peerId =>
                 compareDistance (xorBuffers (toHash peerId) targetHash) myDistance <? 0)
              peerIds.

End Hashed.
End XOR.

(** ** fingertable.ts *)

Module FingerTable.

(** A peer: its id and its [send] closure.  The only closure the wire ever
    stores sends to one transport connection, so the closure is represented
    by the connection id it captures. *)
Record Peer := { peer_id : string; peer_send : string }.

#[global] Instance Peer_eq_dec : EqDecision Peer.
Proof. solve_decision. Defined.

Definition K_BUCKET_SIZE : nat := 20.

(** The two [Map]s of the closure. *)
Record t := { buckets : gmap nat (list Peer); peerMap : gmap string Peer }.

Definition empty : t := {| buckets := ∅; peerMap := ∅ |}.

(** [Array.prototype.findIndex]; [None] stands for -1. *)
Fixpoint findIndex {A} (f : A -> bool) (l : list A) : option nat :=
  match l with
  | [] => None
  | x :: l' => if f x then Some O else S <$> findIndex f l'
  end.

(** [bucket.splice(idx, 1)]. *)
Definition splice1 {A} (idx : nat) (l : list A) : list A :=
  take idx l ++ drop (S idx) l.

Section WithSelf.
Variable sha256 : string -> list Z.
Variable selfId : string.

Definition removePeer (peerId : string) (ft : t) : t :=
  match peerMap ft !! peerId with
  | None => ft
  | Some _ =>
      let bucketIdx := XOR.bucketIndex sha256 selfId peerId in
      let buckets' :=
        match buckets ft !! bucketIdx with
        | Some bucket =>
            let bucket' :=
              match findIndex (fun p => String.eqb (peer_id p) peerId) bucket with
              | Some idx => splice1 idx bucket
              | None => bucket
              end in
            if (length bucket' =? 0)%nat then delete bucketIdx (buckets ft)
            else <[bucketIdx := bucket']> (buckets ft)
        | None => buckets ft
        end in
      {| buckets := buckets'; peerMap := delete peerId (peerMap ft) |}
  end.

Definition addPeer (peer : Peer) (ft : t) : bool * t :=
  if String.eqb (peer_id peer) selfId then (false, ft)
  else
    let ft1 :=
      match peerMap ft !! peer_id peer with
      | Some _ => removePeer (peer_id peer) ft
      | None => ft
      end in
    let bucketIdx := XOR.bucketIndex sha256 selfId (peer_id peer) in
    let buckets1 :=
      match buckets ft1 !! bucketIdx with
      | Some _ => buckets ft1
      | None => <[bucketIdx := []]> (buckets ft1)
      end in
    let bucket := default [] (buckets1 !! bucketIdx) in
    if (K_BUCKET_SIZE <=? length bucket)%nat then
      (false, {| buckets := buckets1; peerMap := peerMap ft1 |})
    else
      (true, {| buckets := <[bucketIdx := bucket ++ [peer]]> buckets1;
                peerMap := <[peer_id peer := peer]> (peerMap ft1) |}).

Definition getPeer (peerId : string) (ft : t) : option Peer := peerMap ft !! peerId.

Definition count (ft : t) : nat := size (peerMap ft).

(** A call of the public interface, and a sequence of calls run one after
    the other (each call completes before the next one starts). *)
Inductive call := AddPeer (p : Peer) | RemovePeer (peerId : string).

Definition run_call (c : call) (ft : t) : t :=
  match c with
  | AddPeer p => snd (addPeer p ft)
  | RemovePeer i => removePeer i ft
  end.

Definition run_calls (cs : list call) (ft : t) : t :=
  fold_left (fun acc c => run_call c acc) cs ft.

End WithSelf.

(** The functions that walk [peerMap].  A [Map] is walked in the order in
    which its keys were inserted; the finite maps of the table do not
    record that order, so the walk is a parameter: [keys m] lists the keys
    of [m]. *)
Section Walk.
Variable sha256 : string -> list Z.
Variable keys : gmap string Peer -> list string.

Definition DEFAULT_K : nat := 6.

(** [Array.from(peerMap.values())] *)
Definition values (ft : t) : list Peer :=
  omap (fun i => peerMap ft !! i) (keys (peerMap ft)).

Definition findClosestPeers (targetId : string) (k : nat) (ft : t) : list Peer :=
  let allPeers := values ft in
  let allPeerIds := map peer_id allPeers in
  let closestIds := XOR.findKClosest sha256 targetId allPeerIds k in
  omap (fun id => peerMap ft !! id) closestIds.

Definition getPeerIds (ft : t) : list string := keys (peerMap ft).

End Walk.

(** Number of stored occurrences of a peer id in one bucket, and the number
    of peers over all buckets. *)
Definition occurrences (i : string) (bucket : list Peer) : nat :=
  length (filter (fun p => peer_id p = i) bucket).

Definition total (bs : gmap nat (list Peer)) : nat :=
  map_fold (fun _ bucket acc => (length bucket + acc)%nat) O bs.

End FingerTable.

(** ** wire-transport.ts: createRateLimiter *)

Module RateLimiter.

Record Client := { requests : list Z; lastCleanup : Z; throttleCount : nat }.

Definition maxRequests : nat := 1500.
Definition windowMs : Z := 60000.

(** [requests.filter(time => now - time < windowMs)] *)
Definition in_window (now : Z) (l : list Z) : list Z :=
  List.filter (fun time => now - time <? windowMs) l.

(** [Math.min(...l)]; [None] stands for the [Infinity] of an empty list. *)
Definition Math_min (l : list Z) : option Z :=
  match l with
  | [] => None
  | x :: xs => Some (fold_left Z.min xs x)
  end.

Definition fresh_client (now : Z) : Client :=
  {| requests := []; lastCleanup := now; throttleCount := 0 |}.

Definition getDelay (now : Z) (clientId : string) (clients : gmap string Client)
  : Z * gmap string Client :=
  let client := default (fresh_client now) (clients !! clientId) in
  let reqs := in_window now (requests client) in
  if (maxRequests <=? length reqs)%nat then
    (* with maxRequests > 0 the list is not empty here *)
    let delay := match Math_min reqs with
                 | Some oldest => windowMs - (now - oldest)
                 | None => 0
                 end in
    let client' := {| requests := reqs; lastCleanup := lastCleanup client;
                      throttleCount := S (throttleCount client) |} in
    (Z.max 0 delay, <[clientId := client']> clients)
  else
    let client' := {| requests := reqs ++ [now]; lastCleanup := lastCleanup client;
                      throttleCount := throttleCount client |} in
    (0, <[clientId := client']> clients).

Definition shouldDisconnect (clientId : string) (clients : gmap string Client) : bool :=
  match clients !! clientId with
  | Some client => (10 <=? throttleCount client)%nat
  | None => false
  end.

(** The body of the [setInterval] sweep (installed outside test mode). *)
Definition cleanup (now : Z) (clients : gmap string Client) : gmap string Client :=
  (fun data =>
     {| requests := in_window now (requests data);
        lastCleanup := lastCleanup data;
        throttleCount := if windowMs * 10 <? now - lastCleanup data then O
                         else throttleCount data |}) <$> clients.

(** The calls made on a limiter, and a sequence of them. *)
Inductive call :=
| GetDelay (now : Z) (clientId : string)
| Sweep (now : Z).

Definition run_call (clients : gmap string Client) (c : call) : gmap string Client :=
  match c with
  | GetDelay now clientId => snd (getDelay now clientId clients)
  | Sweep now => cleanup now clients
  end.

Definition run_calls (cs : list call) (clients : gmap string Client)
  : gmap string Client :=
  fold_left run_call cs clients.

Definition call_time (c : call) : Z :=
  match c with GetDelay now _ => now | Sweep now => now end.

(** The times at which [getDelay] answered 0 to [clientId] in a sequence of
    calls. *)
Fixpoint passed (clientId : string) (cs : list call) (clients : gmap string Client)
  : list Z :=
  match cs with
  | [] => []
  | c :: cs' =>
      let rest := passed clientId cs' (run_call clients c) in
      match c with
      | GetDelay now id =>
          if String.eqb id clientId && (fst (getDelay now id clients) =? 0)
          then now :: rest else rest
      | Sweep _ => rest
      end
  end.

End RateLimiter.

(** ** wire-transport.ts: createMessageQueue *)

Module MessageQueue.

(** The closure state.  [processing] is true exactly while the [process]
    loop is suspended on its 10 ms pause. *)
Record t := { queue : list string; processing : bool }.

Definition empty : t := {| queue := []; processing := false |}.

Definition pauseMs : Z := 10.

(** [process()] up to its first [await]: returns the messages handed to
    [sendFn] (none or one); when one was sent the pause timer is started. *)
Definition process (q : t) : t * list string :=
  if processing q then (q, [])
  else match queue q with
       | [] => (q, [])
       | msg :: rest => ({| queue := rest; processing := true |}, [msg])
       end.

(** The continuation of [process] when the pause is over: the next
    iteration of the [while] loop, or the end of the loop. *)
Definition resume (q : t) : t * list string :=
  match queue q with
  | [] => ({| queue := []; processing := false |}, [])
  | msg :: rest => ({| queue := rest; processing := true |}, [msg])
  end.

Definition enqueue (maxQueueLength : nat) (data : string) (q : t)
  : option string * (t * list string) :=
  if (maxQueueLength <=? length (queue q))%nat then
    (Some ("Message queue exceeded maximum length (" +:+ pretty maxQueueLength +:+ ")"),
     (q, []))
  else
    (None, process {| queue := queue q ++ [data]; processing := processing q |}).

Definition size (q : t) : nat := length (queue q).

Definition flush (q : t) : t * list string := process q.

(** The queue driven by the event loop.  An event happens [dt] ms after the
    previous one; the pause timer never fires before its deadline. *)
Inductive event :=
| Enqueue (dt : Z) (data : string)
| Flush (dt : Z)
| Wake (dt : Z).

Record sys := {
  sq : t;
  clock : Z;
  timer : option Z;               (* deadline of the pending pause *)
  sent : list (Z * string);        (* calls of sendFn, with their time *)
  accepted : list string           (* data of the enqueues that returned no error *)
}.

Definition init : sys :=
  {| sq := empty; clock := 0; timer := None; sent := []; accepted := [] |}.

Definition after_sends (now : Z) (old : option Z) (out : list string) : option Z :=
  match out with [] => old | _ => Some (now + pauseMs) end.

Definition step (maxQueueLength : nat) (s : sys) (e : event) : sys :=
  match e with
  | Enqueue dt data =>
      let now := clock s + Z.max 0 dt in
      let '(err, (q', out)) := enqueue maxQueueLength data (sq s) in
      {| sq := q'; clock := now; timer := after_sends now (timer s) out;
         sent := sent s ++ map (pair now) out;
         accepted := match err with
                     | None => accepted s ++ [data]
                     | Some _ => accepted s
                     end |}
  | Flush dt =>
      let now := clock s + Z.max 0 dt in
      let '(q', out) := flush (sq s) in
      {| sq := q'; clock := now; timer := after_sends now (timer s) out;
         sent := sent s ++ map (pair now) out; accepted := accepted s |}
  | Wake dt =>
      let now := clock s + Z.max 0 dt in
      match timer s with
      | Some deadline =>
          if deadline <=? now then
            let '(q', out) := resume (sq s) in
            {| sq := q'; clock := now; timer := after_sends now None out;
               sent := sent s ++ map (pair now) out; accepted := accepted s |}
          else {| sq := sq s; clock := now; timer := timer s;
                  sent := sent s; accepted := accepted s |}
      | None => {| sq := sq s; clock := now; timer := None;
                   sent := sent s; accepted := accepted s |}
      end
  end.

Definition run (maxQueueLength : nat) (es : list event) (s : sys) : sys :=
  fold_left (step maxQueueLength) es s.

(** Consecutive sends are at least [pauseMs] apart. *)
Fixpoint paced (l : list (Z * string)) : Prop :=
  match l with
  | [] => True
  | (t1, _) :: rest =>
      match rest with
      | [] => True
      | (t2, _) :: _ => t1 + pauseMs <= t2
      end /\ paced rest
  end.

End MessageQueue.

(** ** schemas.ts: the data the wire exchanges *)

Module Schema.

(** A field value: a scalar or a relation [{"#": soul}]. *)
Inductive GraphValue :=
| VNull
| VBool (b : bool)
| VNumber (n : Z)
| VString (s : string)
| VRel (soul : string).

#[global] Instance GraphValue_eq_dec : EqDecision GraphValue.
Proof. solve_decision. Defined.

(** A node: the state map of its metadata record [_] ([None] when the
    record is absent) and its fields. *)
Record Node := { node_states : option (gmap string Z);
                 node_values : gmap string GraphValue }.

(** A graph as it travels in a message: the entries of a JSON object, in
    order; an entry may hold [null] or a non-object ([None]). *)
Abbreviation PutGraph := (list (string * option Node)).

Inductive LexDot :=
| DotNone
| DotField (field : string)
| DotNumber (n : Z)
| DotPrefix (p : string)
| DotRange (lo hi : string).

Record Lex := { lex_soul : option string; lex_dot : LexDot }.

Record WireOptions := { opt_wait : option Z; opt_fast : bool; opt_secure : bool }.

Definition no_options : WireOptions :=
  {| opt_wait := None; opt_fast := false; opt_secure := false |}.

Record WireMessage := {
  msg_id : option string;                 (* "#" *)
  msg_at : option string;                 (* "@" *)
  msg_get : option Lex;
  msg_put : option PutGraph;
  msg_err : option string;
  msg_hello : option (option string)      (* hello, and its pub *)
}.

Definition empty_msg : WireMessage :=
  {| msg_id := None; msg_at := None; msg_get := None; msg_put := None;
     msg_err := None; msg_hello := None |}.

(** A subscription of [listen[soul]]. *)
Record Listener := { listener_dot : LexDot; listener_cb : nat }.

(** JavaScript conventions. *)
Definition js_key (o : option string) : string := default "undefined" o.

Definition truthy (o : option string) : option string :=
  match o with
  | Some s => if String.eqb s "" then None else Some s
  | None => None
  end.

(** [g[soul]] on the entries of an object. *)
Fixpoint put_lookup (soul : string) (g : PutGraph) : option (option Node) :=
  match g with
  | [] => None
  | (k, n) :: g' => if String.eqb k soul then Some n else put_lookup soul g'
  end.

Definition souls (g : PutGraph) : list string := map fst g.

(** Modelled from the spec: utils.rel.is, which is not part of the sources
    at hand.  A relation is the singleton object [{"#": soul}]; the result
    is its soul. *)
Definition rel_is (v : GraphValue) : option string :=
  match v with VRel s => Some s | _ => None end.

(** The relation targets among the values of a node. *)
Definition node_refs (n : Node) : list string :=
  omap (fun kv => rel_is (snd kv)) (map_to_list (node_values n)).

End Schema.

(** ** dup.ts *)

Module Dup.

(** Modelled from the spec: Dup, which is not part of the sources at hand.
    A map from message id to its last-touch time; [track] records or
    refreshes the id, [check] tells whether it is present and refreshes it,
    and the sweep drops the entries older than [maxAge]. *)
Abbreviation t := (gmap string Z).

Definition track (now : Z) (id : string) (d : t) : t := <[id := now]> d.

Definition check (now : Z) (id : string) (d : t) : bool * t :=
  match d !! id with
  | Some _ => (true, <[id := now]> d)
  | None => (false, d)
  end.

Definition sweep (maxAge now : Z) (d : t) : t :=
  filter (fun kv => now - snd kv <= maxAge) d.

End Dup.

(** ** ham.ts *)

Module Ham.
Import Schema.

(** Modelled from the spec: HAM.mix, whose source file is not part of the
    sources at hand (only its tests are).  The definitions below follow
    section 4.5 of the specification: the pairwise rule on
    (state, value), the 24 h bound, the deferral with the minimum delay,
    the listeners of the accepted fields and the bound on the graph. *)

Definition DAY : Z := 86400000.
Definition MAX_GRAPH_SIZE : nat := 10000.

Record MixResult := {
  mix_now : PutGraph;
  mix_defer : PutGraph;
  mix_wait : Z;
  mix_listeners : list nat;
  mix_graph : gmap string Node
}.

Definition quote : string := String (Ascii.ascii_of_nat 34) EmptyString.

(** The string encoding used to break ties. *)
Definition encode (v : GraphValue) : string :=
  match v with
  | VNull => "null"
  | VBool true => "true"
  | VBool false => "false"
  | VNumber n => pretty n
  | VString s => quote +:+ s +:+ quote
  | VRel s => "{" +:+ quote +:+ "#" +:+ quote +:+ ":" +:+ quote +:+ s +:+ quote +:+ "}"
  end.

(** The pairwise rule: [true] when the incoming value wins. *)
Definition pairwise (incoming_state : Z) (current_state : option Z)
    (incoming_value : GraphValue) (current_value : option GraphValue) : bool :=
  match current_state with
  | None => true
  | Some cs =>
      if cs <? incoming_state then true
      else if incoming_state <? cs then false
      else match current_value with
           | Some cv =>
               if decide (incoming_value = cv) then false
               else String.ltb (encode cv) (encode incoming_value)
           | None => true
           end
  end.

Inductive verdict := Reject | Deferred (delay : Z) | Accept | Keep.

#[global] Instance verdict_eq_dec : EqDecision verdict.
Proof. solve_decision. Defined.

Definition is_deferred (v : verdict) : bool :=
  match v with Deferred _ => true | _ => false end.

Definition current_state (graph : gmap string Node) (soul field : string) : option Z :=
  n ← graph !! soul; sts ← node_states n; sts !! field.

Definition current_value (graph : gmap string Node) (soul field : string)
  : option GraphValue :=
  n ← graph !! soul; node_values n !! field.

Definition dot_matches (d : LexDot) (field : string) : bool :=
  match d with
  | DotNone => true
  | DotField f => String.eqb f field
  | DotNumber n => String.eqb (pretty n) field
  | DotPrefix p => String.prefix p field
  | DotRange lo hi => String.leb lo field && String.leb field hi
  end.

(** The age of a soul: the largest state of its metadata. *)
Definition soul_age (n : Node) : Z :=
  map_fold (fun _ s acc => Z.max s acc) 0 (default ∅ (node_states n)).

Definition older (a b : string * Node) : Prop := soul_age (snd a) <= soul_age (snd b).

#[global] Instance older_dec : RelDecision older.
Proof. intros a b. unfold older. apply _. Defined.

(** I5: beyond [MAX_GRAPH_SIZE] souls the oldest ones are dropped. *)
Definition evict (graph : gmap string Node) : gmap string Node :=
  if (size graph <=? MAX_GRAPH_SIZE)%nat then graph
  else
    let sorted := merge_sort older (map_to_list graph) in
    list_to_map (drop (size graph - MAX_GRAPH_SIZE) sorted).

Section Mix.
(** The validation of user-owned souls ([~pub], [~@alias]) rests on the
    signature primitives, which are outside the core: [eligible secure soul
    node field] tells whether the field is advanced to the merge. *)
Variable eligible : bool -> string -> Node -> string -> bool.

Definition field_verdict (now : Z) (graph : gmap string Node) (secure : bool)
    (soul : string) (node : Node) (field : string) (value : GraphValue) : verdict :=
  match node_states node with
  | None => Reject
  | Some sts =>
      match sts !! field with
      | None => Reject
      | Some state =>
          if negb (eligible secure soul node field) then Reject
          else if now + DAY <? state then Reject
          else if now <? state then Deferred (state - now)
          else if pairwise state (current_state graph soul field) value
                    (current_value graph soul field)
               then Accept else Keep
      end
  end.

(** The part of a node whose fields received a given kind of verdict. *)
Definition select (keep : verdict -> bool) (now : Z) (graph : gmap string Node)
    (secure : bool) (soul : string) (node : Node) : Node :=
  let vals := filter (fun kv => keep (field_verdict now graph secure soul node
                                        (fst kv) (snd kv)) = true)
                     (node_values node) in
  {| node_states := Some (filter (fun kv => is_Some (vals !! fst kv))
                                 (default ∅ (node_states node)));
     node_values := vals |}.

Definition accepted := select (fun v => bool_decide (v = Accept)).
Definition deferred := select is_deferred.

(** The delays of the deferred fields of a node. *)
Definition delays (now : Z) (graph : gmap string Node) (secure : bool)
    (soul : string) (node : Node) : list Z :=
  omap (fun kv => match field_verdict now graph secure soul node (fst kv) (snd kv) with
                  | Deferred d => Some d
                  | _ => None
                  end)
       (map_to_list (node_values node)).

Definition merge_node (part : Node) (old : option Node) : Node :=
  match old with
  | None => part
  | Some o =>
      {| node_states := Some (default ∅ (node_states part) ∪ default ∅ (node_states o));
         node_values := node_values part ∪ node_values o |}
  end.

Definition fired (listen : gmap string (list Listener)) (soul : string) (part : Node)
  : list nat :=
  flat_map (fun kv =>
              map listener_cb
                  (List.filter (fun l => dot_matches (listener_dot l) (fst kv))
                               (default [] (listen !! soul))))
           (map_to_list (node_values part)).

Definition min_wait (wait : Z) (ds : list Z) : Z :=
  fold_left (fun w d => if w =? 0 then d else Z.min w d) ds wait.

(** One entry of [change]. *)
Definition mix_entry (now : Z) (secure : bool) (listen : gmap string (list Listener))
    (r : MixResult) (entry : string * option Node) : MixResult :=
  match snd entry with
  | None => r
  | Some node =>
      let soul := fst entry in
      let graph := mix_graph r in
      let acc := accepted now graph secure soul node in
      let def := deferred now graph secure soul node in
      let has_acc := negb (bool_decide (node_values acc = ∅)) in
      let has_def := negb (bool_decide (node_values def = ∅)) in
      {| mix_now := if has_acc then mix_now r ++ [(soul, Some acc)] else mix_now r;
         mix_defer := if has_def then mix_defer r ++ [(soul, Some def)] else mix_defer r;
         mix_wait := min_wait (mix_wait r) (delays now graph secure soul node);
         mix_listeners := mix_listeners r ++ fired listen soul acc;
         mix_graph := if has_acc then <[soul := merge_node acc (graph !! soul)]> graph
                      else graph |}
  end.

Definition mix (now : Z) (change : PutGraph) (graph : gmap string Node)
    (secure : bool) (listen : gmap string (list Listener)) : MixResult :=
  let r := fold_left (mix_entry now secure listen) change
             {| mix_now := []; mix_defer := []; mix_wait := 0;
                mix_listeners := []; mix_graph := graph |} in
  {| mix_now := mix_now r; mix_defer := mix_defer r; mix_wait := mix_wait r;
     mix_listeners := mix_listeners r; mix_graph := evict (mix_graph r) |}.

End Mix.
End Ham.

(** ** wire-transport.ts: WireTransport *)

Module Wire.
Import Schema.

(** *** Collaborators

    The modules the wire imports and whose sources are not at hand are
    taken as an interface: the JSON codec, [Get] (get.ts), the store
    (store.ts), [Ham.mix] (ham.ts), the random token generator and the
    name of the public-key field of utils.ts, and [sha256]. *)
Class Collaborators := {
  sha256 : string -> list Z;
  JSON_parse : string -> option WireMessage;          (* [None]: it throws *)
  JSON_stringify : WireMessage -> string;
  Get : Lex -> gmap string Node -> bool -> option PutGraph;
  Disk : Type;
  (** [store.get(lex, cb, opt)] calls [cb(err, data)]. *)
  store_get : Lex -> WireOptions -> Disk -> option string * option PutGraph;
  (** [store.put(graph, cb)] calls [cb(err)]. *)
  store_put : PutGraph -> Disk -> Disk * option string;
  Ham_mix : Z -> PutGraph -> gmap string Node -> bool ->
            gmap string (list Listener) -> Ham.MixResult;
  (** the [n]-th token drawn from [utils.text.random] *)
  random : nat -> string;
  userPublicKey : string
}.

Inductive Mode := ServerMode | ClientMode | LocalOnly.

(** The options the wire reads, after their defaults. *)
Record Options := {
  mode : Mode;                 (* transportServer / transport(s) / neither *)
  secure : bool;               (* options.secure || false *)
  maxQueueLength : nat;        (* options.maxQueueLength || 1000 *)
  maxAge : Z;
  isTestEnv : bool;            (* !!(options.wss || options.transportServer) *)
  selfId : string              (* utils.text.random(20), drawn once *)
}.

(** *** Callbacks, continuations, timers, effects *)

(** The callbacks the wire holds: a callback of the caller, known by a
    number, or the [res] of the promise a [check] awaits. *)
Inductive Callback := UserCb (n : nat) | CheckResolve (k : nat).

(** What follows a successful [check]: the rest of [handlePut] or the rest
    of the public [put]. *)
Inductive AfterCheck :=
| AfterHandlePut (update : Ham.MixResult) (msgid : string)
| AfterApiPut (update : Ham.MixResult) (data : PutGraph) (cb : option nat).

(** A [check] suspended on the answer for [cc_soul]. *)
Record CheckCont := {
  cc_soul : string;
  cc_rest : list string;
  cc_data : PutGraph;
  cc_after : AfterCheck
}.

(** The pending [setTimeout]s and sleeps. *)
Inductive Timer :=
| TGetTimeout (id : string) (lex : Lex) (cb : Callback)
| TDeferredPut (put : PutGraph) (msgid : string)
| TRateResume (data : string) (clientId : string)
| TQueuePause.

(** What the wire does to its environment.  A callback of a request is
    logged with the id of the request it answers. *)
Inductive Effect :=
| EffCallback (request : string) (cb : nat) (msg : WireMessage)
| EffPutCallback (cb : nat) (err : option string)
| EffListener (cb : nat)
| EffStorePut (g : PutGraph)
| EffRoutedSend (data : string)
| EffSendTo (connId : string) (data : string).

Section Wire.
Context `{Collaborators}.
Variable opt : Options.

Record State := {
  graph : gmap string Node;
  disk : Disk;
  queue : gmap string Callback;
  listen : gmap string (list Listener);
  pendingReferences : gset string;
  dup : gmap string Z;
  fingerTable : FingerTable.t;
  clients : gmap string RateLimiter.Client;
  messageQueue : MessageQueue.t;
  rng : nat;                             (* tokens drawn so far *)
  timers : list (Z * Timer);
  checks : gmap nat CheckCont;
  next_check : nat;
  effects : list Effect
}.

Definition init (d : Disk) : State :=
  {| graph := ∅; disk := d; queue := ∅; listen := ∅; pendingReferences := ∅;
     dup := ∅; fingerTable := FingerTable.empty; clients := ∅;
     messageQueue := MessageQueue.empty; rng := O; timers := [];
     checks := ∅; next_check := O; effects := [] |}.

Definition set_graph (g : gmap string Node) (st : State) : State :=
  {| graph := g; disk := disk st; queue := queue st; listen := listen st;
     pendingReferences := pendingReferences st; dup := dup st;
     fingerTable := fingerTable st; clients := clients st;
     messageQueue := messageQueue st; rng := rng st; timers := timers st;
     checks := checks st; next_check := next_check st; effects := effects st |}.

Definition set_disk (d : Disk) (st : State) : State :=
  {| graph := graph st; disk := d; queue := queue st; listen := listen st;
     pendingReferences := pendingReferences st; dup := dup st;
     fingerTable := fingerTable st; clients := clients st;
     messageQueue := messageQueue st; rng := rng st; timers := timers st;
     checks := checks st; next_check := next_check st; effects := effects st |}.

Definition set_queue (q : gmap string Callback) (st : State) : State :=
  {| graph := graph st; disk := disk st; queue := q; listen := listen st;
     pendingReferences := pendingReferences st; dup := dup st;
     fingerTable := fingerTable st; clients := clients st;
     messageQueue := messageQueue st; rng := rng st; timers := timers st;
     checks := checks st; next_check := next_check st; effects := effects st |}.

Definition set_listen (l : gmap string (list Listener)) (st : State) : State :=
  {| graph := graph st; disk := disk st; queue := queue st; listen := l;
     pendingReferences := pendingReferences st; dup := dup st;
     fingerTable := fingerTable st; clients := clients st;
     messageQueue := messageQueue st; rng := rng st; timers := timers st;
     checks := checks st; next_check := next_check st; effects := effects st |}.

Definition set_pendingReferences (p : gset string) (st : State) : State :=
  {| graph := graph st; disk := disk st; queue := queue st; listen := listen st;
     pendingReferences := p; dup := dup st;
     fingerTable := fingerTable st; clients := clients st;
     messageQueue := messageQueue st; rng := rng st; timers := timers st;
     checks := checks st; next_check := next_check st; effects := effects st |}.

Definition set_dup (d : gmap string Z) (st : State) : State :=
  {| graph := graph st; disk := disk st; queue := queue st; listen := listen st;
     pendingReferences := pendingReferences st; dup := d;
     fingerTable := fingerTable st; clients := clients st;
     messageQueue := messageQueue st; rng := rng st; timers := timers st;
     checks := checks st; next_check := next_check st; effects := effects st |}.

Definition set_fingerTable (ft : FingerTable.t) (st : State) : State :=
  {| graph := graph st; disk := disk st; queue := queue st; listen := listen st;
     pendingReferences := pendingReferences st; dup := dup st;
     fingerTable := ft; clients := clients st;
     messageQueue := messageQueue st; rng := rng st; timers := timers st;
     checks := checks st; next_check := next_check st; effects := effects st |}.

Definition set_clients (c : gmap string RateLimiter.Client) (st : State) : State :=
  {| graph := graph st; disk := disk st; queue := queue st; listen := listen st;
     pendingReferences := pendingReferences st; dup := dup st;
     fingerTable := fingerTable st; clients := c;
     messageQueue := messageQueue st; rng := rng st; timers := timers st;
     checks := checks st; next_check := next_check st; effects := effects st |}.

Definition set_messageQueue (q : MessageQueue.t) (st : State) : State :=
  {| graph := graph st; disk := disk st; queue := queue st; listen := listen st;
     pendingReferences := pendingReferences st; dup := dup st;
     fingerTable := fingerTable st; clients := clients st;
     messageQueue := q; rng := rng st; timers := timers st;
     checks := checks st; next_check := next_check st; effects := effects st |}.

Definition set_rng (n : nat) (st : State) : State :=
  {| graph := graph st; disk := disk st; queue := queue st; listen := listen st;
     pendingReferences := pendingReferences st; dup := dup st;
     fingerTable := fingerTable st; clients := clients st;
     messageQueue := messageQueue st; rng := n; timers := timers st;
     checks := checks st; next_check := next_check st; effects := effects st |}.

Definition set_timers (t : list (Z * Timer)) (st : State) : State :=
  {| graph := graph st; disk := disk st; queue := queue st; listen := listen st;
     pendingReferences := pendingReferences st; dup := dup st;
     fingerTable := fingerTable st; clients := clients st;
     messageQueue := messageQueue st; rng := rng st; timers := t;
     checks := checks st; next_check := next_check st; effects := effects st |}.

Definition set_checks (c : gmap nat CheckCont) (st : State) : State :=
  {| graph := graph st; disk := disk st; queue := queue st; listen := listen st;
     pendingReferences := pendingReferences st; dup := dup st;
     fingerTable := fingerTable st; clients := clients st;
     messageQueue := messageQueue st; rng := rng st; timers := timers st;
     checks := c; next_check := next_check st; effects := effects st |}.

Definition set_next_check (n : nat) (st : State) : State :=
  {| graph := graph st; disk := disk st; queue := queue st; listen := listen st;
     pendingReferences := pendingReferences st; dup := dup st;
     fingerTable := fingerTable st; clients := clients st;
     messageQueue := messageQueue st; rng := rng st; timers := timers st;
     checks := checks st; next_check := n; effects := effects st |}.

Definition set_effects (e : list Effect) (st : State) : State :=
  {| graph := graph st; disk := disk st; queue := queue st; listen := listen st;
     pendingReferences := pendingReferences st; dup := dup st;
     fingerTable := fingerTable st; clients := clients st;
     messageQueue := messageQueue st; rng := rng st; timers := timers st;
     checks := checks st; next_check := next_check st; effects := e |}.

Definition emit (es : list Effect) (st : State) : State :=
  set_effects (effects st ++ es) st.

Definition setTimeout (t : Timer) (delay now : Z) (st : State) : State :=
  set_timers (timers st ++ [(now + delay, t)]) st.

(** *** Sending *)

(** [sendFunction]: [messageQueue.enqueue] with a transport, and the no-op
    of the local-only mode otherwise. *)
Definition sendFunction (data : string) (now : Z) (st : State) : option string * State :=
  match mode opt with
  | LocalOnly => (None, st)
  | _ =>
      let '(err, (q', out)) :=
        MessageQueue.enqueue (maxQueueLength opt) data (messageQueue st) in
      let st1 := emit (map EffRoutedSend out) (set_messageQueue q' st) in
      (err, match out with
            | [] => st1
            | _ => setTimeout TQueuePause MessageQueue.pauseMs now st1
            end)
  end.

(** [dup.track(utils.text.random(9))] *)
Definition fresh_id (now : Z) (st : State) : string * State :=
  let id := random (rng st) in
  (id, set_dup (Dup.track now id (dup st)) (set_rng (S (rng st)) st)).

(** *** getWithCallback *)

Definition defaultWaitMs : Z := 100.

(** [opts.wait || 100] *)
Definition waitMs (o : WireOptions) : Z :=
  match opt_wait o with
  | Some w => if w =? 0 then defaultWaitMs else w
  | None => defaultWaitMs
  end.

(** The null-valued subgraph of the time-out. *)
Definition null_graph (lex : Lex) : PutGraph :=
  let id := js_key (lex_soul lex) in
  match lex_dot lex with
  | DotField field =>
      [(id, Some {| node_states := None; node_values := {[field := VNull]} |})]
  | _ => [(id, None)]
  end.

Definition reply (put : option PutGraph) (err : option string) : WireMessage :=
  {| msg_id := None; msg_at := None; msg_get := None; msg_put := put;
     msg_err := err; msg_hello := None |}.

(** The inner [handleResponse]: the message [cb] is called with, if any. *)
Definition handleResponse (dupTrack request : string) (put : option PutGraph)
    (err : option string) (now : Z) (st : State) : State * option WireMessage :=
  let '(sendResult, st1) := sendFunction request now st in
  match truthy sendResult with
  | Some e => (set_queue (delete dupTrack (queue st1)) st1, Some (reply None (Some e)))
  | None =>
      match put, truthy err with
      | None, None => (st1, None)
      | _, _ => (st1, Some (reply put err))
      end
  end.

(** [getWithCallback] up to the call of [cb]: the id of the request, the
    new state, and the message [cb] is called with before the function
    returns, if any. *)
Definition getWithCallback_core (lex : Lex) (cb : Callback) (o : WireOptions)
    (now : Z) (st : State) : string * (State * option WireMessage) :=
  let ack := Get lex (graph st) (opt_fast o) in
  let '(dupTrack, st1) := fresh_id now st in
  let request := JSON_stringify
                   {| msg_id := Some dupTrack; msg_at := None; msg_get := Some lex;
                      msg_put := None; msg_err := None; msg_hello := None |} in
  match ack with
  | Some a => (dupTrack, handleResponse dupTrack request (Some a) None now st1)
  | None =>
      let '(err, ack') := store_get lex o (disk st1) in
      match ack' with
      | Some a => (dupTrack, handleResponse dupTrack request (Some a) (truthy err) now st1)
      | None =>
          let st2 := set_queue (<[dupTrack := cb]> (queue st1)) st1 in
          let st3 := setTimeout (TGetTimeout dupTrack lex cb) (waitMs o) now st2 in
          (dupTrack, handleResponse dupTrack request None None now st3)
      end
  end.

(** *** check *)

(** [===] on the values of a field ([None] is [undefined]); two relation
    objects are never the same object. *)
Definition strict_eq (a b : option GraphValue) : bool :=
  match a, b with
  | None, None => true
  | Some (VRel _), _ => false
  | _, Some (VRel _) => false
  | Some x, Some y => bool_decide (x = y)
  | _, _ => false
  end.

Definition node_field (soul key : string) (g : PutGraph) : option GraphValue :=
  n ← mjoin (put_lookup soul g); node_values n !! key.

(** One turn of the loop of [check] once the answer [msg] is there:
    [Some e] when the check fails with error [e], [None] to go on. *)
Definition check_verdict (soul : string) (data : PutGraph) (msg : WireMessage)
  : option string :=
  match truthy (msg_err msg) with
  | Some e => Some e
  | None =>
      match p ← msg_put msg; mjoin (put_lookup soul p) with
      | None => None
      | Some answer =>
          match node_field soul userPublicKey data with
          | None => None
          | Some v =>
              if strict_eq (node_values answer !! userPublicKey) (Some v) then None
              else Some ("error in wire check public key does not match for soul: "
                           +:+ soul)
          end
      end
  end.

Definition add_references (refs : list string) (st : State) : State :=
  set_pendingReferences
    (pendingReferences st ∪ list_to_set (List.filter (fun s => negb (String.eqb s "")) refs))
    st.

Definition graph_refs (g : PutGraph) : list string :=
  flat_map (fun e => match snd e with Some n => node_refs n | None => [] end) g.

Definition ack_msg (id msgid : string) (err : option string) : WireMessage :=
  {| msg_id := Some id; msg_at := Some msgid; msg_get := None; msg_put := None;
     msg_err := err; msg_hello := None |}.

(** The code after a [check] that returned [true]. *)
Definition after_ok (after : AfterCheck) (now : Z) (st : State) : State :=
  match after with
  | AfterHandlePut update msgid =>
      let '(d, err) := store_put (Ham.mix_now update) (disk st) in
      let st1 := emit [EffStorePut (Ham.mix_now update)] (set_disk d st) in
      let '(id, st2) := fresh_id now st1 in
      let '(_, st3) := sendFunction (JSON_stringify (ack_msg id msgid err)) now st2 in
      let st4 := emit (map EffListener (Ham.mix_listeners update)) st3 in
      match Ham.mix_defer update with
      | [] => st4
      | _ => setTimeout (TDeferredPut (Ham.mix_defer update) msgid)
                        (Ham.mix_wait update) now st4
      end
  | AfterApiPut update data cb =>
      let st1 := add_references (graph_refs (Ham.mix_now update)) st in
      let '(d, err) := store_put (Ham.mix_now update) (disk st1) in
      let st2 := emit (EffStorePut (Ham.mix_now update)
                       :: match cb with Some c => [EffPutCallback c err] | None => [] end
                       ++ map EffListener (Ham.mix_listeners update))
                      (set_disk d st1) in
      let '(id, st3) := fresh_id now st2 in
      let '(sendResult, st4) :=
        sendFunction (JSON_stringify
                        {| msg_id := Some id; msg_at := None; msg_get := None;
                           msg_put := Some data; msg_err := None; msg_hello := None |})
                     now st3 in
      match truthy sendResult, cb with
      | Some e, Some c => emit [EffPutCallback c (Some e)] st4
      | _, _ => st4
      end
  end.

(** The code after a [check] that returned [false] ([cb?.(err)] was
    called in [check]). *)
Definition after_fail (after : AfterCheck) (e : string) (st : State) : State :=
  match after with
  | AfterHandlePut _ _ => st
  | AfterApiPut _ _ (Some c) => emit [EffPutCallback c (Some e)] st
  | AfterApiPut _ _ None => st
  end.

Definition check_lex (soul : string) : Lex :=
  {| lex_soul := Some soul; lex_dot := DotField userPublicKey |}.

(** The loop of [check] from the souls still to be checked.  When the
    answer for a soul is not there yet the loop is suspended in [checks]. *)
Fixpoint check_loop (todo : list string) (data : PutGraph) (after : AfterCheck)
    (now : Z) (st : State) : State :=
  match todo with
  | [] => after_ok after now st
  | soul :: rest =>
      let k := next_check st in
      let '(_, (st1, answer)) :=
        getWithCallback_core (check_lex soul) (CheckResolve k) no_options now
                             (set_next_check (S k) st) in
      match answer with
      | Some msg =>
          match check_verdict soul data msg with
          | None => check_loop rest data after now st1
          | Some e => after_fail after e st1
          end
      | None =>
          set_checks (<[k := {| cc_soul := soul; cc_rest := rest; cc_data := data;
                                cc_after := after |}]> (checks st1)) st1
      end
  end.

Definition check_resume (cc : CheckCont) (msg : WireMessage) (now : Z) (st : State)
  : State :=
  match check_verdict (cc_soul cc) (cc_data cc) msg with
  | None => check_loop (cc_rest cc) (cc_data cc) (cc_after cc) now st
  | Some e => after_fail (cc_after cc) e st
  end.

(** Calling a callback the wire holds. A promise is resolved once: later
    calls of its [res] do nothing. *)
Definition invoke (cb : Callback) (request : string) (msg : WireMessage) (now : Z)
    (st : State) : State :=
  match cb with
  | UserCb n => emit [EffCallback request n msg] st
  | CheckResolve k =>
      match checks st !! k with
      | Some cc => check_resume cc msg now (set_checks (delete k (checks st)) st)
      | None => st
      end
  end.

Definition getWithCallback (lex : Lex) (cb : Callback) (o : WireOptions) (now : Z)
    (st : State) : State :=
  let '(id, (st1, answer)) := getWithCallback_core lex cb o now st in
  match answer with
  | Some msg => invoke cb id msg now st1
  | None => st1
  end.

(** *** Protocol handlers *)

Definition handleGet (lex : Lex) (msgid : string) (now : Z) (st : State) : State :=
  let respond put err st :=
    let '(id, st1) := fresh_id now st in
    snd (sendFunction
           (JSON_stringify {| msg_id := Some id; msg_at := Some msgid; msg_get := None;
                              msg_put := put; msg_err := err; msg_hello := None |})
           now st1) in
  match Get lex (graph st) false with
  | Some ack => respond (Some ack) None st
  | None =>
      let '(err, ack) :=
        store_get lex {| opt_wait := None; opt_fast := false; opt_secure := true |}
                  (disk st) in
      respond ack (truthy err) st
  end.

Definition handlePut (put : PutGraph) (msgid : string) (now : Z) (st : State) : State :=
  let update := Ham_mix now put (graph st) (secure opt) (listen st) in
  let st1 := set_graph (Ham.mix_graph update) st in
  match Ham.mix_now update with
  | [] =>
      match Ham.mix_defer update with
      | [] => st1
      | _ => setTimeout (TDeferredPut (Ham.mix_defer update) msgid)
                        (Ham.mix_wait update) now st1
      end
  | _ => check_loop (souls (Ham.mix_now update)) (Ham.mix_now update)
                    (AfterHandlePut update msgid) now st1
  end.

(** *** Message handler *)

Definition maxSize : Z := 10 * 1024 * 1024.

Definition validateMessage (data : string) : bool :=
  negb (maxSize <? Z.of_nat (String.length data)).

Definition soul_lex (soul : string) : Lex := {| lex_soul := Some soul; lex_dot := DotNone |}.

Definition hasSoul (soul : string) (st : State) : bool :=
  if bool_decide (is_Some (graph st !! soul)) then true
  else
    let '(err, data) := store_get (soul_lex soul) no_options (disk st) in
    match truthy err, data with
    | None, Some d => match put_lookup soul d with Some (Some _) => true | _ => false end
    | _, _ => false
    end.

(** [(await hasSoul(soul)) || pendingReferences.has(soul) || listen[soul]] *)
Definition subscribed (soul : string) (st : State) : bool :=
  hasSoul soul st
  || bool_decide (soul ∈ pendingReferences st)
  || bool_decide (is_Some (listen st !! soul)).

(** First loop over [msg.put]: the references of the relevant souls. *)
Definition extract_references (put : PutGraph) (st : State) : State :=
  fold_left (fun st e =>
               match snd e with
               | Some node =>
                   if subscribed (fst e) st then add_references (node_refs node) st
                   else st
               | None => st
               end) put st.

(** [o[k] = v] on the entries of an object. *)
Fixpoint obj_set (k : string) (v : option Node) (g : PutGraph) : PutGraph :=
  match g with
  | [] => [(k, v)]
  | (k', v') :: g' =>
      if String.eqb k' k then (k, v) :: g' else (k', v') :: obj_set k v g'
  end.

(** Second loop over [msg.put]: the souls that are kept. *)
Definition filter_souls (put : PutGraph) (st : State) : PutGraph * State :=
  fold_left (fun acc e =>
               if subscribed (fst e) (snd acc)
               then (obj_set (fst e) (snd e) (fst acc),
                     set_pendingReferences (pendingReferences (snd acc) ∖ {[fst e]})
                                           (snd acc))
               else acc) put ([], st).

(** The [if (msg.put)] block of [handleMessage]: both loops, then
    [handlePut] on what is kept. *)
Definition handlePutMessage (put : PutGraph) (msgid : string) (now : Z) (st : State)
  : State :=
  let '(filteredPut, st') := filter_souls put (extract_references put st) in
  match filteredPut with
  | [] => st'
  | _ => handlePut filteredPut msgid now st'
  end.

Definition handleHello (pub : option string) (clientId : string) (st : State) : State :=
  match truthy pub, truthy (Some clientId) with
  | Some pubKey, Some connId =>
      set_fingerTable
        (snd (FingerTable.addPeer sha256 (selfId opt)
                {| FingerTable.peer_id := pubKey; FingerTable.peer_send := connId |}
                (fingerTable st))) st
  | _, _ => st
  end.

Definition handleAck (msg : WireMessage) (now : Z) (st : State) : State :=
  match queue st !! js_key (msg_at msg) with
  | Some cb =>
      let msg' := {| msg_id := None; msg_at := None; msg_get := msg_get msg;
                     msg_put := msg_put msg; msg_err := msg_err msg;
                     msg_hello := msg_hello msg |} in
      let st1 := invoke cb (js_key (msg_at msg)) msg' now st in
      (* [msg["@"]] was deleted just before: the key is [undefined] *)
      set_queue (delete (js_key (msg_at msg')) (queue st1)) st1
  | None => st
  end.

(** [handleMessage] from [JSON.parse] on. *)
Definition handleMessage_body (data clientId : string) (now : Z) (st : State) : State :=
  match JSON_parse data with
  | None => st
  | Some msg =>
      match truthy (msg_id msg) with
      | None => st
      | Some id =>
          let '(seen, d) := Dup.check now id (dup st) in
          if seen then set_dup d st
          else
            let st1 := set_dup (Dup.track now id d) st in
            let st2 := match msg_hello msg with
                       | Some pub => handleHello pub clientId st1
                       | None => st1
                       end in
            let st3 := match msg_get msg with
                       | Some lex => handleGet lex id now st2
                       | None => st2
                       end in
            let st4 := match msg_put msg with
                       | Some put => handlePutMessage put id now st3
                       | None => st3
                       end in
            handleAck msg now st4
      end
  end.

Definition handleMessage (data clientId : string) (now : Z) (st : State) : State :=
  if validateMessage data then
    let '(delay, c) := RateLimiter.getDelay now clientId (clients st) in
    let st1 := set_clients c st in
    if 0 <? delay then
      if RateLimiter.shouldDisconnect clientId c then st1
      else setTimeout (TRateResume data clientId) delay now st1
    else handleMessage_body data clientId now st1
  else st.

(** *** Timers *)

Definition fire (t : Timer) (now : Z) (st : State) : State :=
  match t with
  | TGetTimeout id lex cb =>
      match queue st !! id with
      | Some _ =>
          let ack := {| msg_id := Some id; msg_at := None; msg_get := None;
                        msg_put := Some (null_graph lex); msg_err := None;
                        msg_hello := None |} in
          let st1 := invoke cb id ack now st in
          set_queue (delete id (queue st1)) st1
      | None => st
      end
  | TDeferredPut put msgid => handlePut put msgid now st
  | TRateResume data clientId => handleMessage_body data clientId now st
  | TQueuePause =>
      let '(q', out) := MessageQueue.resume (messageQueue st) in
      let st1 := emit (map EffRoutedSend out) (set_messageQueue q' st) in
      match out with
      | [] => st1
      | _ => setTimeout TQueuePause MessageQueue.pauseMs now st1
      end
  end.

(** The [k]-th pending timer fires, when it is due. *)
Definition fire_timer (k : nat) (now : Z) (st : State) : State :=
  match timers st !! k with
  | Some (deadline, t) =>
      if deadline <=? now then fire t now (set_timers (delete k (timers st)) st)
      else st
  | None => st
  end.

(** *** Public API *)

(** [if (typeof lex["."] === "number") lex = {...lex, ".": String(lex["."])}] *)
Definition normalize (lex : Lex) : Lex :=
  match lex_dot lex with
  | DotNumber n => {| lex_soul := lex_soul lex; lex_dot := DotField (pretty n) |}
  | _ => lex
  end.

Definition api_get (lex : Lex) (cb : nat) (o : option WireOptions) (now : Z)
    (st : State) : State :=
  let lex := normalize lex in
  let st1 := match truthy (lex_soul lex) with
             | Some soul => set_pendingReferences (pendingReferences st ∪ {[soul]}) st
             | None => st
             end in
  getWithCallback lex (UserCb cb) (default no_options o) now st1.

Definition api_put (data : PutGraph) (cb : option nat) (now : Z) (st : State) : State :=
  let update := Ham_mix now data (graph st) (secure opt) (listen st) in
  let st1 := set_graph (Ham.mix_graph update) st in
  match Ham.mix_now update with
  | [] => match cb with
          | Some c => emit [EffPutCallback c None] st1
          | None => st1
          end
  | _ => check_loop (souls (Ham.mix_now update)) (Ham.mix_now update)
                    (AfterApiPut update data cb) now st1
  end.

Definition api_on (lex : Lex) (cb : nat) (get : bool) (o : option WireOptions)
    (now : Z) (st : State) : State :=
  let lex := normalize lex in
  match truthy (lex_soul lex) with
  | None => st
  | Some soul =>
      let st1 := set_listen
                   (<[soul := default [] (listen st !! soul)
                              ++ [{| listener_dot := lex_dot lex; listener_cb := cb |}]]>
                      (listen st)) st in
      if get then getWithCallback lex (UserCb cb) (default no_options o) now st1
      else st1
  end.

Definition api_off (lex : Lex) (cb : option nat) (st : State) : State :=
  match truthy (lex_soul lex) with
  | None => st
  | Some soul =>
      match listen st !! soul with
      | None => st
      | Some ls =>
          match cb with
          | Some c =>
              match FingerTable.findIndex (fun l => Nat.eqb (listener_cb l) c) ls with
              | Some idx =>
                  set_listen (<[soul := FingerTable.splice1 idx ls]> (listen st)) st
              | None => st
              end
          | None => set_listen (delete soul (listen st)) st
          end
      end
  end.

(** *** The event loop

    Every handler runs to completion: the store, [Ham.mix] and the finger
    table answer before the next event is taken, and what a handler
    awaits for longer (a timer, the answer to a request) is kept in
    [timers], [queue] and [checks]. *)
Inductive Event :=
| EvMessage (data clientId : string)       (* the transport delivers a frame *)
| EvConnection (id : string)
| EvDisconnection (id : string)
| EvTimer (k : nat)
| EvGet (lex : Lex) (cb : nat) (o : option WireOptions)
| EvPut (data : PutGraph) (cb : option nat)
| EvOn (lex : Lex) (cb : nat) (get : bool) (o : option WireOptions)
| EvOff (lex : Lex) (cb : option nat)
| EvRateCleanup
| EvDupSweep.

Definition hello_msg : string :=
  JSON_stringify {| msg_id := None; msg_at := None; msg_get := None; msg_put := None;
                    msg_err := None; msg_hello := Some (Some (selfId opt)) |}.

Definition onDisconnection (id : string) (st : State) : State :=
  set_fingerTable (FingerTable.removePeer sha256 (selfId opt) id (fingerTable st)) st.

Definition step (st : State) (ev : Z * Event) : State :=
  let now := fst ev in
  match snd ev with
  | EvMessage data clientId =>
      match mode opt with
      | ServerMode => handleMessage data clientId now st
      | ClientMode => handleMessage data "server" now st
      | LocalOnly => st
      end
  | EvConnection id =>
      match mode opt with
      | ServerMode => emit [EffSendTo id hello_msg] st
      | _ => st
      end
  | EvDisconnection id =>
      match mode opt with
      | ServerMode => onDisconnection id st
      | _ => st
      end
  | EvTimer k => fire_timer k now st
  | EvGet lex cb o => api_get lex cb o now st
  | EvPut data cb => api_put data cb now st
  | EvOn lex cb get o => api_on lex cb get o now st
  | EvOff lex cb => api_off lex cb st
  | EvRateCleanup =>
      if isTestEnv opt then st        (* the sweep is not installed *)
      else set_clients (RateLimiter.cleanup now (clients st)) st
  | EvDupSweep => set_dup (Dup.sweep (maxAge opt) now (dup st)) st
  end.

Definition run (evs : list (Z * Event)) (st : State) : State :=
  fold_left step evs st.

End Wire.
End Wire.

(** ** wire-transport.ts: routedSend of the server mode *)

Module Routing.
Import Schema Wire.

(** What [routedSend] asks of the transport server: [server.sendTo], which
    is what the [send] of a peer of the finger table does, or
    [server.broadcast]. *)
Inductive Delivery :=
| SendTo (connId data : string)
| Broadcast (data : string).

Section Routing.
Context `{Collaborators}.
Variable keys : gmap string FingerTable.Peer -> list string.

(** [if (msg.get && msg.get["#"]) targetId = msg.get["#"]
     else if (msg.put) targetId = Object.keys(msg.put)[0]] *)
Definition targetId (msg : WireMessage) : option string :=
  match msg_get msg ≫= (fun lex => truthy (lex_soul lex)) with
  | Some soul => Some soul
  | None => put ← msg_put msg; head (souls put)
  end.

(** A frame that does not parse makes [JSON.parse] throw, which is caught:
    the frame is broadcast. *)
Definition routedSend (data : string) (ft : FingerTable.t) : list Delivery :=
  match JSON_parse data with
  | None => [Broadcast data]
  | Some msg =>
      match truthy (targetId msg) with
      | Some target =>
          match FingerTable.findClosestPeers sha256 keys target FingerTable.DEFAULT_K ft with
          | [] => [Broadcast data]
          | peers => map (fun p => SendTo (FingerTable.peer_send p) data) peers
          end
      | None => [Broadcast data]
      end
  end.

End Routing.
End Routing.

(** ** Concrete collaborators

    An instance of the interface, used to run the wire on concrete inputs. *)

Module Reference.
Import Schema.

(** Modelled from the spec: Get (get.ts is not part of the sources at
    hand).  The matching subgraph, or nothing when the graph lacks the
    requested soul or field. *)
Definition Get (lex : Lex) (graph : gmap string Node) (fast : bool) : option PutGraph :=
  soul ← lex_soul lex;
  node ← graph !! soul;
  match lex_dot lex with
  | DotNone => Some [(soul, Some node)]
  | d =>
      let vals := filter (fun kv => Ham.dot_matches d (fst kv) = true) (node_values node) in
      if bool_decide (vals = ∅) then None
      else Some [(soul, Some {| node_states :=
                                  Some (filter (fun kv => is_Some (vals !! fst kv))
                                               (default ∅ (node_states node)));
                                node_values := vals |})]
  end.

(** Modelled from the spec: Store (store.ts is not part of the sources at
    hand).  The disk is a graph; [get] answers like [Get] and never fails,
    [put] writes every node of the graph. *)
Definition store_get (lex : Lex) (o : WireOptions) (disk : gmap string Node)
  : option string * option PutGraph := (None, Get lex disk false).

Definition store_put (g : PutGraph) (disk : gmap string Node)
  : gmap string Node * option string :=
  (fold_left (fun d e => match snd e with
                         | Some n => <[fst e := Ham.merge_node n (d !! fst e)]> d
                         | None => d
                         end) g disk, None).

(** A stand-in for SHA-256: the character codes of the id. *)
Definition codes (s : string) : list Z :=
  map (fun c => Z.of_nat (Ascii.nat_of_ascii c)) (String.list_ascii_of_string s).

(** A stand-in for the JSON codec: the frames of a table are parsed to
    their message, any other frame fails to parse. *)
Fixpoint parse (table : list (string * WireMessage)) (data : string)
  : option WireMessage :=
  match table with
  | [] => None
  | (k, m) :: table' => if String.eqb k data then Some m else parse table' data
  end.

Definition stringify (m : WireMessage) : string :=
  "#" +:+ js_key (msg_id m) +:+ "@" +:+ js_key (msg_at m).

#[local] Instance collaborators (table : list (string * WireMessage))
  : Wire.Collaborators := {|
  Wire.sha256 := codes;
  Wire.JSON_parse := parse table;
  Wire.JSON_stringify := stringify;
  Wire.Get := Get;
  Wire.Disk := gmap string Node;
  Wire.store_get := store_get;
  Wire.store_put := store_put;
  Wire.Ham_mix := Ham.mix (fun _ _ _ _ => true);
  Wire.random := fun n => "r" +:+ pretty n;
  Wire.userPublicKey := "pub"
|}.

Definition options (m : Wire.Mode) : Wire.Options :=
  {| Wire.mode := m; Wire.secure := false; Wire.maxQueueLength := 1000;
     Wire.maxAge := 9000; Wire.isTestEnv := true; Wire.selfId := "self" |}.

End Reference.

(* ===================================================================== *)
(** * Part II: the vocabulary of the statements                           *)
(* ===================================================================== *)

(** ** The finger table *)

Module FingerTableSpec.
Import FingerTable.
Section WithSelf.
Variable sha256 : string -> list Z.
Variable selfId : string.

(** The representation invariant of the two maps. *)
Record Inv (ft : t) : Prop := {
  inv_key : forall i p, peerMap ft !! i = Some p -> peer_id p = i;
  inv_stored : forall i p, peerMap ft !! i = Some p ->
      exists b, buckets ft !! XOR.bucketIndex sha256 selfId i = Some b /\ p ∈ b;
  inv_bucket : forall k b, buckets ft !! k = Some b ->
      b <> [] /\ (length b <= K_BUCKET_SIZE)%nat /\ NoDup (peer_id <$> b) /\
      forall p, p ∈ b -> XOR.bucketIndex sha256 selfId (peer_id p) = k /\
                         peerMap ft !! peer_id p = Some p;
  inv_count : size (peerMap ft) = total (buckets ft)
}.

End WithSelf.
End FingerTableSpec.

(** ** The outbound queue *)

Module MessageQueueSpec.
Import MessageQueue.

Definition last_time (l : list (Z * string)) : option Z := fst <$> last l.

(** What holds of the queue between two events. *)
Record Inv (s : sys) : Prop := {
  inv_fifo : map snd (sent s) ++ queue (sq s) = accepted s;
  inv_paced : paced (sent s);
  inv_idle : processing (sq s) = false -> queue (sq s) = [] /\ timer s = None /\
             forall t, last_time (sent s) = Some t -> t + pauseMs <= clock s;
  inv_busy : processing (sq s) = true ->
             exists t, last_time (sent s) = Some t /\ timer s = Some (t + pauseMs) /\
                       t <= clock s
}.

End MessageQueueSpec.

(** ** The merge *)

Module HamSpec.
Import Schema Ham.
Section Mix.
Variable eligible : bool -> string -> Node -> string -> bool.
Variable now : Z.
Variable secure : bool.

(** What the fold of [mix] has established about [wait] after the entries
    [seen]: it is 0 or the delay of a deferred field, and no deferred
    field has a smaller delay. *)
Definition wait_ok (seen : PutGraph) (w : Z) : Prop :=
  0 <= w /\
  (w = 0 \/ exists soul node f v, (soul, Some node) ∈ seen /\
               node_values node !! f = Some v /\
               field_verdict eligible now ∅ secure soul node f v = Deferred w) /\
  (forall soul node f v d, (soul, Some node) ∈ seen ->
     node_values node !! f = Some v ->
     field_verdict eligible now ∅ secure soul node f v = Deferred d -> 0 < w <= d).

End Mix.

(** The field the merge leaves aside: not staged in [now], and not applied
    to the graph. *)
Definition set_aside (r : MixResult) (graph : gmap string Node) (soul f : string) : Prop :=
  (forall n, (soul, Some n) ∈ mix_now r -> node_values n !! f = None) /\
  (forall v, current_value (mix_graph r) soul f = Some v ->
             current_value graph soul f = Some v).

(** The field is staged in [defer], with its value and its state. *)
Definition put_off (r : MixResult) (soul f : string) (v : GraphValue) (state : Z) : Prop :=
  exists n, (soul, Some n) ∈ mix_defer r /\ node_values n !! f = Some v /\
            (node_states n ≫= (fun m => m !! f)) = Some state.

End HamSpec.

(** ** Frames of the wire

    A handler is described by what it adds: [D st st'] says that from [st]
    to [st'] the entries of [queue] selected by [Q] are untouched, and that
    only timers, effects and suspended checks that are fine were added,
    where being fine is measured by [Q], by a property [Good] of the graphs
    that are written or deferred, and by the frames [Resumable] that may be
    delayed. *)

Module Frame.
Import Schema Wire.
Section Frame.
Context `{Collaborators}.
Variable opt : Options.
Variable Q : string -> Prop.
Variable Good : PutGraph -> Prop.
Variable Resumable : string -> Prop.

Definition GoodUpdate (u : Ham.MixResult) : Prop :=
  Good (Ham.mix_now u) /\ Good (Ham.mix_defer u).

Definition GoodAfter (a : AfterCheck) : Prop :=
  match a with
  | AfterHandlePut u _ => GoodUpdate u
  | AfterApiPut u _ _ => Good (Ham.mix_now u)
  end.

Definition PC (cc : CheckCont) : Prop := GoodAfter (cc_after cc).

Definition PT (t : Timer) : Prop :=
  match t with
  | TGetTimeout i _ _ => ~ Q i
  | TDeferredPut put _ => Good put
  | TRateResume data _ => Resumable data
  | TQueuePause => True
  end.

Definition PE (e : Effect) : Prop :=
  match e with
  | EffCallback i _ _ => ~ Q i
  | EffStorePut g => Good g
  | _ => True
  end.

(** The tokens still to be drawn are not selected by [Q]. *)
Definition Fresh (st : State) : Prop := forall k, (rng st <= k)%nat -> ~ Q (random k).

Definition GoodChecks (st : State) : Prop :=
  forall k cc, checks st !! k = Some cc -> PC cc.

Record D (st st' : State) : Prop := {
  d_rng : (rng st <= rng st')%nat;
  d_queue : forall i, Q i -> queue st' !! i = queue st !! i;
  d_timers : exists new, timers st' = timers st ++ new /\
                         Forall (fun dt => PT (snd dt)) new;
  d_effects : exists new, effects st' = effects st ++ new /\ Forall PE new;
  d_checks : GoodChecks st -> GoodChecks st'
}.

(** The subscription view of a state: what the filter of an inbound PUT
    reads. *)
Definition sub_eq (st st' : State) : Prop :=
  graph st' = graph st /\ disk st' = disk st /\ listen st' = listen st /\
  pendingReferences st' = pendingReferences st.

(** What the frame asks of a frame of the transport that reaches
    [handleMessage_body] in state [st]. *)
Definition BodyOK (data : string) (st : State) : Prop :=
  forall msg, JSON_parse data = Some msg ->
    (~ Q (js_key (msg_at msg)) /\ ~ Q "undefined") /\
    forall put st3, msg_put msg = Some put -> sub_eq st st3 ->
      Good (fst (filter_souls put (extract_references put st3))).

Definition FireOK (t : Timer) (st : State) : Prop :=
  PT t /\ match t with TRateResume data _ => BodyOK data st | _ => True end.

(** What the frame asks of an event other than a timer. *)
Definition EventOK (ev : Z * Event) (st : State) : Prop :=
  match snd ev with
  | EvMessage data _ => mode opt = LocalOnly \/ (BodyOK data st /\ Resumable data)
  | EvPut data _ => Good data
  | _ => True
  end.

End Frame.
End Frame.

(** ** The time-out of a GET *)

Module GetSpec.
Import Schema Wire.
Section Vocabulary.
Context `{Collaborators}.
Variable opt : Options.

(** The calls of the callback of request [id] in a log. *)
Definition calls_of (id : string) (es : list Effect) : list (nat * WireMessage) :=
  omap (fun e => match e with
                 | EffCallback r cb m => if String.eqb r id then Some (cb, m) else None
                 | _ => None
                 end) es.

(** The message of the time-out of request [id]. *)
Definition timeout_msg (id : string) (lex : Lex) : WireMessage :=
  {| msg_id := Some id; msg_at := None; msg_get := None;
     msg_put := Some (null_graph lex); msg_err := None; msg_hello := None |}.

(** The frame [data] does not answer request [id]. *)
Definition no_ack (id data : string) : Prop :=
  forall msg, JSON_parse data = Some msg -> js_key (msg_at msg) <> id.

(** No frame among the events answers request [id]. *)
Definition no_ack_event (id : string) (ev : Z * Event) : Prop :=
  match snd ev with
  | EvMessage data _ => no_ack id data
  | _ => True
  end.

(** [sendFunction] will not report an error: there is no transport, or
    there is room in the outbound queue. *)
Definition send_ok (st : State) : Prop :=
  mode opt = LocalOnly \/
  (length (MessageQueue.queue (messageQueue st)) < maxQueueLength opt)%nat.

(** A pending timer that has nothing to do with request [id]; [resumable]
    tells which delayed frames may be pending. *)
Definition foreign (resumable : string -> Prop) (id : string) (t : Timer) : Prop :=
  match t with
  | TGetTimeout i _ _ => i <> id
  | TRateResume data _ => resumable data
  | _ => True
  end.

(** The request [id] has timed out: its entry is gone, no timer is left
    for it, and since the log was [base] long its callback [cb] was called
    once, with the null-valued subgraph. *)
Definition TimedOut (resumable : string -> Prop) (id : string) (lex : Lex) (cb : nat)
    (base : nat) (st : State) : Prop :=
  queue st !! id = None /\
  calls_of id (drop base (effects st)) = [(cb, timeout_msg id lex)] /\
  Forall (fun dt => foreign resumable id (snd dt)) (timers st).

(** The request [id] is pending: its entry and its timer are there, its
    callback was not called, and the timer leads to [TimedOut] whenever it
    fires, which it does not do before [deadline]. *)
Definition Pending (resumable : string -> Prop) (id : string) (lex : Lex) (cb : nat)
    (deadline : Z) (base : nat) (st : State) : Prop :=
  queue st !! id = Some (UserCb cb) /\
  calls_of id (drop base (effects st)) = [] /\
  exists k, timers st !! k = Some (deadline, TGetTimeout id lex (UserCb cb)) /\
    forall now, deadline <= now ->
      TimedOut resumable id lex cb base (step opt st (now, EvTimer k)).

(** The events the proof can follow: no frame is received, or the frame
    may be delayed. *)
Definition EventFine (resumable : string -> Prop) (ev : Z * Event) : Prop :=
  match snd ev with
  | EvMessage data _ => mode opt = LocalOnly \/ resumable data
  | _ => True
  end.

End Vocabulary.

Section Invariants.
Context `{Collaborators}.
Variable id : string.
Variable lex : Lex.
Variable cb : nat.
Variable deadline : Z.
Variable base : list Effect.
Variable R : string -> Prop.

(** The two states of the request, as the induction over the events sees
    them. *)
Record IPending (st : State) : Prop := {
  ip_fresh : Frame.Fresh (fun i => i = id) st;
  ip_queue : queue st !! id = Some (UserCb cb);
  ip_timers : exists l1 l2,
      timers st = l1 ++ (deadline, TGetTimeout id lex (UserCb cb)) :: l2 /\
      Forall (fun dt => Frame.PT (fun i => i = id) (fun _ => True) R (snd dt)) l1 /\
      Forall (fun dt => Frame.PT (fun i => i = id) (fun _ => True) R (snd dt)) l2;
  ip_effects : exists new, effects st = base ++ new /\
                           Forall (Frame.PE (fun i => i = id) (fun _ => True)) new
}.

Record IDone (st : State) : Prop := {
  id_fresh : Frame.Fresh (fun i => i = id) st;
  id_queue : queue st !! id = None;
  id_timers : Forall (fun dt => Frame.PT (fun i => i = id) (fun _ => True) R (snd dt))
                     (timers st);
  id_effects : exists e1 e2,
      effects st = base ++ e1 ++ EffCallback id cb (timeout_msg id lex) :: e2 /\
      Forall (Frame.PE (fun i => i = id) (fun _ => True)) e1 /\
      Forall (Frame.PE (fun i => i = id) (fun _ => True)) e2
}.

End Invariants.
End GetSpec.

(** ** The subscription filter *)

Module FilterSpec.
Import Schema Wire.
Section Vocabulary.
Context `{Collaborators}.

(** The effect is a store write of a graph with [soul]. *)
Definition writes (soul : string) (e : Effect) : Prop :=
  match e with EffStorePut g => soul ∈ souls g | _ => False end.

(** The timer is a deferred PUT of a graph with [soul]. *)
Definition defers (soul : string) (t : Timer) : Prop :=
  match t with TDeferredPut put _ => soul ∈ souls put | _ => False end.

(** The suspended check will persist or defer a graph with [soul]. *)
Definition carries (soul : string) (cc : CheckCont) : Prop :=
  match cc_after cc with
  | AfterHandlePut u _ => soul ∈ souls (Ham.mix_now u) \/ soul ∈ souls (Ham.mix_defer u)
  | AfterApiPut u _ _ => soul ∈ souls (Ham.mix_now u)
  end.

Definition quiet_checks (soul : string) (st : State) : Prop :=
  forall k cc, checks st !! k = Some cc -> ~ carries soul cc.

(** From [st] to [st'] nothing was written for [soul], and no work that
    would write it was left behind. *)
Definition untouched (soul : string) (st st' : State) : Prop :=
  (exists new, effects st' = effects st ++ new /\ Forall (fun e => ~ writes soul e) new) /\
  (exists new, timers st' = timers st ++ new /\
               Forall (fun dt => ~ defers soul (snd dt)) new) /\
  quiet_checks soul st'.

(** What is asked of [Ham.mix]: it stages and defers only souls of the
    change it is given. *)
Definition mix_sound (soul : string) : Prop :=
  forall now change g sec l,
    soul ∉ souls change ->
    (soul ∉ souls (Ham.mix_now (Ham_mix now change g sec l))) /\
    (soul ∉ souls (Ham.mix_defer (Ham_mix now change g sec l))).

End Vocabulary.
End FilterSpec.

(** ** Observations on the wire *)

Module WireSpec.
Import Schema Wire.
Section Vocabulary.
Context `{Collaborators}.

(** The two states agree on the graph, the pending replies, the
    subscriptions, the pending references, the finger table, the store,
    what was done to the environment, the suspended checks and the
    outbound queue. *)
Definition same_wire (st st' : State) : Prop :=
  graph st' = graph st /\ queue st' = queue st /\ listen st' = listen st /\
  pendingReferences st' = pendingReferences st /\
  fingerTable st' = fingerTable st /\ disk st' = disk st /\
  effects st' = effects st /\ checks st' = checks st /\
  messageQueue st' = messageQueue st.

(** The souls of the graphs handed to [store.put], in order. *)
Definition store_writes (es : list Effect) : list (list string) :=
  omap (fun e => match e with EffStorePut g => Some (souls g) | _ => None end) es.

(** The deadlines of the pending deferred PUTs. *)
Definition deferred_deadlines (st : State) : list Z :=
  omap (fun dt => match snd dt with TDeferredPut _ _ => Some (fst dt) | _ => None end)
       (timers st).

End Vocabulary.
End WireSpec.

(** ** Scenarios

    Concrete wires, states and frames on which the statements are run. *)

Module Scenarios.
Import Schema Wire.

Definition field_node (f : string) (state : Z) (v : GraphValue) : Node :=
  {| node_states := Some {[ f := state ]}; node_values := {[ f := v ]} |}.

Definition alice : Node := field_node "name" 1 (VString "Alice").
Definition bob : Node := field_node "name" 2 (VString "Bob").

(** A node with one field that is due and one dated at 1050. *)
Definition mixed : Node :=
  {| node_states := Some {[ "name" := 2; "later" := 1050 ]};
     node_values := {[ "name" := VString "Bob"; "later" := VString "soon" ]} |}.

Definition put_msg (id : string) (g : PutGraph) : WireMessage :=
  {| msg_id := Some id; msg_at := None; msg_get := None; msg_put := Some g;
     msg_err := None; msg_hello := None |}.

Definition hello_msg (id pub : string) : WireMessage :=
  {| msg_id := Some id; msg_at := None; msg_get := None; msg_put := None;
     msg_err := None; msg_hello := Some (Some pub) |}.

(** The frames the stand-in codec parses. *)
Definition frames : list (string * WireMessage) :=
  [ ("put-s", put_msg "m1" [("s", Some bob)]);
    ("put-x", put_msg "m2" [("x", Some bob)]);
    ("put-mixed", put_msg "m3" [("s", Some mixed)]);
    ("hello", hello_msg "m4" "alice-key") ].

Definition env : Collaborators := Reference.collaborators frames.

Definition server : Options := Reference.options ServerMode.
Definition local : Options := Reference.options LocalOnly.

(** A server whose outbound queue holds one message at most. *)
Definition tight : Options :=
  {| mode := ServerMode; secure := false; maxQueueLength := 1; maxAge := 9000;
     isTestEnv := true; selfId := "self" |}.

(** A fresh wire, and a wire whose store holds soul [s]. *)
Definition blank : @State env := @init env (∅ : gmap string Node).
Definition cold : @State env := @init env ({[ "s" := alice ]} : gmap string Node).

(** A wire that has seen message [m1]. *)
Definition seen_m1 : @State env := @set_dup env (Dup.track 0 "m1" ∅) blank.

Definition lex_of (soul : string) (d : LexDot) : Lex :=
  {| lex_soul := Some soul; lex_dot := d |}.

(** A client with 1500 requests in the window and 9 throttles so far. *)
Definition throttled : gmap string RateLimiter.Client :=
  {[ "c" := {| RateLimiter.requests := repeat 0 1500; RateLimiter.lastCleanup := 0;
               RateLimiter.throttleCount := 9 |} ]}.

End Scenarios.

(** ** XOR distances as numbers *)

Module XORSpec.

(** The content of a [Uint8Array]. *)
Definition is_bytes (l : list Z) : Prop := Forall (fun b => 0 <= b < 256) l.

(** The number a buffer holds, most significant byte first. *)
Fixpoint value (l : list Z) : Z :=
  match l with
  | [] => 0
  | b :: rest => b * 256 ^ Z.of_nat (length rest) + value rest
  end.

(** The number of binary digits of a number. *)
Definition bits (n : Z) : Z := if n =? 0 then 0 else Z.log2 n + 1.

Section Hashed.
Variable sha256 : string -> list Z.

(** The distance [findKClosest] sorts by. *)
Definition to_target (targetId peerId : string) : list Z :=
  XOR.xorBuffers (XOR.toHash sha256 peerId) (XOR.toHash sha256 targetId).

(** [a] is not farther from the target than [b]. *)
Definition not_farther (targetId a b : string) : Prop :=
  XOR.compareDistance (to_target targetId a) (to_target targetId b) <= 0.

End Hashed.
End XORSpec.

(** ** Walks of the finger table *)

Module WalkSpec.
Import FingerTable.

(** [keys] lists the keys of a map, each once. *)
Definition Enumerates (keys : gmap string Peer -> list string) : Prop :=
  forall m, NoDup (keys m) /\ forall i, i ∈ keys m <-> is_Some (m !! i).

(** The walk in the order of the keys. *)
Definition by_key (m : gmap string Peer) : list string := (map_to_list m).*1.

(** The tables that calls of the interface build. *)
Definition reachable (sha256 : string -> list Z) (selfId : string) (ft : t) : Prop :=
  exists calls, ft = run_calls sha256 selfId calls empty.

End WalkSpec.

(** ** The rate limiter over time *)

Module LimiterSpec.
Import RateLimiter.

(** The requests recorded for a client; none for an unknown client. *)
Definition requests_of (clients : gmap string Client) (c : string) : list Z :=
  match clients !! c with Some cl => requests cl | None => [] end.

(** The clock does not go back over the calls. *)
Definition clock_ok (cs : list call) : Prop := Sorted Z.le (map call_time cs).

End LimiterSpec.

(** ** More scenarios *)

Module Samples.
Import Schema Wire.

(** The HELLO frame of a wire whose id is [self], and a codec that parses
    it. *)
Definition hello_frame : WireMessage :=
  {| msg_id := None; msg_at := None; msg_get := None; msg_put := None;
     msg_err := None; msg_hello := Some (Some "self") |}.

Definition hello_env : Collaborators :=
  Reference.collaborators [(Reference.stringify hello_frame, hello_frame)].

(** A server that has a GET for soul [s] pending, made at 1000. *)
Definition asked : @State Scenarios.env :=
  @api_get Scenarios.env Scenarios.server (Scenarios.lex_of "s" DotNone) 0 None 1000
           Scenarios.blank.

(** A wire whose graph holds soul [s]. *)
Definition warm : @State Scenarios.env :=
  @set_graph Scenarios.env {[ "s" := Scenarios.alice ]} Scenarios.blank.

(** A wire that knows the peer [alice-key] over connection [ws_1]. *)
Definition met : @State Scenarios.env :=
  @run Scenarios.env Scenarios.server [(1000, EvMessage "hello" "ws_1")] Scenarios.blank.

End Samples.

(** ** The callback of a put *)

Module PutSpec.
Import Schema Wire.

(** The calls of the callbacks of [put] in a log, with the error they were
    given. *)
Definition put_calls (es : list Effect) : list (nat * option string) :=
  omap (fun e => match e with EffPutCallback c err => Some (c, err) | _ => None end) es.

End PutSpec.

(* ===================================================================== *)
(** * Part III: the proofs                                                *)
(* ===================================================================== *)

Ltac case_if_in H :=
  match type of H with context [if ?b then _ else _] => destruct b end.

Module FingerTableFacts.
Import FingerTable FingerTableSpec.

Lemma findIndex_Some {A} (f : A -> bool) l n :
  findIndex f l = Some n ->
  exists l1 x l2, l = l1 ++ x :: l2 /\ f x = true /\
    Forall (fun y => f y = false) l1 /\ splice1 n l = l1 ++ l2.
Proof.
  revert n. induction l as [|a l IH]; intros n H; simpl in H; [discriminate|].
  destruct (f a) eqn:Hfa.
  - inversion H; subst. exists [], a, l. repeat split; auto.
  - destruct (findIndex f l) as [m|] eqn:Hm; simpl in H; [|discriminate].
    inversion H; subst.
    destruct (IH m eq_refl) as (l1 & x & l2 & -> & Hx & Hall & Hsp).
    exists (a :: l1), x, l2. repeat split; auto.
    unfold splice1 in *. simpl. f_equal. exact Hsp.
Qed.

Lemma findIndex_None {A} (f : A -> bool) l :
  findIndex f l = None -> Forall (fun y => f y = false) l.
Proof.
  induction l as [|a l IH]; simpl; intros H; [constructor|].
  destruct (f a) eqn:Hfa; [discriminate|].
  destruct (findIndex f l); [discriminate|]. constructor; auto.
Qed.

Lemma total_empty : total ∅ = O.
Proof. unfold total. apply map_fold_empty. Qed.

Lemma total_insert_None m k (b : list Peer) :
  m !! k = None -> total (<[k:=b]> m) = (length b + total m)%nat.
Proof.
  intros H. unfold total. apply (map_fold_insert_L (fun _ bucket acc => (length bucket + acc)%nat)); [|done].
  intros. lia.
Qed.

Lemma total_delete m k (b : list Peer) :
  m !! k = Some b -> total m = (length b + total (delete k m))%nat.
Proof.
  intros H. rewrite <- (insert_delete_id m k b) at 1 by done.
  apply total_insert_None. apply lookup_delete_eq.
Qed.

Lemma total_insert_Some m k (b b' : list Peer) :
  m !! k = Some b -> (total (<[k:=b']> m) + length b = total m + length b')%nat.
Proof.
  intros H. rewrite (total_delete m k b H).
  rewrite <- insert_delete_eq. rewrite total_insert_None by apply lookup_delete_eq. lia.
Qed.


Section Inv.
Variable sha256 : string -> list Z.
Variable selfId : string.
Local Abbreviation idx := (XOR.bucketIndex sha256 selfId).

Local Abbreviation Inv := (FingerTableSpec.Inv sha256 selfId).

Lemma ft_Inv_empty : Inv empty.
Proof.
  split; simpl.
  - intros i p H. rewrite lookup_empty in H. discriminate.
  - intros i p H. rewrite lookup_empty in H. discriminate.
  - intros k b H. rewrite lookup_empty in H. discriminate.
  - rewrite map_size_empty. symmetry. apply total_empty.
Qed.

Lemma eqb_peer_false (i : string) (l : list Peer) :
  Forall (fun y => String.eqb (peer_id y) i = false) l ->
  forall q, q ∈ l -> peer_id q <> i.
Proof.
  intros H q Hq. rewrite Forall_forall in H. specialize (H q Hq).
  apply String.eqb_neq in H. exact H.
Qed.

Lemma removePeer_absent i ft :
  peerMap ft !! i = None -> removePeer sha256 selfId i ft = ft.
Proof. intros H. unfold removePeer. rewrite H. reflexivity. Qed.

Lemma removePeer_peerMap i ft :
  peerMap (removePeer sha256 selfId i ft) = delete i (peerMap ft).
Proof.
  unfold removePeer. destruct (peerMap ft !! i) eqn:H; simpl; [reflexivity|].
  symmetry. apply delete_id. exact H.
Qed.

Lemma removePeer_Inv i ft : Inv ft -> Inv (removePeer sha256 selfId i ft).
Proof.
  intros HI. destruct (peerMap ft !! i) as [p|] eqn:Hp.
  2:{ rewrite removePeer_absent; auto. }
  destruct (inv_stored _ _ _ HI i p Hp) as (b & Hb & Hpb).
  destruct (inv_bucket _ _ _ HI _ b Hb) as (Hne & Hlen & Hnd & Hmem).
  pose proof (inv_key _ _ _ HI i p Hp) as Hid.
  unfold removePeer. rewrite Hp, Hb.
  destruct (findIndex (fun q => String.eqb (peer_id q) i) b) as [n|] eqn:Hfi.
  2:{ apply findIndex_None in Hfi. exfalso.
      exact (eqb_peer_false i b Hfi p Hpb Hid). }
  destruct (findIndex_Some _ _ _ Hfi) as (l1 & x & l2 & Hbl & Hx & Hl1 & Hsp).
  rewrite Hsp. apply String.eqb_eq in Hx.
  assert (Hxp : x = p).
  { assert (Hxb : x ∈ b) by (rewrite Hbl; set_solver).
    destruct (Hmem x Hxb) as [_ Hxm]. rewrite Hx, Hp in Hxm. congruence. }
  subst x.
  assert (Hnd' : NoDup (peer_id <$> (l1 ++ l2)) /\ forall q, q ∈ l1 ++ l2 -> peer_id q <> i).
  { rewrite Hbl in Hnd. rewrite fmap_app, fmap_cons in Hnd.
    apply NoDup_app in Hnd as (Hn1 & Hdisj & Hn2).
    apply NoDup_cons in Hn2 as (Hnotin & Hn2).
    split.
    - rewrite fmap_app. apply NoDup_app. repeat split; auto.
      intros y Hy1 Hy2. apply (Hdisj y Hy1). right. exact Hy2.
    - intros q Hq Heq. apply elem_of_app in Hq as [Hq|Hq].
      + apply (Hdisj (peer_id q)); [apply list_elem_of_fmap; eauto|].
        rewrite Heq, <- Hid. left.
      + apply Hnotin. rewrite Hid, <- Heq. apply list_elem_of_fmap; eauto. }
  destruct Hnd' as [Hnd' Hneq].
  assert (Hsub : forall q, q ∈ l1 ++ l2 -> q ∈ b).
  { intros q Hq. rewrite Hbl. set_solver. }
  assert (Hback : forall q, q ∈ b -> peer_id q <> i -> q ∈ l1 ++ l2).
  { intros q Hq Hne'. rewrite Hbl in Hq.
    apply elem_of_app in Hq as [Hq|Hq]; [set_solver|].
    apply elem_of_cons in Hq as [->|Hq]; [congruence|set_solver]. }
  assert (Hlen' : length b = S (length (l1 ++ l2))).
  { rewrite Hbl. rewrite !length_app. simpl. lia. }
  assert (Hother : forall k b0, k <> idx i -> buckets ft !! k = Some b0 ->
     b0 <> [] /\ (length b0 <= K_BUCKET_SIZE)%nat /\ NoDup (peer_id <$> b0) /\
     forall q, q ∈ b0 -> idx (peer_id q) = k /\ delete i (peerMap ft) !! peer_id q = Some q).
  { intros k b0 Hk Hb0.
    destruct (inv_bucket _ _ _ HI k b0 Hb0) as (Hne0 & Hlen0 & Hnd0 & Hm0).
    split; [done|]. split; [done|]. split; [done|].
    intros q Hq. destruct (Hm0 q Hq) as [Hq1 Hq2]. split; [done|].
    rewrite lookup_delete_ne; [done|]. intros Heq. apply Hk. rewrite <- Hq1, <- Heq. reflexivity. }
  assert (Hkey : forall j q, delete i (peerMap ft) !! j = Some q -> peer_id q = j).
  { intros j q Hq. apply lookup_delete_Some in Hq as [_ Hq]. eapply (inv_key sha256 selfId); eauto. }
  assert (Hst : forall j q, delete i (peerMap ft) !! j = Some q ->
     (idx j = idx i /\ q ∈ l1 ++ l2) \/
     (idx j <> idx i /\ exists b0, buckets ft !! idx j = Some b0 /\ q ∈ b0)).
  { intros j q Hq. apply lookup_delete_Some in Hq as [Hji Hq].
    destruct (inv_stored _ _ _ HI j q Hq) as (b0 & Hb0 & Hqb0).
    pose proof (inv_key _ _ _ HI j q Hq) as Hqid.
    destruct (decide (idx j = idx i)) as [He|He].
    - left. split; [done|]. rewrite He, Hb in Hb0. inversion Hb0; subst b0.
      apply Hback; congruence.
    - right. eauto. }
  destruct (length (l1 ++ l2) =? 0)%nat eqn:Hz.
  - apply Nat.eqb_eq in Hz.
    split; simpl.
    + exact Hkey.
    + intros j q Hq. destruct (Hst j q Hq) as [[He Hin]|[He (b0 & Hb0 & Hin)]].
      * destruct (l1 ++ l2); [set_solver|simpl in Hz; lia].
      * exists b0. rewrite lookup_delete_ne by congruence. done.
    + intros k b0 Hb0. apply lookup_delete_Some in Hb0 as [Hk Hb0].
      apply Hother; [congruence|done].
    + rewrite map_size_delete, Hp. rewrite (inv_count _ _ _ HI).
      rewrite (total_delete _ _ _ Hb). lia.
  - apply Nat.eqb_neq in Hz.
    split; simpl.
    + exact Hkey.
    + intros j q Hq. destruct (Hst j q Hq) as [[He Hin]|[He (b0 & Hb0 & Hin)]].
      * rewrite He, lookup_insert_eq. eauto.
      * exists b0. rewrite lookup_insert_ne by congruence. done.
    + intros k b0 Hb0. apply lookup_insert_Some in Hb0 as [[<- <-]|[Hk Hb0]].
      * split; [intros E; rewrite E in Hz; simpl in Hz; lia|].
        split; [lia|]. split; [exact Hnd'|].
        intros q Hq. split; [apply Hmem, Hsub, Hq|].
        rewrite lookup_delete_ne; [apply Hmem, Hsub, Hq|].
        intros E. exact (Hneq q Hq (eq_sym E)).
      * apply Hother; [congruence|done].
    + rewrite map_size_delete, Hp. rewrite (inv_count _ _ _ HI).
      pose proof (total_insert_Some _ _ _ (l1 ++ l2) Hb). lia.
Qed.


Lemma t_eta (ft : t) : {| buckets := buckets ft; peerMap := peerMap ft |} = ft.
Proof. destruct ft; reflexivity. Qed.

Lemma addPeer_self p ft :
  peer_id p = selfId -> addPeer sha256 selfId p ft = (false, ft).
Proof. intros H. unfold addPeer. rewrite H, String.eqb_refl. reflexivity. Qed.

Lemma addPeer_present p ft :
  peer_id p <> selfId -> is_Some (peerMap ft !! peer_id p) ->
  addPeer sha256 selfId p ft
  = addPeer sha256 selfId p (removePeer sha256 selfId (peer_id p) ft).
Proof.
  intros Hs [q Hq].
  assert (Hgone : peerMap (removePeer sha256 selfId (peer_id p) ft) !! peer_id p = None).
  { rewrite removePeer_peerMap. apply lookup_delete_eq. }
  unfold addPeer.
  apply String.eqb_neq in Hs. rewrite Hs, Hq, Hgone.
  reflexivity.
Qed.

Lemma addPeer_full p ft b :
  peer_id p <> selfId -> peerMap ft !! peer_id p = None ->
  buckets ft !! idx (peer_id p) = Some b -> (K_BUCKET_SIZE <= length b)%nat ->
  addPeer sha256 selfId p ft = (false, ft).
Proof.
  intros Hs Hn Hb Hlen. unfold addPeer.
  apply String.eqb_neq in Hs. rewrite Hs, Hn. cbv beta iota zeta.
  rewrite !Hb. cbv beta iota zeta. change (default [] (Some b)) with b.
  apply Nat.leb_le in Hlen. rewrite Hlen, t_eta. reflexivity.
Qed.

Lemma addPeer_room p ft :
  peer_id p <> selfId -> peerMap ft !! peer_id p = None ->
  (length (default [] (buckets ft !! idx (peer_id p))) < K_BUCKET_SIZE)%nat ->
  addPeer sha256 selfId p ft
  = (true, {| buckets := <[idx (peer_id p) :=
                           default [] (buckets ft !! idx (peer_id p)) ++ [p]]> (buckets ft);
              peerMap := <[peer_id p := p]> (peerMap ft) |}).
Proof.
  intros Hs Hn Hlen. unfold addPeer.
  apply String.eqb_neq in Hs. rewrite Hs, Hn. cbv beta iota zeta.
  destruct (buckets ft !! idx (peer_id p)) as [b|] eqn:Hb.
  - rewrite !Hb. change (default [] (Some b)) with b in *.
    apply Nat.ltb_lt in Hlen. rewrite Nat.ltb_antisym in Hlen.
    apply negb_true_iff in Hlen. rewrite Hlen. reflexivity.
  - rewrite lookup_insert_eq. change (default [] (Some [])) with (@nil Peer).
    change (default [] None) with (@nil Peer).
    rewrite insert_insert_eq. reflexivity.
Qed.

Lemma addPeer_fresh_Inv p ft :
  Inv ft -> peer_id p <> selfId -> peerMap ft !! peer_id p = None ->
  Inv (snd (addPeer sha256 selfId p ft)).
Proof.
  intros HI Hs Hn.
  destruct (buckets ft !! idx (peer_id p)) as [b|] eqn:Hb.
  - destruct (le_lt_dec K_BUCKET_SIZE (length b)) as [Hfull|Hroom].
    + rewrite (addPeer_full p ft b); auto.
    + rewrite addPeer_room; auto; [|rewrite Hb; exact Hroom].
      rewrite Hb. simpl.
      destruct (inv_bucket _ _ _ HI _ b Hb) as (Hne & Hlen & Hnd & Hmem).
      split; simpl.
      * intros j q Hq. apply lookup_insert_Some in Hq as [[<- <-]|[_ Hq]]; [done|].
        eapply (inv_key sha256 selfId); eauto.
      * intros j q Hq. apply lookup_insert_Some in Hq as [[<- <-]|[Hj Hq]].
        -- rewrite lookup_insert_eq. eexists; split; [done|]. set_solver.
        -- destruct (inv_stored _ _ _ HI j q Hq) as (b0 & Hb0 & Hin).
           destruct (decide (idx (peer_id p) = idx j)) as [He|He].
           ++ rewrite He, lookup_insert_eq. eexists; split; [done|].
              rewrite He, Hb0 in Hb. inversion Hb; subst. set_solver.
           ++ rewrite lookup_insert_ne by done. eauto.
      * intros k b0 Hb0. apply lookup_insert_Some in Hb0 as [[<- <-]|[Hk Hb0]].
        -- split; [destruct b; discriminate|].
           split; [rewrite length_app; simpl; unfold K_BUCKET_SIZE in *; lia|].
           split.
           { rewrite fmap_app. apply NoDup_app. split; [done|]. split.
             - intros y Hy Hy'. simpl in Hy'. apply list_elem_of_singleton in Hy'. subst y.
               apply list_elem_of_fmap in Hy as (q & Hq1 & Hq2).
               destruct (Hmem q Hq2) as [_ Hq3]. rewrite <- Hq1, Hn in Hq3. discriminate.
             - simpl. apply NoDup_singleton. }
           intros q Hq. apply elem_of_app in Hq as [Hq|Hq].
           ++ destruct (Hmem q Hq) as [Hq1 Hq2]. split; [done|].
              rewrite lookup_insert_ne; [done|]. intros E. rewrite <- E, Hn in Hq2. discriminate.
           ++ apply list_elem_of_singleton in Hq. subst q. split; [done|].
              apply lookup_insert_eq.
        -- destruct (inv_bucket _ _ _ HI k b0 Hb0) as (Hne0 & Hlen0 & Hnd0 & Hm0).
           split; [done|]. split; [done|]. split; [done|].
           intros q Hq. destruct (Hm0 q Hq) as [Hq1 Hq2]. split; [done|].
           rewrite lookup_insert_ne; [done|]. intros E. rewrite <- E, Hn in Hq2. discriminate.
      * rewrite map_size_insert_None by done. rewrite (inv_count _ _ _ HI).
        pose proof (total_insert_Some _ _ _ (b ++ [p]) Hb) as Ht.
        rewrite length_app in Ht. simpl in Ht. lia.
  - rewrite addPeer_room; auto; [|rewrite Hb; simpl; unfold K_BUCKET_SIZE; lia].
    rewrite Hb. simpl.
    split; simpl.
    * intros j q Hq. apply lookup_insert_Some in Hq as [[<- <-]|[_ Hq]]; [done|].
      eapply (inv_key sha256 selfId); eauto.
    * intros j q Hq. apply lookup_insert_Some in Hq as [[<- <-]|[Hj Hq]].
      -- rewrite lookup_insert_eq. eexists; split; [done|]. set_solver.
      -- destruct (inv_stored _ _ _ HI j q Hq) as (b0 & Hb0 & Hin).
         destruct (decide (idx (peer_id p) = idx j)) as [He|He].
         ++ rewrite He, Hb0 in Hb. discriminate.
         ++ rewrite lookup_insert_ne by done. eauto.
    * intros k b0 Hb0. apply lookup_insert_Some in Hb0 as [[<- <-]|[Hk Hb0]].
      -- split; [discriminate|]. split; [simpl; unfold K_BUCKET_SIZE; lia|].
         split; [simpl; apply NoDup_singleton|].
         intros q Hq. apply list_elem_of_singleton in Hq. subst q. split; [done|].
         apply lookup_insert_eq.
      -- destruct (inv_bucket _ _ _ HI k b0 Hb0) as (Hne0 & Hlen0 & Hnd0 & Hm0).
         split; [done|]. split; [done|]. split; [done|].
         intros q Hq. destruct (Hm0 q Hq) as [Hq1 Hq2]. split; [done|].
         rewrite lookup_insert_ne; [done|]. intros E. rewrite <- E, Hn in Hq2. discriminate.
    * rewrite map_size_insert_None by done. rewrite (inv_count _ _ _ HI).
      rewrite total_insert_None by done. simpl. lia.
Qed.

Lemma addPeer_Inv p ft : Inv ft -> Inv (snd (addPeer sha256 selfId p ft)).
Proof.
  intros HI. destruct (decide (peer_id p = selfId)) as [Hs|Hs].
  - rewrite addPeer_self; auto.
  - destruct (peerMap ft !! peer_id p) as [q|] eqn:Hq.
    + rewrite addPeer_present by eauto.
      apply addPeer_fresh_Inv; [apply removePeer_Inv, HI|done|].
      rewrite removePeer_peerMap. apply lookup_delete_eq.
    + apply addPeer_fresh_Inv; auto.
Qed.

Lemma run_calls_Inv cs ft : Inv ft -> Inv (run_calls sha256 selfId cs ft).
Proof.
  revert ft. induction cs as [|c cs IH]; intros ft HI; simpl; [done|].
  apply IH. destruct c; simpl; [apply addPeer_Inv|apply removePeer_Inv]; done.
Qed.

Lemma occurrences_NoDup i (b : list Peer) :
  NoDup (peer_id <$> b) ->
  occurrences i b = if decide (i ∈ peer_id <$> b) then 1%nat else 0%nat.
Proof.
  unfold occurrences. induction b as [|q b IH]; intros Hnd.
  - rewrite decide_False; [done|]. set_solver.
  - apply NoDup_cons in Hnd as [Hq Hnd]. rewrite filter_cons. specialize (IH Hnd).
    rewrite fmap_cons.
    destruct (decide (peer_id q = i)) as [He|He]; simpl; rewrite IH;
      destruct (decide (i ∈ peer_id <$> b)) as [Hi|Hi];
      destruct (decide (i ∈ peer_id q :: (peer_id <$> b))) as [Hj|Hj];
      try reflexivity; exfalso; set_solver.
Qed.

End Inv.




End FingerTableFacts.

Module RateLimiterFacts.
Import RateLimiter.

Lemma in_window_spec now l r :
  In r (in_window now l) <-> In r l /\ now - r < windowMs.
Proof.
  unfold in_window. rewrite filter_In. rewrite Z.ltb_lt. reflexivity.
Qed.

Lemma fold_min_le xs : forall x, fold_left Z.min xs x <= x /\
  (forall r, In r xs -> fold_left Z.min xs x <= r) /\
  (fold_left Z.min xs x = x \/ In (fold_left Z.min xs x) xs).
Proof.
  induction xs as [|y xs IH]; intros x; simpl.
  - split; [lia|]. split; [intros r []|auto].
  - destruct (IH (Z.min x y)) as (H1 & H2 & H3).
    split; [lia|]. split.
    + intros r [<-|Hr]; [lia|auto].
    + destruct H3 as [H3|H3]; [|auto].
      rewrite H3. destruct (Z.min_spec x y) as [[_ ->]|[_ ->]]; auto.
Qed.

Lemma Math_min_spec l m :
  Math_min l = Some m -> In m l /\ forall r, In r l -> m <= r.
Proof.
  destruct l as [|x xs]; simpl; [discriminate|]. intros H. inversion H; subst m; clear H.
  destruct (fold_min_le xs x) as (H1 & H2 & H3). split.
  - destruct H3 as [->|H3]; auto.
  - intros r [<-|Hr]; auto.
Qed.

Lemma Math_min_nonempty l : (0 < length l)%nat -> is_Some (Math_min l).
Proof. destruct l; simpl; [lia|eauto]. Qed.

Lemma getDelay_under now clientId clients :
  let client := default (fresh_client now) (clients !! clientId) in
  let reqs := in_window now (requests client) in
  (length reqs < maxRequests)%nat ->
  getDelay now clientId clients =
    (0, <[clientId := {| requests := reqs ++ [now]; lastCleanup := lastCleanup client;
                         throttleCount := throttleCount client |}]> clients).
Proof.
  intros client reqs H. unfold getDelay. fold client. fold reqs.
  destruct (maxRequests <=? length reqs)%nat eqn:E; [|reflexivity].
  apply Nat.leb_le in E. lia.
Qed.

Lemma getDelay_over now clientId clients :
  let client := default (fresh_client now) (clients !! clientId) in
  let reqs := in_window now (requests client) in
  (maxRequests <= length reqs)%nat ->
  exists oldest, Math_min reqs = Some oldest /\
  getDelay now clientId clients =
    (Z.max 0 (windowMs - (now - oldest)),
     <[clientId := {| requests := reqs; lastCleanup := lastCleanup client;
                      throttleCount := S (throttleCount client) |}]> clients).
Proof.
  intros client reqs H. unfold getDelay. fold client. fold reqs.
  destruct (Math_min_nonempty reqs) as [oldest Ho]; [unfold maxRequests in H; lia|].
  exists oldest. split; [done|].
  apply Nat.leb_le in H. rewrite H, Ho. reflexivity.
Qed.

Lemma shouldDisconnect_spec clientId clients :
  shouldDisconnect clientId clients = true <->
  exists client, clients !! clientId = Some client /\ (10 <= throttleCount client)%nat.
Proof.
  unfold shouldDisconnect. destruct (clients !! clientId) as [c|].
  - rewrite Nat.leb_le. split; [eauto|]. intros (c' & Hc & H). congruence.
  - split; [discriminate|]. intros (c' & Hc & _). discriminate.
Qed.

(** Claim C7.  The limiter keeps, per client, the requests of the last
    60 000 ms.  With fewer than 1500 of them the request is recorded and
    the delay is 0.  With 1500 or more the request is not recorded, the
    throttle counter goes up by one, and the delay is
    max(0, 60000 - (now - oldest)), which is positive, where oldest is
    the oldest request of the window.  [shouldDisconnect] answers [true]
    exactly when the counter has reached 10, and [handleMessage] then
    drops the frame of a throttled client. *)
Theorem rate_limiter_spec (now : Z) (clientId : string) (cs : gmap string Client) :
  let client := default (fresh_client now) (cs !! clientId) in
  let reqs := in_window now (requests client) in
  (forall r, In r reqs <-> In r (requests client) /\ now - r < 60000) /\
  ((length reqs < 1500)%nat ->
     getDelay now clientId cs
       = (0, <[clientId := {| requests := reqs ++ [now];
                              lastCleanup := lastCleanup client;
                              throttleCount := throttleCount client |}]> cs)) /\
  ((1500 <= length reqs)%nat ->
     exists oldest, In oldest reqs /\ (forall r, In r reqs -> oldest <= r) /\
       0 < Z.max 0 (60000 - (now - oldest)) /\
       getDelay now clientId cs
         = (Z.max 0 (60000 - (now - oldest)),
            <[clientId := {| requests := reqs; lastCleanup := lastCleanup client;
                             throttleCount := S (throttleCount client) |}]> cs)) /\
  (forall cs', shouldDisconnect clientId cs' = true <->
     exists c, cs' !! clientId = Some c /\ (10 <= throttleCount c)%nat) /\
  (forall (env : Wire.Collaborators) (opt : Wire.Options) (data : string)
          (st : Wire.State),
     Wire.clients st = cs -> Wire.validateMessage data = true ->
     0 < fst (getDelay now clientId cs) ->
     shouldDisconnect clientId (snd (getDelay now clientId cs)) = true ->
     Wire.handleMessage opt data clientId now st
       = Wire.set_clients (snd (getDelay now clientId cs)) st).
Proof.
  intros client reqs. split; [|split; [|split; [|split]]].
  - intros r. apply in_window_spec.
  - apply getDelay_under.
  - intros Hlen. destruct (getDelay_over now clientId cs Hlen) as (oldest & Hmin & Hd).
    destruct (Math_min_spec _ _ Hmin) as [Hin Hle].
    exists oldest. repeat split; auto.
    apply in_window_spec in Hin as [_ Hw]. unfold windowMs in Hw. lia.
  - intros cs'. apply shouldDisconnect_spec.
  - intros env opt data st Hcs Hv Hd Hs. unfold Wire.handleMessage. rewrite Hv, Hcs.
    destruct (getDelay now clientId cs) as [delay c]. simpl in *.
    apply Z.ltb_lt in Hd. rewrite Hd, Hs. reflexivity.
Qed.

(** A client with 1500 requests in the window, at 1000. *)
Lemma rate_limiter_spec_witness :
  let client := default (fresh_client 1000) (Scenarios.throttled !! "c") in
  let reqs := in_window 1000 (requests client) in
  exists oldest, In oldest reqs /\ (forall r, In r reqs -> oldest <= r) /\
    0 < Z.max 0 (60000 - (1000 - oldest)) /\
    getDelay 1000 "c" Scenarios.throttled
      = (Z.max 0 (60000 - (1000 - oldest)),
         <["c" := {| requests := reqs; lastCleanup := lastCleanup client;
                     throttleCount := S (throttleCount client) |}]> Scenarios.throttled).
Proof.
  apply (proj1 (proj2 (proj2 (rate_limiter_spec 1000 "c" Scenarios.throttled)))).
  apply Nat.leb_le. vm_compute. reflexivity.
Defined.

End RateLimiterFacts.

Module MessageQueueFacts.
Import MessageQueue MessageQueueSpec.

Lemma paced_snoc l now m :
  paced l -> (forall t, last_time l = Some t -> t + pauseMs <= now) ->
  paced (l ++ [(now, m)]).
Proof.
  induction l as [|[t1 m1] l IH]; simpl; intros Hp Hl; [auto|].
  destruct Hp as [Hh Hp]. split.
  - destruct l as [|[t2 m2] l']; simpl; [|exact Hh].
    apply Hl. reflexivity.
  - apply IH; [exact Hp|]. intros t Ht. apply Hl.
    unfold last_time in *. destruct l; [discriminate|exact Ht].
Qed.

Lemma mq_Inv_init : Inv init.
Proof. split; simpl; auto; try discriminate. intros _. repeat split; auto. discriminate. Qed.

Lemma last_time_snoc l now m : last_time (l ++ [(now, m)]) = Some now.
Proof. unfold last_time. rewrite last_snoc. reflexivity. Qed.

Ltac idle_tail Hi :=
  let Ht := fresh "Ht" in
  intros H; destruct (Hi H) as (? & ? & Ht); repeat split; auto;
  let t := fresh "t" in let Hl := fresh "Hl" in
  intros t Hl; specialize (Ht t Hl); lia.

Ltac busy_tail Hb :=
  let t := fresh "t" in
  intros H; destruct (Hb H) as (t & ? & ? & ?); exists t; repeat split; auto; lia.

Lemma mq_step_Inv mx s e : Inv s -> Inv (step mx s e).
Proof.
  intros [Hf Hp Hi Hb]. destruct s as [[q pr] clk tm snt acc]; simpl in *.
  destruct e as [dt data|dt|dt]; simpl.
  - unfold enqueue; simpl.
    destruct (mx <=? length q)%nat; simpl.
    + split; simpl; rewrite ?app_nil_r; auto; [idle_tail Hi|busy_tail Hb].
    + unfold process; simpl. destruct pr; simpl.
      * split; simpl; rewrite ?app_nil_r; try discriminate; auto.
        -- rewrite <- Hf, app_assoc. reflexivity.
        -- busy_tail Hb.
      * destruct (Hi eq_refl) as (-> & -> & Ht). simpl in *. rewrite app_nil_r in Hf.
        split; simpl; try discriminate.
        -- rewrite <- Hf. rewrite !app_nil_r. rewrite map_app. reflexivity.
        -- apply paced_snoc; auto. intros t Hl. specialize (Ht t Hl). lia.
        -- intros _. exists (clk + Z.max 0 dt). rewrite last_time_snoc. repeat split; auto. lia.
  - unfold flush, process; simpl. destruct pr; simpl.
    + split; simpl; rewrite ?app_nil_r; try discriminate; auto. busy_tail Hb.
    + destruct (Hi eq_refl) as (-> & -> & Ht). simpl in *. rewrite app_nil_r in Hf.
      split; simpl; rewrite ?app_nil_r; try discriminate; auto.
      intros _. repeat split; auto. intros t Hl. specialize (Ht t Hl). lia.
  - destruct tm as [d|]; simpl.
    + destruct (d <=? clk + Z.max 0 dt) eqn:Hd.
      * apply Z.leb_le in Hd.
        destruct pr.
        2:{ destruct (Hi eq_refl) as (_ & ? & _). discriminate. }
        destruct (Hb eq_refl) as (t & Hl & Htm & Hc). inversion Htm; subst d.
        unfold resume; simpl. destruct q as [|m rest]; simpl.
        -- rewrite app_nil_r in Hf.
           split; simpl; rewrite ?app_nil_r; try discriminate; auto.
           intros _. repeat split; auto.
           intros t' Hl'. rewrite Hl in Hl'. inversion Hl'; subst. lia.
        -- split; simpl; try discriminate.
           ++ rewrite <- Hf. rewrite map_app. simpl. rewrite <- app_assoc. reflexivity.
           ++ apply paced_snoc; auto. intros t' Hl'. rewrite Hl in Hl'. inversion Hl'; subst. lia.
           ++ intros _. exists (clk + Z.max 0 dt). rewrite last_time_snoc. repeat split; auto. lia.
      * split; simpl; auto.
        -- intros H. destruct (Hi H) as (_ & ? & _). discriminate.
        -- busy_tail Hb.
    + split; simpl; auto; [idle_tail Hi|].
      intros H. destruct (Hb H) as (t & ? & ? & ?). discriminate.
Qed.

Lemma mq_run_Inv mx es s : Inv s -> Inv (run mx es s).
Proof.
  revert s. induction es as [|e es IH]; intros s H; simpl; [done|].
  apply IH, mq_step_Inv, H.
Qed.

Lemma mq_drain mx s :
  Inv s ->
  map snd (sent (run mx (repeat (Wake pauseMs) (length (queue (sq s)))) s)) = accepted s
  /\ queue (sq (run mx (repeat (Wake pauseMs) (length (queue (sq s)))) s)) = [].
Proof.
  remember (length (queue (sq s))) as n eqn:Hn. revert s Hn.
  induction n as [|n IH]; intros s Hn HI.
  - simpl. destruct (queue (sq s)) eqn:Hq; [|discriminate].
    rewrite <- (inv_fifo _ HI), Hq, app_nil_r. done.
  - pose proof (mq_step_Inv mx s (Wake pauseMs) HI) as HI'.
    change (repeat (Wake pauseMs) (S n)) with (Wake pauseMs :: repeat (Wake pauseMs) n).
    cbn [run fold_left]. fold (run mx (repeat (Wake pauseMs) n) (step mx s (Wake pauseMs))).
    assert (Hstep : queue (sq (step mx s (Wake pauseMs))) = tail (queue (sq s))
                    /\ accepted (step mx s (Wake pauseMs)) = accepted s).
    { destruct s as [[q pr] clk tm snt acc]; simpl in *.
      destruct q as [|m rest]; [discriminate|].
      destruct pr.
      2:{ destruct (inv_idle _ HI eq_refl) as (? & _). discriminate. }
      destruct (inv_busy _ HI eq_refl) as (t & Hl & Htm & Hc). simpl in *. subst tm.
      assert (E : (t + pauseMs <=? clk + Z.max 0 pauseMs) = true).
      { apply Z.leb_le. unfold pauseMs. lia. }
      rewrite E. simpl. done. }
    destruct Hstep as [Hq Ha].
    destruct (IH (step mx s (Wake pauseMs))) as [H1 H2]; auto.
    { rewrite Hq. destruct (queue (sq s)); simpl in *; [discriminate|lia]. }
    rewrite H1, H2, Ha. done.
Qed.

(** Claim C8.  Whatever the enqueues, flushes and wake-ups of the pause,
    the messages handed to [sendFn], followed by those still queued, are
    the accepted enqueues in their order; two consecutive sends are at
    least 10 ms apart; and once the pause has elapsed as many times as
    messages are queued, every accepted message has been sent, in the
    order of the enqueues. *)
Theorem queue_fifo (maxQueueLength : nat) (evs : list event) :
  let s := run maxQueueLength evs init in
  map snd (sent s) ++ queue (sq s) = accepted s /\
  paced (sent s) /\
  map snd (sent (run maxQueueLength
                     (repeat (Wake pauseMs) (length (queue (sq s)))) s))
    = accepted s.
Proof.
  intros s.
  assert (HI : Inv s) by (apply mq_run_Inv, mq_Inv_init).
  split; [apply (inv_fifo _ HI)|]. split; [apply (inv_paced _ HI)|].
  apply mq_drain, HI.
Qed.

End MessageQueueFacts.

Module HamFacts.
Import Schema Ham HamSpec.

Section Mix.
Variable eligible : bool -> string -> Node -> string -> bool.
Variable now : Z.
Variable secure : bool.
Variable listen : gmap string (list Listener).

Local Abbreviation verdict_of g soul node f v := (field_verdict eligible now g secure soul node f v).

(** The two bounds on the state come before the pairwise rule: the
    verdict of a field dated in the future does not depend on the graph. *)
Lemma verdict_far g soul node sts f v state :
  node_states node = Some sts -> sts !! f = Some state ->
  now + DAY < state -> verdict_of g soul node f v = Reject.
Proof.
  intros Hs Hf Hfar. unfold field_verdict. rewrite Hs, Hf.
  destruct (eligible secure soul node f); simpl; [|done].
  apply Z.ltb_lt in Hfar. rewrite Hfar. done.
Qed.

Lemma verdict_near g soul node sts f v state :
  node_states node = Some sts -> sts !! f = Some state ->
  eligible secure soul node f = true ->
  now < state -> state <= now + DAY ->
  verdict_of g soul node f v = Deferred (state - now).
Proof.
  intros Hs Hf Ha Hlo Hhi. unfold field_verdict. rewrite Hs, Hf, Ha. simpl.
  destruct (now + DAY <? state) eqn:E1; [apply Z.ltb_lt in E1; lia|].
  apply Z.ltb_lt in Hlo. rewrite Hlo. done.
Qed.

Lemma verdict_due g soul node sts f v state :
  node_states node = Some sts -> sts !! f = Some state ->
  eligible secure soul node f = true ->
  state <= now ->
  verdict_of g soul node f v = Accept \/ verdict_of g soul node f v = Keep.
Proof.
  intros Hs Hf Ha Hlo. unfold field_verdict. rewrite Hs, Hf, Ha. simpl.
  destruct (now + DAY <? state) eqn:E1; [apply Z.ltb_lt in E1; unfold DAY in E1; lia|].
  destruct (now <? state) eqn:E2; [apply Z.ltb_lt in E2; lia|].
  destruct (pairwise _ _ _ _); auto.
Qed.

Lemma verdict_deferred_inv g soul node f v d :
  verdict_of g soul node f v = Deferred d ->
  exists sts state, node_states node = Some sts /\ sts !! f = Some state /\
    eligible secure soul node f = true /\ now < state /\ state <= now + DAY /\ d = state - now.
Proof.
  unfold field_verdict. destruct (node_states node) as [sts|]; [|done].
  destruct (sts !! f) as [state|] eqn:Hf; [|done].
  destruct (eligible secure soul node f); simpl; [|done].
  destruct (now + DAY <? state) eqn:E1; [done|].
  destruct (now <? state) eqn:E2; [|destruct (pairwise _ _ _ _); done].
  intros Hd. inversion Hd. apply Z.ltb_lt in E2. apply Z.ltb_ge in E1.
  exists sts, state. repeat split; auto.
Qed.

Lemma is_deferred_indep g g' soul node f v :
  is_deferred (verdict_of g soul node f v) = is_deferred (verdict_of g' soul node f v).
Proof.
  unfold field_verdict. destruct (node_states node) as [sts|]; [|done].
  destruct (sts !! f) as [state|]; [|done].
  destruct (eligible secure soul node f); simpl; [|done].
  destruct (now + DAY <? state); [done|].
  destruct (now <? state); [done|].
  destruct (pairwise _ _ _ _), (pairwise _ _ _ _); done.
Qed.

Lemma deferred_indep g g' soul node :
  deferred eligible now g secure soul node = deferred eligible now g' secure soul node.
Proof.
  unfold deferred, select.
  assert (E : filter (fun kv => is_deferred (verdict_of g soul node (fst kv) (snd kv)) = true)
                     (node_values node)
            = filter (fun kv => is_deferred (verdict_of g' soul node (fst kv) (snd kv)) = true)
                     (node_values node)).
  { apply map_filter_ext. intros i x _. simpl. rewrite (is_deferred_indep g g'). done. }
  rewrite E. done.
Qed.

Lemma verdict_deferred_indep g g' soul node f v d :
  verdict_of g soul node f v = Deferred d -> verdict_of g' soul node f v = Deferred d.
Proof.
  intros Hd. destruct (verdict_deferred_inv _ _ _ _ _ _ Hd)
    as (sts & state & Hs & Hf & Ha & Hlo & Hhi & ->).
  eapply verdict_near; eauto.
Qed.

Lemma elem_of_delays g soul node d :
  d ∈ delays eligible now g secure soul node <->
  exists f v, node_values node !! f = Some v /\ verdict_of g soul node f v = Deferred d.
Proof.
  unfold delays. rewrite list_elem_of_omap. split.
  - intros ([f v] & Hin & Hv). apply elem_of_map_to_list in Hin. simpl in Hv.
    exists f, v. split; [done|]. destruct (verdict_of g soul node f v); congruence.
  - intros (f & v & Hin & Hv). exists (f, v). rewrite elem_of_map_to_list. simpl.
    rewrite Hv. done.
Qed.

Lemma delays_positive g soul node :
  Forall (fun d => 0 < d) (delays eligible now g secure soul node).
Proof.
  apply Forall_forall. intros d Hd. apply elem_of_delays in Hd as (f & v & _ & Hv).
  destruct (verdict_deferred_inv _ _ _ _ _ _ Hv) as (sts & state & _ & _ & _ & Hlo & _ & ->).
  lia.
Qed.

Lemma min_wait_cases ds : forall w,
  min_wait w ds = w \/ min_wait w ds ∈ ds.
Proof.
  unfold min_wait. induction ds as [|d ds IH]; intros w; simpl; [auto|].
  destruct (IH (if w =? 0 then d else Z.min w d)) as [E|E].
  - rewrite E. destruct (w =? 0); [right; left|].
    destruct (Z.min_spec w d) as [[_ ->]|[_ ->]]; [auto|right; left].
  - right. right. exact E.
Qed.

Lemma min_wait_le_w ds : forall w,
  Forall (fun d => 0 < d) ds -> 0 < w -> 0 < min_wait w ds <= w.
Proof.
  unfold min_wait. induction ds as [|d ds IH]; intros w Hp Hw; simpl; [lia|].
  inversion Hp as [|? ? Hd Hp']; subst.
  destruct (w =? 0) eqn:E; [apply Z.eqb_eq in E; lia|].
  specialize (IH (Z.min w d) Hp' ltac:(lia)). lia.
Qed.

Lemma min_wait_le ds : forall w d,
  Forall (fun d => 0 < d) ds -> 0 <= w -> d ∈ ds -> 0 < min_wait w ds <= d.
Proof.
  unfold min_wait. induction ds as [|d0 ds IH]; intros w d Hp Hw Hin; simpl.
  - apply elem_of_nil in Hin. done.
  - inversion Hp as [|? ? Hd Hp']; subst.
    apply elem_of_cons in Hin as [->|Hin].
    + pose proof (min_wait_le_w ds (if w =? 0 then d0 else Z.min w d0) Hp') as Hle.
      unfold min_wait in Hle.
      destruct (w =? 0) eqn:E; [apply Hle; lia|].
      apply Z.eqb_neq in E. specialize (Hle ltac:(lia)). lia.
    + apply IH; auto. destruct (w =? 0); lia.
Qed.

Local Abbreviation step := (mix_entry eligible now secure listen).

Local Abbreviation wait_ok := (HamSpec.wait_ok eligible now secure).

Lemma wait_ok_step seen r e :
  wait_ok seen (mix_wait r) -> wait_ok (seen ++ [e]) (mix_wait (step r e)).
Proof.
  unfold HamSpec.wait_ok. intros (H0 & Hatt & Hlow). destruct e as [soul [node|]]; unfold mix_entry; simpl.
  2:{ split; [done|]. split.
      - destruct Hatt as [?|(s & n & f & v & Hin & ?)]; [auto|].
        right. exists s, n, f, v. split; [set_solver|done].
      - intros s n f v d Hin. apply elem_of_app in Hin as [Hin|Hin]; [eauto|].
        apply list_elem_of_singleton in Hin. discriminate. }
  set (ds := delays eligible now (mix_graph r) secure soul node).
  pose proof (delays_positive (mix_graph r) soul node) as Hpos. fold ds in Hpos.
  assert (Hnn : 0 <= min_wait (mix_wait r) ds).
  { destruct (min_wait_cases ds (mix_wait r)) as [->|Hin]; [done|].
    rewrite Forall_forall in Hpos. specialize (Hpos _ Hin). lia. }
  split; [done|]. split.
  - destruct (min_wait_cases ds (mix_wait r)) as [E|Hin].
    + rewrite E. destruct Hatt as [?|(s & n & f & v & Hin & ?)]; [auto|].
      right. exists s, n, f, v. split; [set_solver|done].
    + right. apply elem_of_delays in Hin as (f & v & Hv & Hd).
      exists soul, node, f, v. split; [set_solver|]. split; [done|].
      eapply verdict_deferred_indep, Hd.
  - intros s n f v d Hin Hv Hd. apply elem_of_app in Hin as [Hin|Hin].
    + destruct (Hlow s n f v d Hin Hv Hd) as [Hw Hwd].
      pose proof (min_wait_le_w ds (mix_wait r) Hpos Hw). lia.
    + apply list_elem_of_singleton in Hin. inversion Hin; subst s n.
      apply (min_wait_le ds (mix_wait r) d Hpos H0).
      apply elem_of_delays. exists f, v. split; [done|].
      eapply verdict_deferred_indep, Hd.
Qed.

Lemma wait_ok_fold change : forall seen r,
  wait_ok seen (mix_wait r) ->
  wait_ok (seen ++ change) (mix_wait (fold_left step change r)).
Proof.
  induction change as [|e change IH]; intros seen r Hw; simpl.
  - rewrite app_nil_r. exact Hw.
  - replace (seen ++ e :: change) with ((seen ++ [e]) ++ change)
      by (rewrite <- app_assoc; reflexivity).
    apply IH, wait_ok_step, Hw.
Qed.

(** Where the entries of [now] and [defer] come from. *)
Lemma mix_now_fold change : forall r s n,
  (s, Some n) ∈ mix_now (fold_left step change r) ->
  (s, Some n) ∈ mix_now r \/
  exists node g, (s, Some node) ∈ change /\ n = accepted eligible now g secure s node.
Proof.
  induction change as [|e change IH]; intros r s n Hin; simpl in *; [auto|].
  destruct (IH _ _ _ Hin) as [H1|(node & g & H1 & H2)].
  - destruct e as [soul [node|]]; [|auto].
    unfold mix_entry in H1; cbn [fst snd mix_now] in H1.
    case_if_in H1; [|auto].
    apply elem_of_app in H1 as [H1|H1]; [auto|].
    apply list_elem_of_singleton in H1. inversion H1; subst.
    right. exists node, (mix_graph r). split; [left|done].
  - right. exists node, g. split; [right; exact H1|exact H2].
Qed.

Lemma mix_defer_fold change : forall r s n,
  (s, Some n) ∈ mix_defer (fold_left step change r) ->
  (s, Some n) ∈ mix_defer r \/
  exists node, (s, Some node) ∈ change /\ n = deferred eligible now ∅ secure s node.
Proof.
  induction change as [|e change IH]; intros r s n Hin; simpl in *; [auto|].
  destruct (IH _ _ _ Hin) as [H1|(node & H1 & H2)].
  - destruct e as [soul [node|]]; [|auto].
    unfold mix_entry in H1; cbn [fst snd mix_defer] in H1.
    case_if_in H1; [|auto].
    apply elem_of_app in H1 as [H1|H1]; [auto|].
    apply list_elem_of_singleton in H1. inversion H1; subst.
    right. exists node. split; [left|apply deferred_indep].
  - right. exists node. split; [right; exact H1|exact H2].
Qed.

Lemma mix_defer_mono e r x : x ∈ mix_defer r -> x ∈ mix_defer (step r e).
Proof.
  destruct e as [soul [node|]]; unfold mix_entry; cbn [fst snd mix_defer]; [|auto].
  destruct (negb _); [|auto]. intros Hx. apply elem_of_app. auto.
Qed.

Lemma mix_defer_fold_mono change : forall r x,
  x ∈ mix_defer r -> x ∈ mix_defer (fold_left step change r).
Proof.
  induction change as [|e change IH]; intros r x Hx; simpl; [done|].
  apply IH, mix_defer_mono, Hx.
Qed.

Lemma mix_defer_complete change : forall r s node,
  (s, Some node) ∈ change ->
  node_values (deferred eligible now ∅ secure s node) <> ∅ ->
  (s, Some (deferred eligible now ∅ secure s node)) ∈ mix_defer (fold_left step change r).
Proof.
  induction change as [|e change IH]; intros r s node Hin Hne; simpl.
  - apply elem_of_nil in Hin. done.
  - apply elem_of_cons in Hin as [<-|Hin]; [|apply IH; auto].
    apply mix_defer_fold_mono. unfold mix_entry. cbn [fst snd mix_defer].
    rewrite (deferred_indep (mix_graph r) ∅).
    rewrite bool_decide_eq_false_2 by done. cbn [negb].
    apply elem_of_app. right. left.
Qed.

(** A value found in the graph after the fold was there before or was
    accepted from an entry of the change. *)
Lemma mix_graph_fold change : forall r s f v,
  current_value (mix_graph (fold_left step change r)) s f = Some v ->
  current_value (mix_graph r) s f = Some v \/
  exists node g, (s, Some node) ∈ change /\
    node_values (accepted eligible now g secure s node) !! f = Some v.
Proof.
  induction change as [|e change IH]; intros r s f v Hv; simpl in *; [auto|].
  destruct (IH _ _ _ _ Hv) as [H1|(node & g & H1 & H2)].
  2:{ right. exists node, g. split; [right; exact H1|exact H2]. }
  destruct e as [soul [node|]]; [|auto].
  unfold mix_entry in H1; cbn [fst snd mix_graph] in H1.
  case_if_in H1; [|auto].
  unfold current_value in H1.
  destruct (decide (soul = s)) as [->|Hne].
  - rewrite lookup_insert_eq in H1. simpl in H1.
    unfold merge_node in H1.
    destruct (mix_graph r !! s) as [old|] eqn:Hold; simpl in H1.
    + apply lookup_union_Some_raw in H1 as [H1|[_ H1]].
      * right. exists node, (mix_graph r). split; [left|exact H1].
      * left. unfold current_value. rewrite Hold. simpl. exact H1.
    + right. exists node, (mix_graph r). split; [left|exact H1].
  - rewrite lookup_insert_ne in H1 by done. left. exact H1.
Qed.

Lemma evict_lookup g s n : evict g !! s = Some n -> g !! s = Some n.
Proof.
  unfold evict. destruct (size g <=? MAX_GRAPH_SIZE)%nat; [done|].
  intros Hl. apply elem_of_list_to_map_2 in Hl.
  apply subseteq_drop in Hl.
  rewrite (merge_sort_Permutation older (map_to_list g)) in Hl.
  apply elem_of_map_to_list in Hl. exact Hl.
Qed.

Lemma current_value_evict g s f v :
  current_value (evict g) s f = Some v -> current_value g s f = Some v.
Proof.
  unfold current_value. destruct (evict g !! s) as [n|] eqn:E; simpl; [|done].
  apply evict_lookup in E. rewrite E. done.
Qed.


Lemma NoDup_souls_unique (change : PutGraph) s n n' :
  NoDup (souls change) -> (s, n) ∈ change -> (s, n') ∈ change -> n = n'.
Proof.
  unfold souls. induction change as [|[k x] change IH]; simpl; intros Hnd H1 H2.
  - apply elem_of_nil in H1. done.
  - apply NoDup_cons in Hnd as [Hk Hnd].
    apply elem_of_cons in H1 as [H1|H1]; apply elem_of_cons in H2 as [H2|H2].
    + congruence.
    + inversion H1; subst. exfalso. apply Hk. apply list_elem_of_In, in_map_iff.
      exists (k, n'). split; [done|]. apply list_elem_of_In, H2.
    + inversion H2; subst. exfalso. apply Hk. apply list_elem_of_In, in_map_iff.
      exists (k, n). split; [done|]. apply list_elem_of_In, H1.
    + auto.
Qed.

Lemma not_accepted g soul node f :
  (forall v, node_values node !! f = Some v ->
     field_verdict eligible now g secure soul node f v <> Accept) ->
  node_values (accepted eligible now g secure soul node) !! f = None.
Proof.
  intros Hv. unfold accepted, select. simpl.
  apply map_lookup_filter_None. right. intros v Hf. simpl.
  intros Hb. apply bool_decide_eq_true in Hb. eapply Hv; eauto.
Qed.

Lemma set_aside_mix change graph soul node f :
  NoDup (souls change) -> (soul, Some node) ∈ change ->
  (forall g v, node_values node !! f = Some v ->
     field_verdict eligible now g secure soul node f v <> Accept) ->
  set_aside (mix eligible now change graph secure listen) graph soul f.
Proof.
  intros Hnd Hin Hv. unfold mix, set_aside. simpl. split.
  - intros n Hn. apply mix_now_fold in Hn as [Hn|(node' & g & Hin' & ->)].
    + simpl in Hn. apply elem_of_nil in Hn. done.
    + assert (E : Some node' = Some node) by (eapply NoDup_souls_unique; eauto).
      inversion E; subst. apply not_accepted. eauto.
  - intros v Hc. apply current_value_evict in Hc.
    apply mix_graph_fold in Hc as [Hc|(node' & g & Hin' & Hacc)]; [exact Hc|].
    assert (E : Some node' = Some node) by (eapply NoDup_souls_unique; eauto).
    inversion E; subst. rewrite not_accepted in Hacc by eauto. discriminate.
Qed.

Lemma deferred_lookup g soul node sts f v state :
  node_states node = Some sts -> sts !! f = Some state ->
  node_values node !! f = Some v ->
  is_deferred (field_verdict eligible now g secure soul node f v) = true ->
  node_values (deferred eligible now g secure soul node) !! f = Some v /\
  (node_states (deferred eligible now g secure soul node) ≫= (fun m => m !! f)) = Some state.
Proof.
  intros Hs Hf Hv Hd. unfold deferred, select. simpl.
  assert (E : filter (fun kv => is_deferred (field_verdict eligible now g secure soul node
                                               (fst kv) (snd kv)) = true)
                     (node_values node) !! f = Some v).
  { apply map_lookup_filter_Some. split; [done|]. exact Hd. }
  split; [exact E|].
  rewrite Hs. simpl. apply map_lookup_filter_Some. split; [done|]. simpl.
  rewrite E. eauto.
Qed.

Lemma not_deferred g soul node f :
  (forall v, node_values node !! f = Some v ->
     is_deferred (field_verdict eligible now g secure soul node f v) = false) ->
  node_values (deferred eligible now g secure soul node) !! f = None.
Proof.
  intros Hv. unfold deferred, select. simpl.
  apply map_lookup_filter_None. right. intros v Hf. simpl.
  rewrite (Hv v Hf). discriminate.
Qed.

Lemma mix_souls_step r e s :
  (s ∈ souls (mix_now (step r e)) -> s ∈ souls (mix_now r) \/ s = fst e) /\
  (s ∈ souls (mix_defer (step r e)) -> s ∈ souls (mix_defer r) \/ s = fst e).
Proof.
  destruct e as [soul [node|]]; unfold mix_entry; cbn [fst snd mix_now mix_defer]; [|auto].
  unfold souls. split.
  - destruct (negb _); [|auto]. rewrite map_app. simpl. intros Hin.
    apply elem_of_app in Hin as [Hin|Hin]; [auto|].
    apply list_elem_of_singleton in Hin. auto.
  - destruct (negb (bool_decide (node_values (deferred _ _ _ _ _ _) = ∅))); [|auto].
    rewrite map_app. simpl. intros Hin.
    apply elem_of_app in Hin as [Hin|Hin]; [auto|].
    apply list_elem_of_singleton in Hin. auto.
Qed.

Lemma mix_souls_fold change : forall r s,
  (s ∈ souls (mix_now (fold_left step change r)) ->
     s ∈ souls (mix_now r) \/ s ∈ souls change) /\
  (s ∈ souls (mix_defer (fold_left step change r)) ->
     s ∈ souls (mix_defer r) \/ s ∈ souls change).
Proof.
  induction change as [|e change IH]; intros r s; simpl; [auto|].
  destruct (IH (step r e) s) as [IH1 IH2].
  destruct (mix_souls_step r e s) as [S1 S2].
  assert (Hcons : forall x, x = fst e \/ x ∈ souls change -> x ∈ souls (e :: change)).
  { intros x Hx. unfold souls in *. simpl. apply elem_of_cons. exact Hx. }
  split; intros Hin.
  - destruct (IH1 Hin) as [H1|H1]; [|right; apply Hcons; auto].
    destruct (S1 H1) as [H2|H2]; [auto|]. right. apply Hcons. auto.
  - destruct (IH2 Hin) as [H1|H1]; [|right; apply Hcons; auto].
    destruct (S2 H1) as [H2|H2]; [auto|]. right. apply Hcons. auto.
Qed.

(** [mix] stages and defers only souls of the change. *)
Lemma mix_souls change graph s :
  s ∉ souls change ->
  (s ∉ souls (mix_now (mix eligible now change graph secure listen))) /\
  (s ∉ souls (mix_defer (mix eligible now change graph secure listen))).
Proof.
  intros Hs. unfold mix. cbn [mix_now mix_defer].
  match goal with |- context [fold_left ?f change ?r0] =>
    destruct (mix_souls_fold change r0 s) as [H1 H2] end.
  split; intros Hin.
  - destruct (H1 Hin) as [H|H]; [simpl in H; apply elem_of_nil in H; done|auto].
  - destruct (H2 Hin) as [H|H]; [simpl in H; apply elem_of_nil in H; done|auto].
Qed.

End Mix.
End HamFacts.

Module WireFacts.
Import Schema Wire.

Section Frame.
Context `{Collaborators}.
Variable opt : Options.
Variable Q : string -> Prop.
Variable Good : PutGraph -> Prop.
Variable Resumable : string -> Prop.
Hypothesis mix_good : forall now change g sec l,
  Good change ->
  Good (Ham.mix_now (Ham_mix now change g sec l)) /\
  Good (Ham.mix_defer (Ham_mix now change g sec l)).

Local Abbreviation GoodAfter := (Frame.GoodAfter Good).
Local Abbreviation PC := (Frame.PC Good).
Local Abbreviation PT := (Frame.PT Q Good Resumable).
Local Abbreviation PE := (Frame.PE Q Good).
Local Abbreviation Fresh := (Frame.Fresh Q).
Local Abbreviation GoodChecks := (Frame.GoodChecks Good).
Local Abbreviation D := (Frame.D Q Good Resumable).
Local Abbreviation sub_eq := Frame.sub_eq.
Local Abbreviation BodyOK := (Frame.BodyOK Q Good).
Local Abbreviation FireOK := (Frame.FireOK Q Good Resumable).
Local Abbreviation EventOK := (Frame.EventOK opt Q Good Resumable).

Lemma D_refl st : D st st.
Proof.
  split; auto.
  - exists []. rewrite app_nil_r. auto.
  - exists []. rewrite app_nil_r. auto.
Qed.

Lemma D_trans st1 st2 st3 : D st1 st2 -> D st2 st3 -> D st1 st3.
Proof.
  intros [r1 q1 (t1 & Ht1 & Ft1) (e1 & He1 & Fe1) c1] [r2 q2 (t2 & Ht2 & Ft2) (e2 & He2 & Fe2) c2].
  split.
  - lia.
  - intros i Hi. rewrite q2, q1; auto.
  - exists (t1 ++ t2). rewrite Ht2, Ht1, app_assoc. split; [done|]. apply Forall_app; auto.
  - exists (e1 ++ e2). rewrite He2, He1, app_assoc. split; [done|]. apply Forall_app; auto.
  - auto.
Qed.

Lemma Fresh_D st st' : D st st' -> Fresh st -> Fresh st'.
Proof. intros HD HF k Hk. apply HF. pose proof (Frame.d_rng _ _ _ _ _ HD). lia. Qed.

(** A state that differs from [st] only in components the frame does not
    look at. *)
Lemma D_same st st' :
  rng st' = rng st -> queue st' = queue st -> timers st' = timers st ->
  effects st' = effects st -> checks st' = checks st -> D st st'.
Proof.
  intros Hr Hq Ht He Hc. split.
  - lia.
  - intros i _. rewrite Hq. done.
  - exists []. rewrite app_nil_r. auto.
  - exists []. rewrite app_nil_r. auto.
  - unfold Frame.GoodChecks. rewrite Hc. auto.
Qed.

Lemma D_emit es st : Forall PE es -> D st (emit es st).
Proof.
  intros Hes. split; simpl; auto.
  - exists []. rewrite app_nil_r. auto.
  - exists es. auto.
Qed.

Lemma D_setTimeout t delay now st : PT t -> D st (setTimeout t delay now st).
Proof.
  intros Ht. split; simpl; auto.
  - exists [(now + delay, t)]. split; [done|]. constructor; auto.
  - exists []. rewrite app_nil_r. auto.
Qed.

Lemma D_queue_insert i cb st : ~ Q i -> D st (set_queue (<[i := cb]> (queue st)) st).
Proof.
  intros Hi. split; simpl; auto.
  - intros j Hj. apply lookup_insert_ne. intros ->. auto.
  - exists []. rewrite app_nil_r. auto.
  - exists []. rewrite app_nil_r. auto.
Qed.

Lemma D_queue_delete i st : ~ Q i -> D st (set_queue (delete i (queue st)) st).
Proof.
  intros Hi. split; simpl; auto.
  - intros j Hj. apply lookup_delete_ne. intros ->. auto.
  - exists []. rewrite app_nil_r. auto.
  - exists []. rewrite app_nil_r. auto.
Qed.

Lemma D_checks_insert k cc st : PC cc -> D st (set_checks (<[k := cc]> (checks st)) st).
Proof.
  intros Hc. split; simpl; auto.
  - exists []. rewrite app_nil_r. auto.
  - exists []. rewrite app_nil_r. auto.
  - intros HG j cc'. simpl. intros Hj. apply lookup_insert_Some in Hj as [[_ <-]|[_ Hj]]; eauto.
Qed.

Lemma D_checks_delete k st : D st (set_checks (delete k (checks st)) st).
Proof.
  split; simpl; auto.
  - exists []. rewrite app_nil_r. auto.
  - exists []. rewrite app_nil_r. auto.
  - intros HG j cc'. simpl. intros Hj. apply lookup_delete_Some in Hj as [_ Hj]. eauto.
Qed.

Lemma PE_sends out : Forall PE (map EffRoutedSend out).
Proof. induction out; simpl; constructor; auto. exact I. Qed.

Lemma PE_listeners l : Forall PE (map EffListener l).
Proof. induction l; simpl; constructor; auto. exact I. Qed.

Lemma D_sendFunction data now st : D st (snd (sendFunction opt data now st)).
Proof.
  unfold sendFunction.
  assert (Hq : mode opt <> LocalOnly ->
    D st (snd (let '(err, (q', out)) :=
            MessageQueue.enqueue (maxQueueLength opt) data (messageQueue st) in
          (err, match out with
                | [] => emit (map EffRoutedSend out) (set_messageQueue q' st)
                | _ => setTimeout TQueuePause MessageQueue.pauseMs now
                         (emit (map EffRoutedSend out) (set_messageQueue q' st))
                end)))).
  { intros _. destruct (MessageQueue.enqueue _ _ _) as [err [q' out]]. simpl.
    assert (D st (emit (map EffRoutedSend out) (set_messageQueue q' st))).
    { eapply D_trans; [apply (D_same st (set_messageQueue q' st)); reflexivity|].
      apply D_emit. apply PE_sends. }
    destruct out; [done|]. eapply D_trans; [eassumption|]. apply D_setTimeout. exact I. }
  destruct (mode opt); [apply Hq; discriminate|apply Hq; discriminate|apply D_refl].
Qed.

Lemma fresh_id_spec now st :
  D st (snd (fresh_id now st)) /\ (Fresh st -> ~ Q (fst (fresh_id now st))).
Proof.
  unfold fresh_id. simpl. split.
  - split; simpl; auto.
    + exists []. rewrite app_nil_r. auto.
    + exists []. rewrite app_nil_r. auto.
  - intros HF. apply HF. lia.
Qed.

Lemma D_handleResponse dupTrack request put err now st :
  ~ Q dupTrack -> D st (fst (handleResponse opt dupTrack request put err now st)).
Proof.
  intros HQ. unfold handleResponse.
  pose proof (D_sendFunction request now st) as HD.
  destruct (sendFunction opt request now st) as [sendResult st1]. simpl in HD.
  destruct (truthy sendResult).
  - simpl. eapply D_trans; [exact HD|]. apply D_queue_delete, HQ.
  - destruct put, (truthy err); simpl; exact HD.
Qed.

Lemma getWithCallback_core_spec lex cb o now st :
  Fresh st ->
  D st (fst (snd (getWithCallback_core opt lex cb o now st))) /\
  ~ Q (fst (getWithCallback_core opt lex cb o now st)).
Proof.
  intros HF. unfold getWithCallback_core.
  destruct (fresh_id_spec now st) as [HD1 HQ1]. specialize (HQ1 HF).
  destruct (fresh_id now st) as [dupTrack st1]. simpl in HD1, HQ1.
  destruct (Get lex (graph st) (opt_fast o)) as [a|].
  - simpl. split; [|done]. eapply D_trans; [exact HD1|]. apply D_handleResponse, HQ1.
  - destruct (store_get lex o (disk st1)) as [err [a|]].
    + simpl. split; [|done]. eapply D_trans; [exact HD1|]. apply D_handleResponse, HQ1.
    + simpl. split; [|done]. eapply D_trans; [exact HD1|].
      eapply D_trans; [apply D_queue_insert, HQ1|].
      eapply D_trans; [apply (D_setTimeout (TGetTimeout dupTrack lex cb)); exact HQ1|].
      apply D_handleResponse, HQ1.
Qed.

Lemma D_add_references refs st : D st (add_references refs st).
Proof. apply D_same; reflexivity. Qed.

Lemma D_after_ok after now st :
  Fresh st -> GoodAfter after -> D st (after_ok opt after now st).
Proof.
  intros HF HG. destruct after as [update msgid|update data cb]; simpl in HG; unfold after_ok.
  - destruct HG as [Hnow Hdefer].
    destruct (store_put (Ham.mix_now update) (disk st)) as [d err].
    set (st1 := emit [EffStorePut (Ham.mix_now update)] (set_disk d st)).
    assert (HD1 : D st st1).
    { eapply D_trans; [apply (D_same st (set_disk d st)); reflexivity|].
      apply D_emit. constructor; [exact Hnow|constructor]. }
    destruct (fresh_id_spec now st1) as [HD2 _].
    destruct (fresh_id now st1) as [id st2]. simpl in HD2.
    pose proof (D_sendFunction (JSON_stringify (ack_msg id msgid err)) now st2) as HD3.
    destruct (sendFunction opt _ now st2) as [r st3]. simpl in HD3.
    assert (HD4 : D st (emit (map EffListener (Ham.mix_listeners update)) st3)).
    { eapply D_trans; [exact HD1|]. eapply D_trans; [exact HD2|].
      eapply D_trans; [exact HD3|]. apply D_emit, PE_listeners. }
    destruct (Ham.mix_defer update) eqn:Hd; [exact HD4|].
    eapply D_trans; [exact HD4|]. apply D_setTimeout. simpl. exact Hdefer.
  - set (st1 := add_references (graph_refs (Ham.mix_now update)) st).
    destruct (store_put (Ham.mix_now update) (disk st1)) as [d err].
    match goal with |- context [emit ?es (set_disk d st1)] =>
      set (st2 := emit es (set_disk d st1)); assert (HD2 : D st st2) end.
    { eapply D_trans; [apply D_add_references|].
      eapply D_trans; [apply (D_same st1 (set_disk d st1)); reflexivity|].
      apply D_emit. constructor; [exact HG|].
      apply Forall_app. split; [destruct cb; repeat constructor|apply PE_listeners]. }
    destruct (fresh_id_spec now st2) as [HD3 _].
    destruct (fresh_id now st2) as [id st3]. simpl in HD3.
    match goal with |- context [sendFunction opt ?d now st3] =>
      pose proof (D_sendFunction d now st3) as HD4;
      destruct (sendFunction opt d now st3) as [r st4] end.
    simpl in HD4.
    assert (HD5 : D st st4).
    { eapply D_trans; [exact HD2|]. eapply D_trans; [exact HD3|]. exact HD4. }
    destruct (truthy r), cb; try exact HD5.
    eapply D_trans; [exact HD5|]. apply D_emit. repeat constructor.
Qed.

Lemma D_after_fail after e st : D st (after_fail after e st).
Proof.
  destruct after as [u m|u d [c|]]; simpl; try apply D_refl.
  apply D_emit. repeat constructor.
Qed.

Lemma D_check_loop todo data after now st :
  Fresh st -> GoodAfter after -> D st (check_loop opt todo data after now st).
Proof.
  revert st. induction todo as [|soul rest IH]; intros st HF HG; simpl.
  - apply D_after_ok; auto.
  - set (st0 := set_next_check (S (next_check st)) st).
    assert (HD0 : D st st0) by (apply D_same; reflexivity).
    destruct (getWithCallback_core_spec (check_lex soul) (CheckResolve (next_check st))
                no_options now st0 (Fresh_D _ _ HD0 HF)) as [HD1 _].
    destruct (getWithCallback_core opt (check_lex soul) _ no_options now st0)
      as [id [st1 answer]]. simpl in HD1.
    assert (HD : D st st1) by (eapply D_trans; eauto).
    destruct answer as [msg|].
    + destruct (check_verdict soul data msg).
      * eapply D_trans; [exact HD|]. apply D_after_fail.
      * eapply D_trans; [exact HD|]. apply IH; [|done]. eapply Fresh_D; eauto.
    + eapply D_trans; [exact HD|]. apply D_checks_insert. exact HG.
Qed.

Lemma D_check_resume cc msg now st :
  Fresh st -> PC cc -> D st (check_resume opt cc msg now st).
Proof.
  intros HF HG. unfold check_resume. destruct (check_verdict _ _ _).
  - apply D_after_fail.
  - apply D_check_loop; auto.
Qed.

Lemma D_invoke cb request msg now st :
  Fresh st -> GoodChecks st -> ~ Q request -> D st (invoke opt cb request msg now st).
Proof.
  intros HF HG HQ. destruct cb as [n|k]; simpl.
  - apply D_emit. repeat constructor. exact HQ.
  - destruct (checks st !! k) as [cc|] eqn:Hk; [|apply D_refl].
    eapply D_trans; [apply (D_checks_delete k)|].
    apply D_check_resume; [|eapply HG; eauto].
    eapply Fresh_D; [apply D_checks_delete|done].
Qed.

Lemma D_getWithCallback lex cb o now st :
  Fresh st -> GoodChecks st -> D st (getWithCallback opt lex cb o now st).
Proof.
  intros HF HG. unfold getWithCallback.
  destruct (getWithCallback_core_spec lex cb o now st HF) as [HD HQ].
  destruct (getWithCallback_core opt lex cb o now st) as [id [st1 answer]]. simpl in *.
  destruct answer; [|exact HD].
  eapply D_trans; [exact HD|]. apply D_invoke; auto.
  - eapply Fresh_D; eauto.
  - apply (Frame.d_checks _ _ _ _ _ HD HG).
Qed.

Lemma D_handleGet lex msgid now st : D st (handleGet opt lex msgid now st).
Proof.
  unfold handleGet.
  assert (R : forall put err st0, D st0
    (snd (sendFunction opt
       (JSON_stringify {| msg_id := Some (fst (fresh_id now st0)); msg_at := Some msgid;
                          msg_get := None; msg_put := put; msg_err := err;
                          msg_hello := None |}) now (snd (fresh_id now st0))))).
  { intros put err st0. eapply D_trans; [apply fresh_id_spec|apply D_sendFunction]. }
  destruct (Get lex (graph st) false).
  - apply R.
  - destruct (store_get _ _ _) as [err ack]. apply R.
Qed.

Lemma D_handlePut put msgid now st :
  Fresh st -> Good put -> D st (handlePut opt put msgid now st).
Proof.
  intros HF HG. unfold handlePut.
  set (update := Ham_mix now put (graph st) (secure opt) (listen st)).
  destruct (mix_good now put (graph st) (secure opt) (listen st) HG) as [Hn Hd].
  fold update in Hn, Hd.
  set (st1 := set_graph (Ham.mix_graph update) st).
  assert (HD1 : D st st1) by (apply D_same; reflexivity).
  destruct (Ham.mix_now update) eqn:En.
  - destruct (Ham.mix_defer update) eqn:Ed; [exact HD1|].
    eapply D_trans; [exact HD1|]. apply D_setTimeout. simpl. rewrite ?Ed. exact Hd.
  - rewrite <- En. eapply D_trans; [exact HD1|].
    apply D_check_loop; [eapply Fresh_D; eauto|]. split; [rewrite En|]; assumption.
Qed.

Lemma sub_eq_refl st : sub_eq st st.
Proof. repeat split. Qed.

Lemma sub_eq_trans a b c : sub_eq a b -> sub_eq b c -> sub_eq a c.
Proof. intros (?&?&?&?) (?&?&?&?). repeat split; congruence. Qed.

Lemma sub_eq_sendFunction data now st : sub_eq st (snd (sendFunction opt data now st)).
Proof.
  unfold sendFunction. destruct (mode opt); try apply sub_eq_refl;
    destruct (MessageQueue.enqueue _ _ _) as [err [q' out]]; destruct out; repeat split.
Qed.

Lemma sub_eq_handleGet lex msgid now st : sub_eq st (handleGet opt lex msgid now st).
Proof.
  unfold handleGet.
  assert (R : forall d st0, sub_eq st0 (snd (sendFunction opt d now (snd (fresh_id now st0))))).
  { intros d st0. eapply sub_eq_trans; [|apply sub_eq_sendFunction]. repeat split. }
  destruct (Get lex (graph st) false); [apply R|].
  destruct (store_get _ _ _) as [err ack]. apply R.
Qed.

Lemma sub_eq_handleHello pub clientId st : sub_eq st (handleHello opt pub clientId st).
Proof. unfold handleHello. destruct (truthy pub), (truthy (Some clientId)); repeat split. Qed.

Lemma D_handleHello pub clientId st : D st (handleHello opt pub clientId st).
Proof.
  unfold handleHello. destruct (truthy pub), (truthy (Some clientId));
    try apply D_refl. apply D_same; reflexivity.
Qed.

Lemma set_pendingReferences_eta st : set_pendingReferences (pendingReferences st) st = st.
Proof. destruct st; reflexivity. Qed.

Lemma extract_references_shape put st :
  exists P, extract_references put st = set_pendingReferences P st.
Proof.
  unfold extract_references. revert st. induction put as [|e put IH]; intros st; simpl.
  - exists (pendingReferences st). symmetry. apply set_pendingReferences_eta.
  - destruct (snd e) as [node|]; [|apply IH].
    destruct (subscribed (fst e) st); [|apply IH].
    destruct (IH (add_references (node_refs node) st)) as [P HP].
    exists P. rewrite HP. reflexivity.
Qed.

Lemma filter_souls_shape_gen put acc st :
  exists P, snd (fold_left (fun acc e =>
               if subscribed (fst e) (snd acc)
               then (obj_set (fst e) (snd e) (fst acc),
                     set_pendingReferences (pendingReferences (snd acc) ∖ {[fst e]})
                                           (snd acc))
               else acc) put (acc, st)) = set_pendingReferences P st.
Proof.
  revert acc st. induction put as [|e put IH]; intros acc st; simpl.
  - exists (pendingReferences st). symmetry. apply set_pendingReferences_eta.
  - destruct (subscribed (fst e) st); [|apply IH].
    destruct (IH (obj_set (fst e) (snd e) acc)
                 (set_pendingReferences (pendingReferences st ∖ {[fst e]}) st)) as [P HP].
    exists P. rewrite HP. reflexivity.
Qed.

Lemma filter_souls_shape put st :
  exists P, snd (filter_souls put st) = set_pendingReferences P st.
Proof. apply filter_souls_shape_gen. Qed.

Lemma D_set_pendingReferences P st : D st (set_pendingReferences P st).
Proof. apply D_same; reflexivity. Qed.

Lemma D_handlePutMessage put msgid now st :
  Fresh st -> Good (fst (filter_souls put (extract_references put st))) ->
  D st (handlePutMessage opt put msgid now st).
Proof.
  intros HF HG. unfold handlePutMessage.
  destruct (extract_references_shape put st) as [P1 H1].
  destruct (filter_souls_shape put (extract_references put st)) as [P2 H2].
  destruct (filter_souls put (extract_references put st)) as [filteredPut st'].
  simpl in *. subst st'. rewrite H1.
  assert (HD : D st (set_pendingReferences P2 (set_pendingReferences P1 st)))
    by (apply D_same; reflexivity).
  destruct filteredPut as [|e l] eqn:E; [exact HD|].
  eapply D_trans; [exact HD|]. apply D_handlePut; [|exact HG].
  eapply Fresh_D; eauto.
Qed.

Lemma D_handleAck msg now st :
  Fresh st -> GoodChecks st ->
  (is_Some (queue st !! js_key (msg_at msg)) ->
     ~ Q (js_key (msg_at msg)) /\ ~ Q "undefined") ->
  D st (handleAck opt msg now st).
Proof.
  intros HF HG HQ. unfold handleAck.
  destruct (queue st !! js_key (msg_at msg)) as [cb|] eqn:E; [|apply D_refl].
  destruct HQ as [HQ1 HQ2]; [eauto|].
  match goal with |- D st (set_queue (delete ?k (queue ?s)) ?s) =>
    assert (HD : D st s) by (apply D_invoke; auto);
    eapply D_trans; [exact HD|]; apply D_queue_delete end.
  exact HQ2.
Qed.

Lemma D_handleMessage_body data clientId now st :
  Fresh st -> GoodChecks st -> BodyOK data st ->
  D st (handleMessage_body opt data clientId now st).
Proof.
  intros HF HG HB. unfold handleMessage_body.
  destruct (JSON_parse data) as [msg|] eqn:Hp; [|apply D_refl].
  destruct (HB msg Hp) as [HQ Hput].
  destruct (truthy (msg_id msg)) as [id|]; [|apply D_refl].
  destruct (Dup.check now id (dup st)) as [seen d].
  destruct seen; [apply D_same; reflexivity|].
  set (st1 := set_dup (Dup.track now id d) st).
  assert (HD1 : D st st1) by (apply D_same; reflexivity).
  assert (HS1 : sub_eq st st1) by (repeat split).
  set (st2 := match msg_hello msg with
              | Some pub => handleHello opt pub clientId st1
              | None => st1
              end).
  assert (HD2 : D st st2 /\ sub_eq st st2).
  { unfold st2. destruct (msg_hello msg); [|auto]. split.
    - eapply D_trans; [exact HD1|apply D_handleHello].
    - eapply sub_eq_trans; [exact HS1|apply sub_eq_handleHello]. }
  destruct HD2 as [HD2 HS2].
  set (st3 := match msg_get msg with
              | Some lex => handleGet opt lex id now st2
              | None => st2
              end).
  assert (HD3 : D st st3 /\ sub_eq st st3).
  { unfold st3. destruct (msg_get msg); [|auto]. split.
    - eapply D_trans; [exact HD2|apply D_handleGet].
    - eapply sub_eq_trans; [exact HS2|apply sub_eq_handleGet]. }
  destruct HD3 as [HD3 HS3].
  set (st4 := match msg_put msg with
              | Some put => handlePutMessage opt put id now st3
              | None => st3
              end).
  assert (HD4 : D st st4).
  { unfold st4. destruct (msg_put msg) as [put|] eqn:Eput; [|auto].
    eapply D_trans; [exact HD3|]. apply D_handlePutMessage.
    - eapply Fresh_D; eauto.
    - apply Hput; auto. }
  eapply D_trans; [exact HD4|]. apply D_handleAck.
  - eapply Fresh_D; eauto.
  - apply (Frame.d_checks _ _ _ _ _ HD4 HG).
  - intros _. exact HQ.
Qed.

Lemma D_handleMessage data clientId now st :
  Fresh st -> GoodChecks st -> BodyOK data st -> Resumable data ->
  D st (handleMessage opt data clientId now st).
Proof.
  intros HF HG HB HR. unfold handleMessage.
  destruct (validateMessage data); [|apply D_refl].
  destruct (RateLimiter.getDelay now clientId (clients st)) as [delay c].
  set (st1 := set_clients c st).
  assert (HD1 : D st st1) by (apply D_same; reflexivity).
  destruct (0 <? delay).
  - destruct (RateLimiter.shouldDisconnect clientId c); [exact HD1|].
    eapply D_trans; [exact HD1|]. apply D_setTimeout. exact HR.
  - eapply D_trans; [exact HD1|]. apply D_handleMessage_body.
    + eapply Fresh_D; eauto.
    + apply (Frame.d_checks _ _ _ _ _ HD1 HG).
    + intros msg Hm. destruct (HB msg Hm) as [HQ Hput]. split; [exact HQ|].
      intros put st3 Hp Hs. apply Hput; [exact Hp|].
      eapply sub_eq_trans; [|exact Hs]. repeat split.
Qed.

Lemma D_fire t now st :
  Fresh st -> GoodChecks st -> FireOK t st -> D st (fire opt t now st).
Proof.
  intros HF HG [HP HB]. destruct t as [id lex cb|put msgid|data clientId|]; simpl in *.
  - destruct (queue st !! id) eqn:E; [|apply D_refl].
    match goal with |- D st (set_queue (delete id (queue ?s)) ?s) =>
      assert (HD : D st s) by (apply D_invoke; auto);
      eapply D_trans; [exact HD|]; apply D_queue_delete end.
    exact HP.
  - apply D_handlePut; auto.
  - apply D_handleMessage_body; auto.
  - destruct (MessageQueue.resume (messageQueue st)) as [q' out].
    assert (HD : D st (emit (map EffRoutedSend out) (set_messageQueue q' st))).
    { eapply D_trans; [apply (D_same st (set_messageQueue q' st)); reflexivity|].
      apply D_emit, PE_sends. }
    destruct out; [exact HD|].
    eapply D_trans; [exact HD|]. apply D_setTimeout. exact I.
Qed.

Lemma D_api_get lex cb o now st :
  Fresh st -> GoodChecks st -> D st (api_get opt lex cb o now st).
Proof.
  intros HF HG. unfold api_get.
  match goal with |- D st (getWithCallback _ _ _ _ _ ?s) =>
    assert (HD : D st s) by (destruct (truthy (lex_soul (normalize lex)));
                             [apply D_same; reflexivity|apply D_refl]) end.
  eapply D_trans; [exact HD|]. apply D_getWithCallback.
  - eapply Fresh_D; eauto.
  - apply (Frame.d_checks _ _ _ _ _ HD HG).
Qed.

Lemma D_api_put data cb now st :
  Fresh st -> Good data -> D st (api_put opt data cb now st).
Proof.
  intros HF HG. unfold api_put.
  set (update := Ham_mix now data (graph st) (secure opt) (listen st)).
  destruct (mix_good now data (graph st) (secure opt) (listen st) HG) as [Hn Hd].
  fold update in Hn, Hd.
  set (st1 := set_graph (Ham.mix_graph update) st).
  assert (HD1 : D st st1) by (apply D_same; reflexivity).
  destruct (Ham.mix_now update) eqn:En.
  - destruct cb; [|exact HD1]. eapply D_trans; [exact HD1|]. apply D_emit. repeat constructor.
  - rewrite <- En. eapply D_trans; [exact HD1|].
    apply D_check_loop; [eapply Fresh_D; eauto|]. simpl. rewrite En. exact Hn.
Qed.

Lemma D_api_on lex cb get o now st :
  Fresh st -> GoodChecks st -> D st (api_on opt lex cb get o now st).
Proof.
  intros HF HG. unfold api_on.
  destruct (truthy (lex_soul (normalize lex))) as [soul|]; [|apply D_refl].
  match goal with |- D st (if get then getWithCallback _ _ _ _ _ ?s else _) =>
    assert (HD : D st s) by (apply D_same; reflexivity) end.
  destruct get; [|exact HD].
  eapply D_trans; [exact HD|]. apply D_getWithCallback.
  - eapply Fresh_D; eauto.
  - apply (Frame.d_checks _ _ _ _ _ HD HG).
Qed.

Lemma D_api_off lex cb st : D st (api_off lex cb st).
Proof.
  unfold api_off. destruct (truthy (lex_soul lex)); [|apply D_refl].
  destruct (listen st !! s); [|apply D_refl].
  destruct cb; [destruct (FingerTable.findIndex _ _)|]; try apply D_refl;
    apply D_same; reflexivity.
Qed.

Lemma D_step ev st :
  Fresh st -> GoodChecks st -> EventOK ev st ->
  (forall k, snd ev <> EvTimer k) -> D st (step opt st ev).
Proof.
  intros HF HG HE HT. destruct ev as [now e]. unfold step, Frame.EventOK in *. simpl in *.
  destruct e; simpl.
  - destruct HE as [HL|[HB HR]].
    + rewrite HL. apply D_refl.
    + destruct (mode opt); try apply D_refl; apply D_handleMessage; auto.
  - destruct (mode opt); try apply D_refl. apply D_emit. repeat constructor.
  - destruct (mode opt); try apply D_refl. apply D_same; reflexivity.
  - exfalso. eapply HT. reflexivity.
  - apply D_api_get; auto.
  - apply D_api_put; auto.
  - apply D_api_on; auto.
  - apply D_api_off.
  - destruct (isTestEnv opt); [apply D_refl|apply D_same; reflexivity].
  - apply D_same; reflexivity.
Qed.

Lemma fire_timer_cases k now st :
  fire_timer opt k now st = st \/
  exists deadline t, timers st !! k = Some (deadline, t) /\ deadline <= now /\
    fire_timer opt k now st = fire opt t now (set_timers (delete k (timers st)) st).
Proof.
  unfold fire_timer. destruct (timers st !! k) as [[deadline t]|] eqn:E; [|auto].
  destruct (deadline <=? now) eqn:Hd; [|auto].
  right. exists deadline, t. apply Z.leb_le in Hd. auto.
Qed.

End Frame.
End WireFacts.

Module GetFacts.
Import Schema Wire WireFacts GetSpec.

Lemma delete_split {A} (l1 l2 : list A) x k y :
  (l1 ++ x :: l2) !! k = Some y ->
  (l1 !! k = Some y /\ delete k (l1 ++ x :: l2) = delete k l1 ++ x :: l2) \/
  (k = length l1 /\ y = x /\ delete k (l1 ++ x :: l2) = l1 ++ l2) \/
  (exists j, l2 !! j = Some y /\ delete k (l1 ++ x :: l2) = l1 ++ x :: delete j l2).
Proof.
  revert k. induction l1 as [|a l1 IH]; intros k Hk; simpl in *.
  - destruct k as [|k]; simpl in *.
    + right. left. inversion Hk. auto.
    + right. right. exists k. auto.
  - destruct k as [|k]; simpl in *.
    + left. auto.
    + destruct (IH k Hk) as [[H1 H2]|[(H1 & H2 & H3)|(j & H1 & H2)]].
      * left. split; [done|]. f_equal. exact H2.
      * right. left. repeat split; auto. f_equal. exact H3.
      * right. right. exists j. split; [done|]. f_equal. exact H2.
Qed.

Section Timeout.
Context `{Collaborators}.
Variable opt : Options.
Variable id : string.
Variable lex : Lex.
Variable cb : nat.
Variable deadline : Z.
Variable base : list Effect.
Variable R : string -> Prop.
Hypothesis R_ok : forall data, R data -> no_ack id data /\ id <> "undefined".

Local Abbreviation Q := (fun i : string => i = id).
Local Abbreviation Good := (fun _ : PutGraph => True).
Local Abbreviation D := (Frame.D Q Good R).
Local Abbreviation PT := (Frame.PT Q Good R).
Local Abbreviation PE := (Frame.PE Q Good).
Local Abbreviation Fresh := (Frame.Fresh Q).
Local Abbreviation ours := (deadline, TGetTimeout id lex (UserCb cb)).
Local Abbreviation IPending := (GetSpec.IPending id lex cb deadline base R).
Local Abbreviation IDone := (GetSpec.IDone id lex cb base R).
Local Abbreviation EventFine := (GetSpec.EventFine opt R).

Lemma mix_good_trivial : forall now change g sec l,
  Good change ->
  Good (Ham.mix_now (Ham_mix now change g sec l)) /\
  Good (Ham.mix_defer (Ham_mix now change g sec l)).
Proof. auto. Qed.

Lemma GoodChecks_trivial st : Frame.GoodChecks Good st.
Proof. intros k cc _. unfold Frame.PC. destruct (cc_after cc); simpl; auto. split; auto. Qed.

Lemma PT_foreign t : PT t <-> foreign R id t.
Proof. destruct t; simpl; tauto. Qed.

Lemma calls_of_app i es1 es2 : calls_of i (es1 ++ es2) = calls_of i es1 ++ calls_of i es2.
Proof. unfold calls_of. apply omap_app. Qed.

Lemma calls_of_PE es : Forall PE es -> calls_of id es = [].
Proof.
  induction 1 as [|e es He _ IH]; [done|].
  unfold calls_of in *. destruct e; simpl in *; try exact IH.
  destruct (String.eqb request id) eqn:E; [|exact IH].
  apply String.eqb_eq in E. contradiction.
Qed.

Lemma IPending_D st st' : IPending st -> D st st' -> IPending st'.
Proof.
  intros [HF Hq (l1 & l2 & Ht & H1 & H2) (new & He & Hn)] HD.
  destruct HD as [Hr Hqq (nt & Hnt & Fnt) (ne & Hne & Fne) _].
  split.
  - intros k Hk. apply HF. lia.
  - rewrite Hqq; auto.
  - exists l1, (l2 ++ nt). rewrite Hnt, Ht, <- app_assoc. simpl. repeat split; auto.
    apply Forall_app; auto.
  - exists (new ++ ne). rewrite Hne, He, app_assoc. split; [done|]. apply Forall_app; auto.
Qed.

Lemma IDone_D st st' : IDone st -> D st st' -> IDone st'.
Proof.
  intros [HF Hq Ht (e1 & e2 & He & H1 & H2)] HD.
  destruct HD as [Hr Hqq (nt & Hnt & Fnt) (ne & Hne & Fne) _].
  split.
  - intros k Hk. apply HF. lia.
  - rewrite Hqq; auto.
  - rewrite Hnt. apply Forall_app; auto.
  - exists e1, (e2 ++ ne). rewrite Hne, He. rewrite <- !app_assoc. simpl.
    repeat split; auto. apply Forall_app; auto.
Qed.

Lemma FireOK_of_PT t st : PT t -> Frame.FireOK Q Good R t st.
Proof.
  intros HP. split; [exact HP|]. destruct t; try exact I.
  simpl in HP. destruct (R_ok _ HP) as [Hna Hu].
  intros msg Hm. split; [split; [apply Hna, Hm|intros E; apply Hu; symmetry; exact E]|]. auto.
Qed.

Lemma fire_ours now st :
  queue st !! id = Some (UserCb cb) ->
  fire opt (TGetTimeout id lex (UserCb cb)) now st
  = set_queue (delete id (queue st)) (emit [EffCallback id cb (timeout_msg id lex)] st).
Proof. intros Hq. simpl. rewrite Hq. reflexivity. Qed.

Lemma EventOK_of_fine ev st : EventFine ev -> Frame.EventOK opt Q Good R ev st.
Proof.
  unfold GetSpec.EventFine, Frame.EventOK. destruct (snd ev); auto.
  intros [HL|HR]; [auto|right]. split; [|exact HR].
  destruct (R_ok _ HR) as [Hna Hu].
  intros msg Hm. split; [split; [apply Hna, Hm|intros E; apply Hu; symmetry; exact E]|]. auto.
Qed.

Lemma fire_timer_due k now st d t :
  timers st !! k = Some (d, t) -> d <= now ->
  fire_timer opt k now st = fire opt t now (set_timers (delete k (timers st)) st).
Proof.
  intros Hk Hd. unfold fire_timer. rewrite Hk. apply Z.leb_le in Hd. rewrite Hd. reflexivity.
Qed.

Lemma fire_timer_inv k now st :
  IPending st \/ IDone st ->
  IPending (fire_timer opt k now st) \/ IDone (fire_timer opt k now st).
Proof.
  intros HI.
  destruct (fire_timer_cases opt k now st) as [->|(d & t & Hk & Hd & ->)]; [exact HI|].
  set (st_del := set_timers (delete k (timers st)) st).
  destruct HI as [HP|HDn].
  - destruct HP as [HF Hq (l1 & l2 & Ht & H1 & H2) He].
    rewrite Ht in Hk.
    destruct (delete_split _ _ _ _ _ Hk) as [[Hl Hdel]|[(Hl & Heq & Hdel)|(j & Hl & Hdel)]].
    + left. apply (IPending_D st_del).
      * split; simpl; auto. exists (delete k l1), l2. rewrite Ht, Hdel.
        repeat split; auto. apply Forall_delete, H1.
      * apply D_fire; [exact mix_good_trivial|exact HF|apply GoodChecks_trivial|].
        apply FireOK_of_PT. rewrite Forall_forall in H1.
        apply (H1 (d, t)). eapply list_elem_of_lookup_2; eauto.
    + right. inversion Heq; subst d t. rewrite fire_ours by exact Hq.
      destruct He as (new & He & Fn).
      split; simpl; auto.
      * apply lookup_delete_eq.
      * rewrite Ht, Hdel. apply Forall_app; auto.
      * exists new, []. rewrite He, <- app_assoc. repeat split; auto.
    + left. apply (IPending_D st_del).
      * split; simpl; auto. exists l1, (delete j l2). rewrite Ht, Hdel.
        repeat split; auto. apply Forall_delete, H2.
      * apply D_fire; [exact mix_good_trivial|exact HF|apply GoodChecks_trivial|].
        apply FireOK_of_PT. rewrite Forall_forall in H2.
        apply (H2 (d, t)). eapply list_elem_of_lookup_2; eauto.
  - right. destruct HDn as [HF Hq Ht He].
    apply (IDone_D st_del).
    + split; simpl; auto. apply Forall_delete, Ht.
    + apply D_fire; [exact mix_good_trivial|exact HF|apply GoodChecks_trivial|].
      apply FireOK_of_PT. rewrite Forall_forall in Ht.
      apply (Ht (d, t)). eapply list_elem_of_lookup_2; eauto.
Qed.

Lemma timeout_step_inv ev st :
  EventFine ev -> IPending st \/ IDone st ->
  IPending (step opt st ev) \/ IDone (step opt st ev).
Proof.
  intros HE HI. destruct ev as [now e].
  assert (Hcase : (exists k, e = EvTimer k) \/ ~ (exists k, e = EvTimer k)).
  { destruct e; try (right; intros [k0 Hk0]; discriminate). left. eauto. }
  destruct Hcase as [[k ->]|Hnt].
  - apply fire_timer_inv, HI.
  - assert (HD : forall st0, Fresh st0 -> D st0 (step opt st0 (now, e))).
    { intros st0 HF0.
      apply (D_step opt _ _ R mix_good_trivial (now, e) st0 HF0
               (GoodChecks_trivial st0) (EventOK_of_fine _ _ HE)).
      intros k Hk. apply Hnt. exists k. exact Hk. }
    destruct HI as [HP|HDn].
    + left. eapply IPending_D; [exact HP|]. apply HD, HP.
    + right. eapply IDone_D; [exact HDn|]. apply HD, HDn.
Qed.

Lemma timeout_run_inv evs st :
  Forall EventFine evs -> IPending st \/ IDone st ->
  IPending (run opt evs st) \/ IDone (run opt evs st).
Proof.
  revert st. induction evs as [|ev evs IH]; intros st HE HI; simpl; [exact HI|].
  inversion HE; subst. apply IH; [done|]. apply timeout_step_inv; auto.
Qed.

Lemma IDone_TimedOut st :
  IDone st -> TimedOut R id lex cb (length base) st.
Proof.
  intros [HF Hq Ht (e1 & e2 & He & H1 & H2)]. repeat split.
  - exact Hq.
  - rewrite He, drop_app_length. rewrite calls_of_app, (calls_of_PE e1 H1). simpl.
    unfold calls_of. simpl. rewrite String.eqb_refl.
    fold (calls_of id e2). rewrite (calls_of_PE e2 H2). reflexivity.
  - eapply Forall_impl; [exact Ht|]. intros [d t] HP. simpl in *. apply PT_foreign, HP.
Qed.

Lemma IPending_Pending st :
  IPending st -> Pending opt R id lex cb deadline (length base) st.
Proof.
  intros HP. pose proof HP as [HF Hq (l1 & l2 & Ht & H1 & H2) (new & He & Hn)].
  repeat split.
  - exact Hq.
  - rewrite He, drop_app_length. apply calls_of_PE, Hn.
  - exists (length l1). split.
    + rewrite Ht. rewrite lookup_app_r by lia. rewrite Nat.sub_diag. reflexivity.
    + intros now Hnow.
      assert (HI : IPending (fire_timer opt (length l1) now st) \/
                   IDone (fire_timer opt (length l1) now st))
        by (apply fire_timer_inv; auto).
      change (step opt st (now, EvTimer (length l1))) with (fire_timer opt (length l1) now st).
      destruct HI as [HP'|HD']; [|apply IDone_TimedOut, HD'].
      exfalso. destruct HP' as [_ Hq' _ _].
      rewrite (fire_timer_due _ _ _ deadline (TGetTimeout id lex (UserCb cb))) in Hq';
        [|rewrite Ht, lookup_app_r by lia; rewrite Nat.sub_diag; reflexivity|exact Hnow].
      rewrite fire_ours in Hq' by (simpl; exact Hq).
      simpl in Hq'. rewrite lookup_delete_eq in Hq'. discriminate.
Qed.

Lemma sendFunction_ok data now st :
  send_ok opt st -> fst (sendFunction opt data now st) = None.
Proof.
  unfold send_ok, sendFunction. intros [HL|Hlen].
  - rewrite HL. reflexivity.
  - assert (E : fst (MessageQueue.enqueue (maxQueueLength opt) data (messageQueue st)) = None).
    { unfold MessageQueue.enqueue.
      destruct (maxQueueLength opt <=? length (MessageQueue.queue (messageQueue st)))%nat eqn:E;
        [apply Nat.leb_le in E; lia|reflexivity]. }
    destruct (mode opt); try reflexivity;
      destruct (MessageQueue.enqueue _ _ _) as [err [q' out]]; simpl in *; exact E.
Qed.

Lemma api_get_pending lex0 o now st :
  lex = normalize lex0 ->
  id = random (rng st) ->
  deadline = now + waitMs (default no_options o) ->
  base = effects st ->
  Get lex (graph st) (opt_fast (default no_options o)) = None ->
  snd (store_get lex (default no_options o) (disk st)) = None ->
  send_ok opt st ->
  (forall k, (rng st < k)%nat -> random k <> id) ->
  Forall (fun dt => foreign R id (snd dt)) (timers st) ->
  IPending (api_get opt lex0 cb o now st).
Proof.
  intros Hlex Hid Hdl Hbase HG HS Hsend Hrand Htim.
  set (o' := default no_options o) in *.
  unfold api_get. rewrite <- Hlex. fold o'.
  set (st1 := match truthy (lex_soul lex) with
              | Some soul => set_pendingReferences (pendingReferences st ∪ {[soul]}) st
              | None => st
              end).
  assert (E1 : graph st1 = graph st /\ disk st1 = disk st /\ rng st1 = rng st /\
               timers st1 = timers st /\ effects st1 = effects st /\
               messageQueue st1 = messageQueue st).
  { unfold st1. destruct (truthy (lex_soul lex)); repeat split. }
  destruct E1 as (Eg & Ed & Er & Et & Ee & Em).
  unfold getWithCallback, getWithCallback_core.
  rewrite Eg, HG. unfold fresh_id. rewrite Er, <- Hid.
  set (st2 := set_dup (Dup.track now id (dup st1)) (set_rng (S (rng st)) st1)).
  assert (Ed2 : disk st2 = disk st) by exact Ed.
  rewrite Ed2. destruct (store_get lex o' (disk st)) as [err ack']. simpl in HS. subst ack'.
  set (request := JSON_stringify _).
  set (st3 := set_queue (<[id := UserCb cb]> (queue st2)) st2).
  set (st4 := setTimeout (TGetTimeout id lex (UserCb cb)) (waitMs o') now st3).
  assert (Hs4 : send_ok opt st4).
  { unfold send_ok in *. simpl. rewrite Em. exact Hsend. }
  unfold handleResponse.
  pose proof (sendFunction_ok request now st4 Hs4) as Hfst.
  pose proof (D_sendFunction opt Q Good R request now st4) as HD.
  destruct (sendFunction opt request now st4) as [r st5]. simpl in Hfst, HD. subst r.
  simpl.
  apply (IPending_D st4); [|exact HD].
  split.
  - intros k Hk. simpl in Hk. apply Hrand. lia.
  - simpl. apply lookup_insert_eq.
  - exists (timers st), []. simpl. rewrite Et, Hdl.
    split; [reflexivity|]. split; [|constructor].
    eapply Forall_impl; [exact Htim|]. intros [d t] Hf. simpl in *.
    apply PT_foreign. exact Hf.
  - exists []. simpl. rewrite Ee, app_nil_r, Hbase. auto.
Qed.

End Timeout.
End GetFacts.

Module FilterFacts.
Import Schema Wire WireFacts FilterSpec.
Section Filter.
Context `{Collaborators}.
Variable opt : Options.
Variable soul : string.
Hypothesis Hmix : mix_sound soul.

Local Abbreviation Q := (fun _ : string => False).
Local Abbreviation Good := (fun g : PutGraph => soul ∉ souls g).
Local Abbreviation R := (fun _ : string => True).
Local Abbreviation D := (Frame.D Q Good R).

Lemma Fresh_trivial st : Frame.Fresh Q st.
Proof. intros k _ []. Qed.

Lemma GoodChecks_quiet st : Frame.GoodChecks Good st <-> quiet_checks soul st.
Proof.
  unfold Frame.GoodChecks, quiet_checks, Frame.PC, carries.
  split; intros Hq k cc Hk; specialize (Hq k cc Hk); destruct (cc_after cc); simpl in *.
  - intros [?|?]; destruct Hq; auto.
  - auto.
  - split; intros ?; apply Hq; auto.
  - auto.
Qed.

Lemma D_untouched st st' : quiet_checks soul st -> D st st' -> untouched soul st st'.
Proof.
  intros Hq [_ _ (nt & Hnt & Fnt) (ne & Hne & Fne) Hc]. repeat split.
  - exists ne. split; [done|]. eapply Forall_impl; [exact Fne|].
    intros e He. destruct e; simpl in *; auto.
  - exists nt. split; [done|]. eapply Forall_impl; [exact Fnt|].
    intros [d t] Ht. destruct t; simpl in *; auto.
  - apply GoodChecks_quiet, Hc, GoodChecks_quiet, Hq.
Qed.

Lemma souls_obj_set k v g x : x ∈ souls (obj_set k v g) -> x = k \/ x ∈ souls g.
Proof.
  unfold souls. induction g as [|[k' v'] g IH]; simpl.
  - intros Hx. apply list_elem_of_singleton in Hx. auto.
  - destruct (String.eqb k' k) eqn:E; simpl; intros Hx.
    + apply elem_of_cons in Hx as [->|Hx]; [auto|]. right. right. exact Hx.
    + apply elem_of_cons in Hx as [->|Hx]; [right; left|].
      destruct (IH Hx) as [->|Hg]; [auto|]. right. right. exact Hg.
Qed.

Lemma subscribed_pending s P st :
  subscribed s (set_pendingReferences P st)
  = hasSoul s st || bool_decide (s ∈ P) || bool_decide (is_Some (listen st !! s)).
Proof. reflexivity. Qed.

Lemma filter_fold_excludes put : forall acc st,
  subscribed soul st = false -> soul ∉ souls acc ->
  soul ∉ souls (fst (fold_left (fun acc e =>
               if subscribed (fst e) (snd acc)
               then (obj_set (fst e) (snd e) (fst acc),
                     set_pendingReferences (pendingReferences (snd acc) ∖ {[fst e]})
                                           (snd acc))
               else acc) put (acc, st))).
Proof.
  induction put as [|e put IH]; intros acc st Hs Ha; simpl; [exact Ha|].
  destruct (subscribed (fst e) st) eqn:E; [|apply IH; auto].
  apply IH.
  - rewrite subscribed_pending. unfold subscribed in Hs.
    apply orb_false_iff in Hs as [Hs Hl]. apply orb_false_iff in Hs as [Hh Hp].
    rewrite Hh, Hl. simpl. rewrite orb_false_r.
    apply bool_decide_eq_false. apply bool_decide_eq_false in Hp. set_solver.
  - intros Hin. apply souls_obj_set in Hin as [->|Hin]; [|auto].
    rewrite Hs in E. discriminate.
Qed.

Lemma filter_excludes put st :
  hasSoul soul st = false ->
  soul ∉ pendingReferences (extract_references put st) ->
  listen st !! soul = None ->
  soul ∉ souls (fst (filter_souls put (extract_references put st))).
Proof.
  intros Hh Hp Hl. unfold filter_souls. apply filter_fold_excludes; [|set_solver].
  destruct (extract_references_shape put st) as [P HP]. rewrite HP in *.
  rewrite subscribed_pending. rewrite Hh, Hl. simpl in *.
  rewrite orb_false_r. apply bool_decide_eq_false. exact Hp.
Qed.

Lemma subscribed_sub_eq s st st' : Frame.sub_eq st st' -> subscribed s st' = subscribed s st.
Proof.
  intros (Hg & Hd & Hl & Hp). unfold subscribed, hasSoul. rewrite Hg, Hd, Hl, Hp. reflexivity.
Qed.

Lemma extract_references_sub_eq put : forall st st',
  Frame.sub_eq st st' -> Frame.sub_eq (extract_references put st) (extract_references put st').
Proof.
  unfold extract_references.
  induction put as [|e put IH]; intros st st' Hs; simpl; [exact Hs|].
  destruct (snd e) as [node|]; [|apply IH, Hs].
  rewrite (subscribed_sub_eq _ _ _ Hs).
  destruct (subscribed (fst e) st); [|apply IH, Hs].
  apply IH. destruct Hs as (Hg & Hd & Hl & Hp). repeat split; simpl; auto.
  rewrite Hp. reflexivity.
Qed.

Lemma hasSoul_sub_eq s st st' : Frame.sub_eq st st' -> hasSoul s st' = hasSoul s st.
Proof. intros (Hg & Hd & _). unfold hasSoul. rewrite Hg, Hd. reflexivity. Qed.

Lemma body_ok data st msg put :
  JSON_parse data = Some msg -> msg_put msg = Some put ->
  hasSoul soul st = false ->
  soul ∉ pendingReferences (extract_references put st) ->
  listen st !! soul = None ->
  Frame.BodyOK Q Good data st.
Proof.
  intros Hm Hput Hh Hp Hl msg' Hm'. rewrite Hm in Hm'. inversion Hm'; subst msg'.
  split; [split; intros []|].
  intros put' st3 Hput' Hs. rewrite Hput in Hput'. inversion Hput'; subst put'.
  apply filter_excludes.
  - rewrite (hasSoul_sub_eq _ _ _ Hs). exact Hh.
  - destruct (extract_references_sub_eq put _ _ Hs) as (_ & _ & _ & Hpp). rewrite Hpp. exact Hp.
  - destruct Hs as (_ & _ & Hll & _). rewrite Hll. exact Hl.
Qed.

Lemma body_untouched data clientId now st msg put :
  JSON_parse data = Some msg -> msg_put msg = Some put ->
  hasSoul soul st = false ->
  soul ∉ pendingReferences (extract_references put st) ->
  listen st !! soul = None ->
  quiet_checks soul st ->
  untouched soul st (handleMessage_body opt data clientId now st).
Proof.
  intros Hm Hput Hh Hp Hl Hq. apply D_untouched; [exact Hq|].
  apply D_handleMessage_body.
  - exact Hmix.
  - apply Fresh_trivial.
  - apply GoodChecks_quiet, Hq.
  - eapply body_ok; eauto.
Qed.

Lemma fire_untouched t now st :
  ~ defers soul t -> (forall data c, t <> TRateResume data c) ->
  quiet_checks soul st ->
  untouched soul st (fire opt t now st).
Proof.
  intros Ht Hr Hq. apply D_untouched; [exact Hq|].
  apply D_fire.
  - exact Hmix.
  - apply Fresh_trivial.
  - apply GoodChecks_quiet, Hq.
  - split; destruct t; simpl in *; auto. exfalso. eapply Hr. reflexivity.
Qed.

End Filter.
End FilterFacts.

Module DedupFacts.
Import Schema Wire WireSpec.

Lemma same_wire_refl `{Collaborators} (st : State) : same_wire st st.
Proof. repeat split. Qed.

Lemma body_dropped `{Collaborators} (opt : Options) data clientId now (st : State) msg :
  JSON_parse data = Some msg ->
  (truthy (msg_id msg) = None \/
   exists id, truthy (msg_id msg) = Some id /\ is_Some (dup st !! id)) ->
  same_wire st (handleMessage_body opt data clientId now st) /\
  timers (handleMessage_body opt data clientId now st) = timers st.
Proof.
  intros Hp Hid. unfold handleMessage_body. rewrite Hp.
  destruct Hid as [Hid|(id & Hid & [t Ht])]; rewrite Hid.
  - split; [apply same_wire_refl|reflexivity].
  - unfold Dup.check. rewrite Ht. split; [repeat split|reflexivity].
Qed.

(** Claim C3.  A frame whose ["#"] is missing (or empty), or is in the
    recent-seen set when the check is reached, is dropped there: the
    graph, the pending replies, the subscriptions, the pending
    references, the finger table, the store, the suspended checks and
    the outbound queue are unchanged, nothing is done to the environment
    and no timer is set.  From its entry point [handleMessage] changes
    none of them either; at most it sets the timer that resumes a
    rate-limited frame. *)
Theorem handleMessage_dedup `{Collaborators} (opt : Options) (data clientId : string)
    (now : Z) (st : State) (msg : WireMessage) :
  JSON_parse data = Some msg ->
  (truthy (msg_id msg) = None \/
   exists id, truthy (msg_id msg) = Some id /\ is_Some (dup st !! id)) ->
  same_wire st (handleMessage_body opt data clientId now st) /\
  timers (handleMessage_body opt data clientId now st) = timers st /\
  same_wire st (handleMessage opt data clientId now st) /\
  (timers (handleMessage opt data clientId now st) = timers st \/
   exists delay, 0 < delay /\
     timers (handleMessage opt data clientId now st)
       = timers st ++ [(now + delay, TRateResume data clientId)]).
Proof.
  intros Hp Hid.
  destruct (body_dropped opt data clientId now st msg Hp Hid) as [Hb Ht].
  split; [exact Hb|]. split; [exact Ht|].
  unfold handleMessage. destruct (validateMessage data).
  2:{ split; [apply same_wire_refl|left; reflexivity]. }
  destruct (RateLimiter.getDelay now clientId (clients st)) as [delay c].
  destruct (0 <? delay) eqn:Hd.
  - destruct (RateLimiter.shouldDisconnect clientId c).
    + split; [repeat split|left; reflexivity].
    + split; [repeat split|]. right. exists delay. apply Z.ltb_lt in Hd. split; [exact Hd|].
      reflexivity.
  - destruct (body_dropped opt data clientId now (set_clients c st) msg Hp Hid) as [Hb' Ht'].
    split; [|left; exact Ht'].
    destruct Hb' as (?&?&?&?&?&?&?&?&?). repeat split; assumption.
Qed.

(** The frame [put-s] carries the id [m1], which the wire has seen. *)
Lemma handleMessage_dedup_witness :
  @same_wire Scenarios.env Scenarios.seen_m1
     (@handleMessage_body Scenarios.env Scenarios.server "put-s" "c1" 1000
        Scenarios.seen_m1).
Proof.
  apply (proj1 (@handleMessage_dedup Scenarios.env Scenarios.server "put-s" "c1" 1000
                  Scenarios.seen_m1 (Scenarios.put_msg "m1" [("s", Some Scenarios.bob)])
                  eq_refl
                  (or_intror (ex_intro _ "m1" (conj eq_refl (ex_intro _ 0 eq_refl)))))).
Defined.

(** [server.onDisconnection] removes the entry whose peer id is the
    connection id: the entry of any other id stays. *)
Lemma disconnect_keeps_other_ids `{Collaborators} (opt : Options) (conn pub : string)
    (st : State) :
  pub <> conn ->
  FingerTable.getPeer pub (fingerTable (onDisconnection opt conn st))
  = FingerTable.getPeer pub (fingerTable st).
Proof.
  intros Hne. unfold onDisconnection, FingerTable.getPeer. simpl.
  rewrite FingerTableFacts.removePeer_peerMap. apply lookup_delete_ne. congruence.
Qed.

(** Claim C5, on the code.  A peer that completed the handshake with the
    id [alice-key] over connection [ws_1] is still in the finger table
    after [ws_1] has disconnected. *)
Theorem handshake_entry_survives_disconnect :
  let st := @run Scenarios.env Scenarios.server
              [(1000, EvMessage "hello" "ws_1"); (2000, EvDisconnection "ws_1")]
              Scenarios.blank in
  FingerTable.getPeer "alice-key" (fingerTable st)
  = Some {| FingerTable.peer_id := "alice-key"; FingerTable.peer_send := "ws_1" |}.
Proof. vm_compute. reflexivity. Qed.

End DedupFacts.

Module FilterClaim.
Import Schema Wire FilterSpec WireSpec.


Lemma reference_mix_sound (soul : string) : @mix_sound Scenarios.env soul.
Proof. intros now change g sec l. apply HamFacts.mix_souls. Qed.



End FilterClaim.

Module GetClaim.
Import Schema Wire GetSpec.

Lemma timeout_outcome `{Collaborators} (opt : Options) (R : string -> Prop)
    (lex0 : Lex) (cb : nat) (o : option WireOptions) (now : Z) (st : State)
    (evs : list (Z * Event)) :
  let lex := normalize lex0 in
  let id := random (rng st) in
  (forall data, R data -> no_ack id data /\ id <> "undefined") ->
  Get lex (graph st) (opt_fast (default no_options o)) = None ->
  snd (store_get lex (default no_options o) (disk st)) = None ->
  send_ok opt st ->
  (forall k, (rng st < k)%nat -> random k <> id) ->
  Forall (fun dt => foreign R id (snd dt)) (timers st) ->
  Forall (EventFine opt R) evs ->
  let st' := run opt evs (api_get opt lex0 cb o now st) in
  Pending opt R id lex cb (now + waitMs (default no_options o)) (length (effects st)) st' \/
  TimedOut R id lex cb (length (effects st)) st'.
Proof.
  intros lex id HR HG HS Hsend Hrand Htim Hevs st'.
  pose proof (GetFacts.api_get_pending opt id lex cb
                (now + waitMs (default no_options o)) (effects st) R
                lex0 o now st eq_refl eq_refl eq_refl eq_refl HG HS Hsend Hrand Htim) as H0.
  destruct (GetFacts.timeout_run_inv opt id lex cb _ (effects st) R HR evs _ Hevs (or_introl H0))
    as [HP|HD].
  - left. apply GetFacts.IPending_Pending; assumption.
  - right. eapply GetFacts.IDone_TimedOut; eassumption.
Qed.


Lemma token_fresh (n k : nat) : (n < k)%nat -> @random Scenarios.env k <> @random Scenarios.env n.
Proof.
  intros Hk E. change ("r" +:+ pretty k = "r" +:+ pretty n) in E.
  apply (inj (String.app "r")) in E. apply (inj pretty) in E. lia.
Qed.

Lemma put_x_no_ack (id : string) : id <> "undefined" -> @no_ack Scenarios.env id "put-x".
Proof.
  intros Hid msg Hp. vm_compute in Hp. inversion Hp; subst. cbn. congruence.
Qed.





End GetClaim.

Module DeferClaim.
Import Schema Ham HamSpec Wire WireSpec.

Lemma wait_ok_mix eligible now change graph secure listen :
  wait_ok eligible now secure change
          (mix_wait (mix eligible now change graph secure listen)).
Proof.
  unfold mix. cbn [mix_wait].
  apply (HamFacts.wait_ok_fold eligible now secure listen change []).
  cbn [mix_wait]. split; [lia|]. split; [left; reflexivity|].
  intros soul node f v d Hin. apply elem_of_nil in Hin. done.
Qed.

Lemma after_ok_deferred `{Collaborators} (opt : Options) (r : MixResult) (msgid : string)
    (t : Z) (st : State) :
  mix_defer r <> [] ->
  last (timers (after_ok opt (AfterHandlePut r msgid) t st))
  = Some (t + mix_wait r, TDeferredPut (mix_defer r) msgid).
Proof.
  intros Hd. unfold after_ok.
  destruct (store_put (mix_now r) (disk st)) as [d err].
  destruct (fresh_id _ _) as [id st2].
  destruct (sendFunction opt _ t st2) as [res st3].
  destruct (mix_defer r) as [|e l] eqn:E; [done|].
  unfold setTimeout. cbn. apply last_snoc.
Qed.

(** Claim C4, as the code has it.
    Modelled from the spec: [Ham.mix] (ham.ts is not part of the sources
    at hand); [handlePut] is the code of wire-transport.ts.
    Let [change] have the field [f] of [soul] with state [state].  If
    [state] is beyond [now + 24 h] the merge rejects the field: it is
    not staged in [now], not applied to the graph and not in [defer].  If
    the field is advanced to the merge and [state] is after [now] and
    within 24 h, it is in [defer] with its value and its state, and is
    neither staged nor applied; [wait] is positive, is the delay of a
    deferred field of [change] and no deferred field has a smaller one.
    [handlePut] sets the timer of the re-merge of [defer] for
    [now + wait] when nothing is staged in [now]; when something is
    staged, the timer is set by the code that follows [check], for
    [t + wait] where [t] is the moment [check] has returned [true].  The
    timer runs [handlePut] on [defer], and a merge at or after [state]
    does not defer the field again. *)
Theorem deferral `{Collaborators} (opt : Options)
    (eligible : bool -> string -> Node -> string -> bool)
    (now : Z) (change : PutGraph) (msgid : string) (st : State)
    (soul : string) (node : Node) (sts : gmap string Z) (f : string) (v : GraphValue)
    (state : Z) :
  (forall t c g s l, Ham_mix t c g s l = Ham.mix eligible t c g s l) ->
  NoDup (souls change) ->
  (soul, Some node) ∈ change ->
  node_states node = Some sts -> sts !! f = Some state ->
  node_values node !! f = Some v ->
  let r := Ham_mix now change (graph st) (secure opt) (listen st) in
  (now + DAY < state ->
     set_aside r (graph st) soul f /\
     forall n, (soul, Some n) ∈ mix_defer r -> node_values n !! f = None) /\
  (eligible (secure opt) soul node f = true -> now < state <= now + DAY ->
     put_off r soul f v state /\
     set_aside r (graph st) soul f /\
     0 < mix_wait r <= state - now /\
     (exists soul' node' f' v', (soul', Some node') ∈ change /\
        node_values node' !! f' = Some v' /\
        field_verdict eligible now ∅ (secure opt) soul' node' f' v'
        = Deferred (mix_wait r)) /\
     (mix_now r = [] ->
        timers (handlePut opt change msgid now st)
        = timers st ++ [(now + mix_wait r, TDeferredPut (mix_defer r) msgid)]) /\
     (forall t st',
        last (timers (after_ok opt (AfterHandlePut r msgid) t st'))
        = Some (t + mix_wait r, TDeferredPut (mix_defer r) msgid)) /\
     (forall t st', fire opt (TDeferredPut (mix_defer r) msgid) t st'
                    = handlePut opt (mix_defer r) msgid t st') /\
     (forall t g n w, (soul, Some n) ∈ mix_defer r -> state <= t ->
        field_verdict eligible t g (secure opt) soul n f v <> Deferred w)).
Proof.
  intros Hmix Hnd Hin Hs Hf Hv r.
  assert (Er : r = Ham.mix eligible now change (graph st) (secure opt) (listen st))
    by apply Hmix.
  assert (Hdefer : forall n, (soul, Some n) ∈ mix_defer r ->
                     n = deferred eligible now ∅ (secure opt) soul node).
  { intros n Hn. rewrite Er in Hn. unfold mix in Hn. cbn [mix_defer] in Hn.
    apply HamFacts.mix_defer_fold in Hn as [Hn|(node' & Hin' & ->)].
    - cbn in Hn. apply elem_of_nil in Hn. done.
    - assert (E : Some node' = Some node) by (eapply HamFacts.NoDup_souls_unique; eauto).
      inversion E; subst. reflexivity. }
  split.
  - intros Hfar.
    assert (Hrej : forall g v', field_verdict eligible now g (secure opt) soul node f v'
                                = Reject).
    { intros g v'. eapply HamFacts.verdict_far; eauto. }
    split.
    + rewrite Er. apply HamFacts.set_aside_mix with (node := node); auto.
      intros g v' _. rewrite Hrej. discriminate.
    + intros n Hn. rewrite (Hdefer n Hn). apply HamFacts.not_deferred.
      intros v' _. rewrite Hrej. reflexivity.
  - intros Hel [Hlo Hhi].
    assert (Hdef : forall g v', field_verdict eligible now g (secure opt) soul node f v'
                                = Deferred (state - now)).
    { intros g v'. eapply HamFacts.verdict_near; eauto. }
    destruct (HamFacts.deferred_lookup eligible now (secure opt) ∅ soul node sts f v state
                Hs Hf Hv) as [Hdv Hds].
    { rewrite Hdef. reflexivity. }
    assert (Hmem : (soul, Some (deferred eligible now ∅ (secure opt) soul node))
                   ∈ mix_defer r).
    { rewrite Er. unfold mix. cbn [mix_defer].
      apply HamFacts.mix_defer_complete; [exact Hin|].
      intros E. rewrite E in Hdv. rewrite lookup_empty in Hdv. discriminate. }
    assert (Hne : mix_defer r <> []).
    { intros E. rewrite E in Hmem. apply elem_of_nil in Hmem. done. }
    pose proof (wait_ok_mix eligible now change (graph st) (secure opt) (listen st))
      as (Hw0 & Hwat & Hwmin).
    rewrite <- Er in Hw0, Hwat, Hwmin.
    pose proof (Hwmin soul node f v (state - now) Hin Hv (Hdef ∅ v)) as Hwle.
    split; [|split; [|split; [|split; [|split; [|split; [|split]]]]]].
    + exists (deferred eligible now ∅ (secure opt) soul node). auto.
    + rewrite Er. apply HamFacts.set_aside_mix with (node := node); auto.
      intros g v' _. rewrite Hdef. discriminate.
    + exact Hwle.
    + destruct Hwat as [E|Hex]; [lia|exact Hex].
    + intros Hnow. unfold handlePut. fold r. rewrite Hnow.
      destruct (mix_defer r) as [|e l] eqn:E; [done|]. reflexivity.
    + intros t st'. apply after_ok_deferred. exact Hne.
    + intros t st'. reflexivity.
    + intros t g n w Hn Ht Hd. rewrite (Hdefer n Hn) in Hd.
      apply HamFacts.verdict_deferred_inv in Hd
        as (sts' & state' & Hs' & Hf' & _ & Hlt & _).
      unfold deferred, select in Hs'. cbn [node_states] in Hs'.
      inversion Hs'; subst sts'.
      apply map_lookup_filter_Some in Hf' as [Hf' _].
      rewrite Hs in Hf'. cbn in Hf'. rewrite Hf in Hf'. inversion Hf'; subst. lia.
Qed.

(** The frame [put-mixed]: its field [later] is dated at 1050, and the
    frame arrives at 1000. *)
Lemma deferral_witness :
  put_off (@Ham_mix Scenarios.env 1000 [("s", Some Scenarios.mixed)]
             (@graph Scenarios.env Scenarios.cold) false
             (@listen Scenarios.env Scenarios.cold))
          "s" "later" (VString "soon") 1050.
Proof.
  apply (proj1 (proj2 (@deferral Scenarios.env Scenarios.server (fun _ _ _ _ => true) 1000
                         [("s", Some Scenarios.mixed)] "m3" Scenarios.cold
                         "s" Scenarios.mixed {[ "name" := 2; "later" := 1050 ]} "later"
                         (VString "soon") 1050
                         (fun _ _ _ _ _ => eq_refl)
                         ltac:(apply NoDup_singleton)
                         ltac:(apply list_elem_of_here)
                         eq_refl ltac:(vm_compute; reflexivity)
                         ltac:(vm_compute; reflexivity))
                      eq_refl ltac:(unfold DAY; lia))).
Defined.

(** Claim C4, as stated, fails: the frame [put-mixed] arrives at 1000
    with the field [name], which is due, and the field [later] dated at
    1050.  The merge defers [later] with [wait] = 50, but the re-merge is
    not set for 1050: no timer is set for it before [check] has returned,
    which it does when the GET of the public key times out at 1100, and
    the timer is then set for 1150. *)
Lemma deferral_counterexample :
  let st := Scenarios.cold in
  let r := @Ham_mix Scenarios.env 1000 [("s", Some Scenarios.mixed)]
             (@graph Scenarios.env st) false (@listen Scenarios.env st) in
  let st1 := @run Scenarios.env Scenarios.server [(1000, EvMessage "put-mixed" "c1")] st in
  let st2 := @run Scenarios.env Scenarios.server [(1100, EvTimer 0)] st1 in
  put_off r "s" "later" (VString "soon") 1050 /\ mix_wait r = 50 /\
  deferred_deadlines st1 = [] /\
  deferred_deadlines st2 = [1150] /\
  store_writes (@effects Scenarios.env st2) = [["s"]].
Proof.
  split.
  - exists (deferred (fun _ _ _ _ => true) 1000 ∅ false "s" Scenarios.mixed).
    split; [|split]; vm_compute; try reflexivity. left.
  - repeat split; vm_compute; reflexivity.
Qed.

End DeferClaim.

(* ===================================================================== *)
(** * Part IV: more of the code                                           *)
(* ===================================================================== *)

(** ** xor.ts *)

Module XORFacts.
Import XOR XORSpec.

Lemma value_bounds l : is_bytes l -> 0 <= value l < 256 ^ Z.of_nat (length l).
Proof.
  induction 1 as [|b l Hb _ IH]; simpl value; simpl length; [lia|].
  rewrite Nat2Z.inj_succ, Z.pow_succ_r by lia.
  assert (0 < 256 ^ Z.of_nat (length l)) by (apply Z.pow_pos_nonneg; lia).
  nia.
Qed.

(** The inner loop on a non-zero byte, by cases on the 255 bytes. *)
Lemma bitLoop_byte b : 1 <= b < 256 -> Z.of_nat (bitLoop 8 b 128) = 7 - Z.log2 b.
Proof.
  intros Hb.
  assert (Hall : forallb (fun n => Z.of_nat (bitLoop 8 (Z.of_nat n) 128)
                                   =? 7 - Z.log2 (Z.of_nat n)) (seq 1 255) = true)
    by (vm_compute; reflexivity).
  rewrite forallb_forall in Hall.
  specialize (Hall (Z.to_nat b)). rewrite Z2Nat.id in Hall by lia.
  apply Z.eqb_eq, Hall. apply in_seq. lia.
Qed.

Lemma log2_shift b n v :
  1 <= b -> 0 <= n -> 0 <= v < 2 ^ n -> Z.log2 (b * 2 ^ n + v) = Z.log2 b + n.
Proof.
  intros Hb Hn Hv.
  destruct (Z.log2_spec b) as [Hlo Hhi]; [lia|].
  assert (Hl : 0 <= Z.log2 b) by apply Z.log2_nonneg.
  assert (Hp : 0 < 2 ^ n) by (apply Z.pow_pos_nonneg; lia).
  apply Z.log2_unique; [lia|].
  replace (Z.succ (Z.log2 b + n)) with (Z.succ (Z.log2 b) + n) by lia.
  rewrite !Z.pow_add_r by lia.
  split; nia.
Qed.

Lemma pow_256 n : 256 ^ Z.of_nat n = 2 ^ (8 * Z.of_nat n).
Proof. rewrite Z.pow_mul_r by lia. reflexivity. Qed.

Lemma leadingZeros_bits (dist : list Z) :
  is_bytes dist ->
  Z.of_nat (leadingZeros dist) = 8 * Z.of_nat (length dist) - bits (value dist).
Proof.
  induction 1 as [|b l Hb Hl IH]; [reflexivity|].
  change (leadingZeros (b :: l))
    with (if b =? 0 then (8 + leadingZeros l)%nat else bitLoop 8 b 128).
  change (value (b :: l)) with (b * 256 ^ Z.of_nat (length l) + value l).
  change (length (b :: l)) with (S (length l)).
  destruct (b =? 0) eqn:E.
  - apply Z.eqb_eq in E. subst b. rewrite Z.mul_0_l, Z.add_0_l. lia.
  - apply Z.eqb_neq in E.
    rewrite bitLoop_byte by lia.
    pose proof (value_bounds l Hl) as Hv. rewrite pow_256 in Hv |- *.
    unfold bits.
    assert (Hp : 0 < 2 ^ (8 * Z.of_nat (length l))) by (apply Z.pow_pos_nonneg; lia).
    destruct (b * 2 ^ (8 * Z.of_nat (length l)) + value l =? 0) eqn:E0.
    + apply Z.eqb_eq in E0. nia.
    + rewrite log2_shift by lia. lia.
Qed.

(** [leadingZeros] counts the binary digits that are missing in front of
    the number the buffer holds. *)
Theorem leadingZeros_value (dist : list Z) :
  is_bytes dist ->
  Z.of_nat (leadingZeros dist) = 8 * Z.of_nat (length dist) - bits (value dist).
Proof. apply leadingZeros_bits. Qed.

Lemma leadingZeros_value_witness :
  Z.of_nat (leadingZeros [0; 0; 5; 200]) = 8 * 4 - bits (value [0; 0; 5; 200]).
Proof.
  apply (leadingZeros_value [0; 0; 5; 200]).
  repeat constructor; lia.
Defined.


(** *** The bucket of a peer *)

Lemma xorBuffers_comm a : forall b, xorBuffers a b = xorBuffers b a.
Proof.
  induction a as [|x a IH]; intros [|y b]; simpl; try reflexivity.
  rewrite Z.lxor_comm, IH. reflexivity.
Qed.

Lemma xorBuffers_length a : forall b, length a = length b ->
  length (xorBuffers a b) = length a.
Proof.
  induction a as [|x a IH]; intros [|y b] Hl; simpl in *; try congruence.
  rewrite IH; congruence.
Qed.

Lemma lxor_byte x y : 0 <= x < 256 -> 0 <= y < 256 -> 0 <= Z.lxor x y < 256.
Proof.
  intros Hx Hy.
  assert (H0 : 0 <= Z.lxor x y) by (apply Z.lxor_nonneg; lia).
  split; [exact H0|].
  destruct (Z.eq_dec (Z.lxor x y) 0) as [E|E]; [lia|].
  change 256 with (2 ^ 8). apply Z.log2_lt_pow2; [lia|].
  pose proof (Z.log2_lxor x y ltac:(lia) ltac:(lia)) as Hl.
  assert (Hbx : Z.log2 x < 8).
  { destruct (Z.eq_dec x 0) as [->|]; [simpl; lia|]. apply Z.log2_lt_pow2; lia. }
  assert (Hby : Z.log2 y < 8).
  { destruct (Z.eq_dec y 0) as [->|]; [simpl; lia|]. apply Z.log2_lt_pow2; lia. }
  lia.
Qed.

Lemma xorBuffers_bytes a : forall b, is_bytes a -> is_bytes b -> is_bytes (xorBuffers a b).
Proof.
  unfold is_bytes.
  induction a as [|x a IH]; intros [|y b] Ha Hb; simpl; try constructor.
  - inversion Ha; inversion Hb; subst. apply lxor_byte; assumption.
  - inversion Ha; inversion Hb; subst. apply IH; assumption.
Qed.

Lemma value_zero l : is_bytes l -> (value l = 0 <-> Forall (fun b => b = 0) l).
Proof.
  induction 1 as [|b l Hb Hl IH]; simpl value.
  - split; [constructor|reflexivity].
  - pose proof (value_bounds l Hl) as Hv.
    assert (Hp : 0 < 256 ^ Z.of_nat (length l)) by (apply Z.pow_pos_nonneg; lia).
    split.
    + intros E. assert (b = 0) by nia. subst b. constructor; [reflexivity|].
      apply IH. lia.
    + intros Hz. inversion Hz; subst. apply IH in H2. lia.
Qed.

Lemma xorBuffers_zero a : forall b, length a = length b ->
  (Forall (fun x => x = 0) (xorBuffers a b) <-> a = b).
Proof.
  induction a as [|x a IH]; intros [|y b] Hl; simpl in *; try congruence.
  - split; [reflexivity|constructor].
  - split.
    + intros Hz. inversion Hz as [|? ? Hx Ht]; subst.
      apply Z.lxor_eq in Hx. subst. f_equal. apply IH; [congruence|exact Ht].
    + intros E. inversion E; subst. constructor; [apply Z.lxor_nilpotent|].
      apply IH; [congruence|reflexivity].
Qed.

Lemma bits_nonneg n : 0 <= bits n.
Proof. unfold bits. destruct (n =? 0); [lia|]. pose proof (Z.log2_nonneg n). lia. Qed.

Lemma bits_zero n : bits n = 0 <-> n = 0.
Proof.
  unfold bits. destruct (n =? 0) eqn:E.
  - apply Z.eqb_eq in E. tauto.
  - apply Z.eqb_neq in E. pose proof (Z.log2_nonneg n). split; lia.
Qed.

(** The bucket of a peer does not depend on who asks, is at most the
    number of bits of a hash, and is that number exactly for the ids that
    hash like the id of the table. *)
Theorem bucketIndex_range (sha256 : string -> list Z) (a b : string) :
  is_bytes (sha256 a) -> is_bytes (sha256 b) ->
  length (sha256 a) = length (sha256 b) ->
  bucketIndex sha256 a b = bucketIndex sha256 b a /\
  (bucketIndex sha256 a b <= 8 * length (sha256 a))%nat /\
  (bucketIndex sha256 a b = (8 * length (sha256 a))%nat <-> sha256 a = sha256 b).
Proof.
  intros Ha Hb Hl. unfold bucketIndex, distance, toHash.
  split; [rewrite xorBuffers_comm; reflexivity|].
  pose proof (leadingZeros_bits _ (xorBuffers_bytes _ _ Ha Hb)) as Hv.
  rewrite (xorBuffers_length _ _ Hl) in Hv.
  pose proof (bits_nonneg (value (xorBuffers (sha256 a) (sha256 b)))) as Hn.
  split; [lia|].
  rewrite <- (xorBuffers_zero _ _ Hl), <- (value_zero _ (xorBuffers_bytes _ _ Ha Hb)).
  rewrite <- bits_zero. lia.
Qed.

Lemma bucketIndex_range_witness :
  bucketIndex Reference.codes "ab" "ab" = (8 * length (Reference.codes "ab"))%nat.
Proof.
  apply (proj2 (proj2 (bucketIndex_range Reference.codes "ab" "ab"
                         ltac:(repeat constructor; lia) ltac:(repeat constructor; lia)
                         eq_refl))).
  reflexivity.
Defined.

(** *** The order on distances *)

Lemma compareDistance_opp a : forall b, compareDistance a b = - compareDistance b a.
Proof.
  induction a as [|x a IH]; intros [|y b]; simpl; try reflexivity.
  destruct (x <? y) eqn:E1, (y <? x) eqn:E2; try reflexivity.
  - apply Z.ltb_lt in E1. apply Z.ltb_lt in E2. lia.
  - apply IH.
Qed.

Lemma compareDistance_eq a : forall b, compareDistance a b = 0 <-> a = b.
Proof.
  induction a as [|x a IH]; intros [|y b]; simpl; try (split; [lia|congruence]).
  - tauto.
  - destruct (x <? y) eqn:E1; [apply Z.ltb_lt in E1; split; [lia|intros E; inversion E; lia]|].
    destruct (y <? x) eqn:E2; [apply Z.ltb_lt in E2; split; [lia|intros E; inversion E; lia]|].
    apply Z.ltb_ge in E1. apply Z.ltb_ge in E2. assert (x = y) by lia. subst.
    rewrite IH. split; [congruence|]. intros E; inversion E; reflexivity.
Qed.

Lemma compareDistance_range a : forall b,
  compareDistance a b = -1 \/ compareDistance a b = 0 \/ compareDistance a b = 1.
Proof.
  induction a as [|x a IH]; intros [|y b]; simpl; auto.
  destruct (x <? y); [auto|]. destruct (y <? x); auto.
Qed.

Lemma compareDistance_trans a : forall b c,
  compareDistance a b <= 0 -> compareDistance b c <= 0 -> compareDistance a c <= 0.
Proof.
  induction a as [|x a IH]; intros [|y b] [|z c]; simpl; try lia.
  destruct (x <? y) eqn:E1, (y <? x) eqn:E2, (y <? z) eqn:E3, (z <? y) eqn:E4,
           (x <? z) eqn:E5, (z <? x) eqn:E6;
    rewrite ?Z.ltb_lt, ?Z.ltb_ge in *; try lia.
  apply IH.
Qed.

Lemma compareDistance_strict_trans a b c :
  compareDistance a b < 0 -> compareDistance b c < 0 -> compareDistance a c < 0.
Proof.
  intros H1 H2.
  assert (H3 : compareDistance a c <= 0) by (eapply compareDistance_trans; [|apply Z.lt_le_incl, H2]; lia).
  destruct (Z.eq_dec (compareDistance a c) 0) as [E|E]; [|lia].
  apply compareDistance_eq in E. subst c.
  rewrite (compareDistance_opp b a) in H2. lia.
Qed.

(** [compareDistance] is a comparator of a total order: it answers -1, 0
    or 1, 0 for equal buffers only, the opposite when its arguments are
    exchanged, and it is transitive. *)
Theorem compareDistance_order (a b c : list Z) :
  (compareDistance a b = -1 \/ compareDistance a b = 0 \/ compareDistance a b = 1) /\
  (compareDistance a b = 0 <-> a = b) /\
  compareDistance a b = - compareDistance b a /\
  (compareDistance a b <= 0 -> compareDistance b c <= 0 -> compareDistance a c <= 0).
Proof.
  split; [apply compareDistance_range|]. split; [apply compareDistance_eq|].
  split; [apply compareDistance_opp|apply compareDistance_trans].
Qed.

(** On buffers of one length [compareDistance] compares the numbers they
    hold. *)
Theorem compareDistance_value (a : list Z) : forall b : list Z,
  is_bytes a -> is_bytes b -> length a = length b ->
  compareDistance a b = Z.sgn (value a - value b).
Proof.
  induction a as [|x a IH]; intros [|y b] Ha Hb Hl; simpl in Hl; try congruence.
  - reflexivity.
  - inversion Ha as [|? ? Hx Ha']; inversion Hb as [|? ? Hy Hb']; subst.
    assert (Hl' : length a = length b) by congruence.
    change (compareDistance (x :: a) (y :: b))
      with (if x <? y then -1 else if y <? x then 1 else compareDistance a b).
    change (value (x :: a)) with (x * 256 ^ Z.of_nat (length a) + value a).
    change (value (y :: b)) with (y * 256 ^ Z.of_nat (length b) + value b).
    rewrite <- Hl'.
    pose proof (value_bounds a Ha') as Hva. pose proof (value_bounds b Hb') as Hvb.
    rewrite <- Hl' in Hvb.
    assert (Hp : 0 < 256 ^ Z.of_nat (length a)) by (apply Z.pow_pos_nonneg; lia).
    destruct (x <? y) eqn:E1.
    + apply Z.ltb_lt in E1. symmetry. apply Z.sgn_neg. nia.
    + destruct (y <? x) eqn:E2.
      * apply Z.ltb_lt in E2. symmetry. apply Z.sgn_pos. nia.
      * apply Z.ltb_ge in E1. apply Z.ltb_ge in E2. assert (x = y) by lia. subst y.
        rewrite (IH b Ha' Hb' Hl'). f_equal. lia.
Qed.

Lemma compareDistance_value_witness :
  compareDistance [1; 255] [2; 0] = Z.sgn (value [1; 255] - value [2; 0]).
Proof.
  apply (compareDistance_value [1; 255] [2; 0]).
  - repeat constructor; lia.
  - repeat constructor; lia.
  - reflexivity.
Defined.

End XORFacts.

Module ClosestFacts.
Import XOR XORSpec.

Lemma in_take {A} (x : A) k l : x ∈ take k l -> x ∈ l.
Proof.
  intros H. apply list_elem_of_lookup in H as [i Hi].
  apply lookup_take_Some in Hi as [Hi _]. eapply list_elem_of_lookup_2, Hi.
Qed.

Lemma in_drop {A} (x : A) k l : x ∈ drop k l -> x ∈ l.
Proof.
  intros H. apply list_elem_of_lookup in H as [i Hi].
  rewrite lookup_drop in Hi. eapply list_elem_of_lookup_2, Hi.
Qed.

Section Sort.
Context {A : Type}.
Variable cmp : A -> A -> Z.
Hypothesis cmp_total : forall x y, cmp x y <= 0 \/ cmp y x <= 0.
Hypothesis cmp_trans : forall x y z, cmp x y <= 0 -> cmp y z <= 0 -> cmp x z <= 0.

Local Abbreviation le := (fun x y => cmp x y <= 0).

Lemma insert_sorted_perm x l : Permutation (insert_sorted cmp x l) (x :: l).
Proof.
  induction l as [|y l IH]; simpl; [reflexivity|].
  destruct (cmp x y <=? 0); [reflexivity|].
  rewrite IH. apply perm_swap.
Qed.

Lemma sort_perm l : Permutation (sort cmp l) l.
Proof.
  induction l as [|x l IH]; simpl; [reflexivity|].
  rewrite insert_sorted_perm. constructor. exact IH.
Qed.

Lemma insert_sorted_sorted x l :
  StronglySorted le l -> StronglySorted le (insert_sorted cmp x l).
Proof.
  induction 1 as [|y l Hs IH Hy]; simpl; [repeat constructor|].
  destruct (cmp x y <=? 0) eqn:E.
  - apply Z.leb_le in E. constructor; [constructor; assumption|].
    constructor; [exact E|]. eapply Forall_impl; [exact Hy|].
    intros z Hz. simpl in *. eapply cmp_trans; eassumption.
  - apply Z.leb_gt in E. constructor; [exact IH|].
    rewrite insert_sorted_perm. constructor; [|exact Hy].
    destruct (cmp_total x y); [lia|assumption].
Qed.

Lemma sort_sorted l : StronglySorted le (sort cmp l).
Proof.
  induction l as [|x l IH]; simpl; [constructor|].
  apply insert_sorted_sorted, IH.
Qed.

Lemma sorted_take_drop k l x y :
  StronglySorted le l -> x ∈ take k l -> y ∈ drop k l -> cmp x y <= 0.
Proof.
  intros Hs. revert k. induction Hs as [|z l Hs IH Hz]; intros k Hx Hy.
  - rewrite take_nil in Hx. apply elem_of_nil in Hx. done.
  - destruct k as [|k]; simpl in *; [apply elem_of_nil in Hx; done|].
    apply elem_of_cons in Hx as [->|Hx].
    + rewrite Forall_forall in Hz. apply Hz. eapply in_drop, Hy.
    + eapply IH; eassumption.
Qed.

Lemma sorted_take k l : StronglySorted le l -> StronglySorted le (take k l).
Proof.
  intros Hs. revert k. induction Hs as [|z l Hs IH Hz]; intros [|k]; simpl; try constructor.
  - apply IH.
  - apply Forall_forall. intros y Hy. rewrite Forall_forall in Hz.
    apply Hz. eapply in_take, Hy.
Qed.

End Sort.

Section Hashed.
Variable sha256 : string -> list Z.
Variable targetId : string.

Local Abbreviation dist := (to_target sha256 targetId).
Local Abbreviation cmp := (fun a b : string * list Z => compareDistance (snd a) (snd b)).
Local Abbreviation pairs ids := (map (fun peerId => (peerId, dist peerId)) ids).

Lemma cmp_total (x y : string * list Z) : cmp x y <= 0 \/ cmp y x <= 0.
Proof. simpl. rewrite (XORFacts.compareDistance_opp (snd y)). lia. Qed.

Lemma cmp_trans (x y z : string * list Z) : cmp x y <= 0 -> cmp y z <= 0 -> cmp x z <= 0.
Proof. apply XORFacts.compareDistance_trans. Qed.

Lemma sorted_pairs ids e : e ∈ sort cmp (pairs ids) -> snd e = dist (fst e).
Proof.
  intros He. rewrite (sort_perm cmp) in He.
  apply list_elem_of_fmap in He as (i & -> & _). reflexivity.
Qed.

Lemma sorted_fst (l : list (string * list Z)) :
  (forall e, e ∈ l -> snd e = dist (fst e)) ->
  StronglySorted (fun a b => cmp a b <= 0) l ->
  StronglySorted (not_farther sha256 targetId) (map fst l).
Proof.
  intros Hd Hs. induction Hs as [|z l Hs IH Hz]; simpl; constructor.
  - apply IH. intros e He. apply Hd. right. exact He.
  - apply Forall_forall. intros y Hy. rewrite Forall_forall in Hz.
    apply list_elem_of_fmap in Hy as (e & -> & He).
    unfold not_farther. rewrite <- (Hd z), <- (Hd e); [apply Hz, He|right; exact He|left].
Qed.

Lemma findKClosest_facts (peerIds : list string) (k : nat) :
  let found := findKClosest sha256 targetId peerIds k in
  length found = Nat.min k (length peerIds) /\
  StronglySorted (not_farther sha256 targetId) found /\
  exists rest, Permutation peerIds (found ++ rest) /\
    forall a b, a ∈ found -> b ∈ rest -> not_farther sha256 targetId a b.
Proof.
  intros found.
  assert (Ef : found = map fst (take k (sort cmp (pairs peerIds)))) by reflexivity.
  clearbody found. subst found.
  assert (Hperm : Permutation (sort cmp (pairs peerIds)) (pairs peerIds)) by apply sort_perm.
  assert (Hsort : StronglySorted (fun a b => cmp a b <= 0) (sort cmp (pairs peerIds)))
    by (apply sort_sorted; [apply cmp_total|apply cmp_trans]).
  assert (Hd : forall e, e ∈ sort cmp (pairs peerIds) -> snd e = dist (fst e))
    by apply sorted_pairs.
  remember (sort cmp (pairs peerIds)) as sorted eqn:Es. clear Es.
  split; [|split].
  - rewrite length_map, length_take.
    rewrite (Permutation_length Hperm), length_map. reflexivity.
  - apply sorted_fst.
    + intros e He. apply Hd. eapply in_take, He.
    + apply sorted_take, Hsort.
  - exists (map fst (drop k sorted)). split.
    + rewrite <- map_app, take_drop, Hperm.
      rewrite map_map. simpl. rewrite map_id. reflexivity.
    + intros a b Ha Hb.
      apply list_elem_of_fmap in Ha as (ea & -> & Ha).
      apply list_elem_of_fmap in Hb as (eb & -> & Hb).
      unfold not_farther. rewrite <- (Hd ea), <- (Hd eb).
      * eapply (sorted_take_drop cmp); eauto.
      * eapply in_drop, Hb.
      * eapply in_take, Ha.
Qed.

(** [findKClosest] returns [k] of the given ids, or all of them when there
    are fewer: the ids it leaves out make up the given list together with
    the ones it returns, the ids returned are in the order of their
    distance to the target, and none left out is closer to the target
    than one returned. *)
Theorem findKClosest_closest (peerIds : list string) (k : nat) :
  let found := findKClosest sha256 targetId peerIds k in
  length found = Nat.min k (length peerIds) /\
  StronglySorted (not_farther sha256 targetId) found /\
  exists rest, Permutation peerIds (found ++ rest) /\
    forall a b, a ∈ found -> b ∈ rest -> not_farther sha256 targetId a b.
Proof. apply findKClosest_facts. Qed.

(** [isCloser] is a strict order on the ids, and [filterCloser] keeps, in
    their order, exactly the ids that are closer to the target than
    [myPeerId]: never [myPeerId] itself, and never an id that some id it
    keeps is farther than. *)
Theorem filterCloser_progress (myPeerId : string) (peerIds : list string) :
  (forall a, isCloser sha256 a a targetId = false) /\
  (forall a b, isCloser sha256 a b targetId = true -> isCloser sha256 b a targetId = false) /\
  (forall a b c, isCloser sha256 a b targetId = true -> isCloser sha256 b c targetId = true ->
     isCloser sha256 a c targetId = true) /\
  filterCloser sha256 myPeerId targetId peerIds
    = List.filter (fun p => isCloser sha256 p myPeerId targetId) peerIds /\
  myPeerId ∉ filterCloser sha256 myPeerId targetId peerIds.
Proof.
  assert (Hirr : forall a, isCloser sha256 a a targetId = false).
  { intros a. unfold isCloser. apply Z.ltb_ge.
    rewrite (proj2 (XORFacts.compareDistance_eq _ _) eq_refl). lia. }
  split; [exact Hirr|]. split; [|split; [|split]].
  - intros a b. unfold isCloser. rewrite Z.ltb_lt, Z.ltb_ge.
    rewrite (XORFacts.compareDistance_opp (xorBuffers (toHash sha256 b) _)). lia.
  - intros a b c. unfold isCloser. rewrite !Z.ltb_lt.
    apply XORFacts.compareDistance_strict_trans.
  - reflexivity.
  - intros Hin. apply list_elem_of_In, filter_In in Hin as [_ Hc].
    change (isCloser sha256 myPeerId myPeerId targetId = true) in Hc.
    rewrite Hirr in Hc. discriminate.
Qed.

End Hashed.
End ClosestFacts.

(** ** fingertable.ts *)

Module TableFacts.
Import FingerTable FingerTableSpec WalkSpec.

Section Table.
Variable sha256 : string -> list Z.
Variable selfId : string.

Local Abbreviation idx := (XOR.bucketIndex sha256 selfId).
Local Abbreviation Inv := (FingerTableSpec.Inv sha256 selfId).
Local Abbreviation addPeer := (FingerTable.addPeer sha256 selfId).
Local Abbreviation removePeer := (FingerTable.removePeer sha256 selfId).

Lemma reachable_Inv ft : reachable sha256 selfId ft -> Inv ft.
Proof.
  intros [calls ->]. apply FingerTableFacts.run_calls_Inv, FingerTableFacts.ft_Inv_empty.
Qed.

Lemma addPeer_self_absent p ft :
  peerMap ft !! selfId = None -> peerMap (snd (addPeer p ft)) !! selfId = None.
Proof.
  intros Hs. unfold FingerTable.addPeer.
  destruct (String.eqb (peer_id p) selfId) eqn:E; [exact Hs|].
  apply String.eqb_neq in E.
  set (ft1 := match peerMap ft !! peer_id p with
              | Some _ => FingerTable.removePeer sha256 selfId (peer_id p) ft
              | None => ft end).
  assert (H1 : peerMap ft1 !! selfId = None).
  { subst ft1. destruct (peerMap ft !! peer_id p); [|exact Hs].
    rewrite FingerTableFacts.removePeer_peerMap. rewrite lookup_delete_ne by done. exact Hs. }
  cbv zeta. destruct (_ <=? _)%nat; cbn [snd peerMap]; [exact H1|].
  rewrite lookup_insert_ne by done. exact H1.
Qed.

Lemma reachable_self ft : reachable sha256 selfId ft -> peerMap ft !! selfId = None.
Proof.
  intros [calls ->]. unfold run_calls.
  assert (H0 : peerMap empty !! selfId = None) by apply lookup_empty.
  revert H0. generalize empty. induction calls as [|c calls IH]; intros ft H0; [exact H0|].
  simpl. apply IH. destruct c as [p|i]; simpl.
  - apply addPeer_self_absent, H0.
  - rewrite FingerTableFacts.removePeer_peerMap.
    destruct (decide (i = selfId)) as [->|Hne];
      [apply lookup_delete_eq|rewrite lookup_delete_ne by done; exact H0].
Qed.

Lemma bucket_ids_known ft k b i :
  Inv ft -> buckets ft !! k = Some b -> peerMap ft !! i = None ->
  Forall (fun y => String.eqb (peer_id y) i = false) b.
Proof.
  intros HI Hb Hi. apply Forall_forall. intros y Hy.
  apply String.eqb_neq. intros E.
  destruct (inv_bucket _ _ _ HI k b Hb) as (_ & _ & _ & Hp).
  destruct (Hp y Hy) as [_ Hy']. rewrite E in Hy'. congruence.
Qed.

Lemma findIndex_last {A} (f : A -> bool) (b : list A) (p : A) :
  Forall (fun y => f y = false) b -> f p = true ->
  findIndex f (b ++ [p]) = Some (length b) /\ splice1 (length b) (b ++ [p]) = b.
Proof.
  intros Hb Hp. split.
  - induction Hb as [|y b Hy _ IH]; simpl; [rewrite Hp; reflexivity|].
    rewrite Hy, IH. reflexivity.
  - unfold splice1. rewrite take_app_length.
    rewrite drop_app_ge by lia.
    replace (S (length b) - length b)%nat with 1%nat by lia. simpl. apply app_nil_r.
Qed.

Lemma occurrences_absent i (b : list Peer) :
  (forall p, p ∈ b -> peer_id p <> i) -> occurrences i b = 0%nat.
Proof.
  intros Hb. unfold occurrences. induction b as [|y b IH]; [reflexivity|].
  rewrite filter_cons. destruct (decide (peer_id y = i)) as [E|E].
  - exfalso. eapply Hb; [left|exact E].
  - apply IH. intros p Hp. apply Hb. right. exact Hp.
Qed.

Lemma removePeer_facts ft i :
  Inv ft ->
  let ft' := removePeer i ft in
  getPeer i ft' = None /\
  (forall j, j <> i -> getPeer j ft' = getPeer j ft) /\
  (forall k b, buckets ft' !! k = Some b -> occurrences i b = 0%nat) /\
  (count ft' + (if decide (is_Some (getPeer i ft)) then 1 else 0) = count ft)%nat /\
  (getPeer i ft = None -> ft' = ft).
Proof.
  intros HI ft'.
  assert (HI' : Inv ft') by apply FingerTableFacts.removePeer_Inv, HI.
  assert (Hpm : peerMap ft' = delete i (peerMap ft))
    by apply FingerTableFacts.removePeer_peerMap.
  unfold getPeer, count. rewrite Hpm.
  split; [apply lookup_delete_eq|]. split; [intros j Hj; apply lookup_delete_ne; congruence|].
  split; [|split].
  - intros k b Hb. apply occurrences_absent. intros p Hp E.
    destruct (inv_bucket _ _ _ HI' k b Hb) as (_ & _ & _ & Hq).
    destruct (Hq p Hp) as [_ Hq']. rewrite Hpm, E, lookup_delete_eq in Hq'. discriminate.
  - destruct (decide (is_Some (peerMap ft !! i))) as [[p Hp]|Hn].
    + rewrite (map_size_delete_Some i (peerMap ft)) by eauto.
      assert (size (peerMap ft) <> 0%nat).
      { intros E. apply map_size_empty_iff in E. rewrite E, lookup_empty in Hp. discriminate. }
      lia.
    + rewrite delete_id; [lia|]. apply eq_None_not_Some, Hn.
  - intros Hn. apply FingerTableFacts.removePeer_absent, Hn.
Qed.


Lemma addPeer_true p ft :
  Inv ft -> peerMap ft !! peer_id p = None -> fst (addPeer p ft) = true ->
  peer_id p <> selfId /\
  (length (default [] (buckets ft !! idx (peer_id p))) < K_BUCKET_SIZE)%nat.
Proof.
  intros HI Hn Ht.
  destruct (decide (peer_id p = selfId)) as [E|E].
  { rewrite FingerTableFacts.addPeer_self in Ht by exact E. discriminate. }
  split; [exact E|].
  destruct (buckets ft !! idx (peer_id p)) as [b|] eqn:Hb; [|simpl; unfold K_BUCKET_SIZE; lia].
  simpl. destruct (le_lt_dec K_BUCKET_SIZE (length b)) as [Hfull|Hroom]; [|exact Hroom].
  rewrite (FingerTableFacts.addPeer_full sha256 selfId p ft b E Hn Hb Hfull) in Ht.
  discriminate.
Qed.

Lemma addPeer_removePeer_Inv p ft :
  Inv ft -> peerMap ft !! peer_id p = None -> fst (addPeer p ft) = true ->
  removePeer (peer_id p) (snd (addPeer p ft)) = ft.
Proof.
  intros HI Hn Ht. destruct (addPeer_true p ft HI Hn Ht) as [Hs Hroom].
  rewrite (FingerTableFacts.addPeer_room sha256 selfId p ft Hs Hn Hroom). cbn [snd].
  unfold FingerTable.removePeer. cbn [peerMap buckets].
  rewrite lookup_insert_eq, lookup_insert_eq.
  assert (Hp : String.eqb (peer_id p) (peer_id p) = true) by apply String.eqb_refl.
  destruct (buckets ft !! idx (peer_id p)) as [b|] eqn:Hb; cbn [default from_option id].
  - pose proof (bucket_ids_known ft _ b (peer_id p) HI Hb Hn) as Hk.
    destruct (findIndex_last (fun q => String.eqb (peer_id q) (peer_id p)) b p Hk Hp)
      as [Hf Hsp].
    rewrite Hf, Hsp.
    destruct (inv_bucket _ _ _ HI _ b Hb) as (Hne & _).
    destruct b as [|y b']; [done|]. cbn [length Nat.eqb].
    rewrite insert_insert_eq, (insert_id _ _ _ Hb), delete_insert_id by exact Hn.
    apply FingerTableFacts.t_eta.
  - cbn [app findIndex]. rewrite Hp. cbn [splice1 take drop app length Nat.eqb].
    rewrite delete_insert_id by exact Hb. rewrite delete_insert_id by exact Hn.
    apply FingerTableFacts.t_eta.
Qed.


Lemma removePeer_room ft i p :
  Inv ft -> peerMap ft !! i = Some p ->
  (length (default [] (buckets (removePeer i ft) !! idx i)) < K_BUCKET_SIZE)%nat.
Proof.
  intros HI Hp. unfold FingerTable.removePeer. rewrite Hp. cbn [buckets].
  destruct (inv_stored _ _ _ HI i p Hp) as (b & Hb & Hin). rewrite Hb.
  destruct (inv_bucket _ _ _ HI _ b Hb) as (_ & Hlen & _ & _).
  assert (Hkey : peer_id p = i) by (eapply inv_key; eauto).
  destruct (findIndex (fun q => String.eqb (peer_id q) i) b) as [n|] eqn:Hf.
  - destruct (FingerTableFacts.findIndex_Some _ _ _ Hf) as (l1 & x & l2 & -> & _ & _ & Hsp).
    rewrite Hsp. rewrite length_app in Hlen. simpl in Hlen.
    destruct (length (l1 ++ l2) =? 0)%nat eqn:E.
    + rewrite lookup_delete_eq. simpl. unfold K_BUCKET_SIZE. lia.
    + rewrite lookup_insert_eq. cbn [default from_option id]. rewrite length_app. lia.
  - exfalso. apply FingerTableFacts.findIndex_None in Hf.
    rewrite Forall_forall in Hf. specialize (Hf p Hin).
    rewrite Hkey, String.eqb_refl in Hf. discriminate.
Qed.

Lemma addPeer_again_Inv ft peer old :
  Inv ft -> peerMap ft !! selfId = None ->
  getPeer (peer_id peer) ft = Some old ->
  fst (addPeer peer ft) = true /\
  getPeer (peer_id peer) (snd (addPeer peer ft)) = Some peer /\
  count (snd (addPeer peer ft)) = count ft /\
  (forall j, j <> peer_id peer -> getPeer j (snd (addPeer peer ft)) = getPeer j ft) /\
  exists b, buckets (snd (addPeer peer ft)) !! idx (peer_id peer) = Some b /\
            last b = Some peer.
Proof.
  intros HI Hself Hold. unfold getPeer in Hold.
  assert (Hs : peer_id peer <> selfId) by (intros E; rewrite E in Hold; congruence).
  rewrite (FingerTableFacts.addPeer_present sha256 selfId peer ft Hs) by eauto.
  set (ft1 := removePeer (peer_id peer) ft).
  assert (Hpm : peerMap ft1 = delete (peer_id peer) (peerMap ft))
    by apply FingerTableFacts.removePeer_peerMap.
  assert (Hn : peerMap ft1 !! peer_id peer = None) by (rewrite Hpm; apply lookup_delete_eq).
  pose proof (removePeer_room ft _ old HI Hold) as Hroom. fold ft1 in Hroom.
  rewrite (FingerTableFacts.addPeer_room sha256 selfId peer ft1 Hs Hn Hroom).
  cbn [fst snd]. unfold getPeer, count. cbn [peerMap buckets].
  split; [reflexivity|]. split; [apply lookup_insert_eq|]. split; [|split].
  - rewrite map_size_insert_None by exact Hn. rewrite Hpm.
    rewrite (map_size_delete_Some (peer_id peer) (peerMap ft)) by eauto.
    assert (size (peerMap ft) <> 0%nat); [|lia].
    intros E. apply map_size_empty_iff in E. rewrite E, lookup_empty in Hold. discriminate.
  - intros j Hj. rewrite lookup_insert_ne by congruence. rewrite Hpm.
    apply lookup_delete_ne. congruence.
  - eexists. split; [apply lookup_insert_eq|apply last_snoc].
Qed.

(** A known id can always be added again: the call answers [true], the
    id is mapped to the new peer, which is the last of its bucket, [count]
    is unchanged and every other id answers as before. *)
Theorem addPeer_again (calls : list call) (peer old : Peer) :
  let ft := run_calls sha256 selfId calls empty in
  getPeer (peer_id peer) ft = Some old ->
  fst (addPeer peer ft) = true /\
  getPeer (peer_id peer) (snd (addPeer peer ft)) = Some peer /\
  count (snd (addPeer peer ft)) = count ft /\
  (forall j, j <> peer_id peer -> getPeer j (snd (addPeer peer ft)) = getPeer j ft) /\
  exists b, buckets (snd (addPeer peer ft)) !! idx (peer_id peer) = Some b /\
            last b = Some peer.
Proof.
  intros ft. assert (Hr : reachable sha256 selfId ft) by (exists calls; reflexivity).
  apply addPeer_again_Inv; [apply reachable_Inv, Hr|apply reachable_self, Hr].
Qed.

Lemma addPeer_refused_Inv ft peer :
  Inv ft -> peerMap ft !! selfId = None ->
  fst (addPeer peer ft) = false ->
  snd (addPeer peer ft) = ft /\
  (peer_id peer = selfId \/
   (getPeer (peer_id peer) ft = None /\
    exists b, buckets ft !! idx (peer_id peer) = Some b /\ length b = K_BUCKET_SIZE)).
Proof.
  intros HI Hself Hf.
  destruct (decide (peer_id peer = selfId)) as [E|E].
  { rewrite FingerTableFacts.addPeer_self by exact E. auto. }
  destruct (peerMap ft !! peer_id peer) as [old|] eqn:Hold.
  { destruct (addPeer_again_Inv ft peer old HI Hself Hold) as [Ht _]. congruence. }
  destruct (le_lt_dec K_BUCKET_SIZE (length (default [] (buckets ft !! idx (peer_id peer)))))
    as [Hfull|Hroom].
  - destruct (buckets ft !! idx (peer_id peer)) as [b|] eqn:Hb;
      [|simpl in Hfull; unfold K_BUCKET_SIZE in Hfull; lia].
    cbn [default from_option id] in Hfull.
    rewrite (FingerTableFacts.addPeer_full sha256 selfId peer ft b E Hold Hb Hfull).
    split; [reflexivity|]. right. split; [exact Hold|]. exists b. split; [reflexivity|].
    destruct (inv_bucket _ _ _ HI _ b Hb) as (_ & Hlen & _). lia.
  - rewrite (FingerTableFacts.addPeer_room sha256 selfId peer ft E Hold Hroom) in Hf.
    discriminate.
Qed.

(** [addPeer] answers [false] only for the id of the table itself, or for
    an unknown id whose bucket holds 20 peers; the table is then exactly
    as it was. *)
Theorem addPeer_refused (calls : list call) (peer : Peer) :
  let ft := run_calls sha256 selfId calls empty in
  fst (addPeer peer ft) = false ->
  snd (addPeer peer ft) = ft /\
  (peer_id peer = selfId \/
   (getPeer (peer_id peer) ft = None /\
    exists b, buckets ft !! idx (peer_id peer) = Some b /\ length b = K_BUCKET_SIZE)).
Proof.
  intros ft. assert (Hr : reachable sha256 selfId ft) by (exists calls; reflexivity).
  apply addPeer_refused_Inv; [apply reachable_Inv, Hr|apply reachable_self, Hr].
Qed.

End Table.


Lemma addPeer_again_witness :
  getPeer "alice"
    (snd (addPeer Reference.codes "self" {| peer_id := "alice"; peer_send := "c9" |}
            (run_calls Reference.codes "self"
               [AddPeer {| peer_id := "alice"; peer_send := "c1" |}] empty)))
  = Some {| peer_id := "alice"; peer_send := "c9" |}.
Proof.
  apply (proj1 (proj2 (addPeer_again Reference.codes "self"
                         [AddPeer {| peer_id := "alice"; peer_send := "c1" |}]
                         {| peer_id := "alice"; peer_send := "c9" |}
                         {| peer_id := "alice"; peer_send := "c1" |}
                         ltac:(vm_compute; reflexivity)))).
Defined.

Lemma addPeer_refused_witness :
  snd (addPeer Reference.codes "self" {| peer_id := "self"; peer_send := "c1" |}
         (run_calls Reference.codes "self" [] empty))
  = run_calls Reference.codes "self" [] empty.
Proof.
  apply (proj1 (addPeer_refused Reference.codes "self" []
                  {| peer_id := "self"; peer_send := "c1" |} eq_refl)).
Defined.

End TableFacts.

(** ** findClosestPeers and routedSend *)

Module RoutingFacts.
Import FingerTable FingerTableSpec WalkSpec XORSpec.

Lemma by_key_Enumerates : Enumerates by_key.
Proof.
  intros m. unfold by_key. split; [apply NoDup_fst_map_to_list|].
  intros i. rewrite list_elem_of_fmap. split.
  - intros ([k p] & -> & Hin). apply elem_of_map_to_list in Hin. eauto.
  - intros [p Hp]. exists (i, p). split; [reflexivity|]. apply elem_of_map_to_list, Hp.
Qed.

Lemma Enumerates_length keys (m : gmap string Peer) :
  Enumerates keys -> length (keys m) = size m.
Proof.
  intros He. destruct (He m) as [Hnd Hin]. destruct (by_key_Enumerates m) as [Hnd' Hin'].
  rewrite <- (length_map_to_list m), <- (length_fmap fst (map_to_list m)).
  apply Permutation_length, NoDup_Permutation; [exact Hnd|exact Hnd'|].
  intros i. rewrite Hin. symmetry. apply Hin'.
Qed.

Section Lookup.
Variable m : gmap string Peer.
Hypothesis keyed : forall i p, m !! i = Some p -> peer_id p = i.

Lemma omap_known (l : list string) :
  (forall i, i ∈ l -> is_Some (m !! i)) ->
  map peer_id (omap (fun i => m !! i) l) = l.
Proof.
  induction l as [|i l IH]; intros Hl; [reflexivity|].
  destruct (Hl i ltac:(left)) as [p Hp]. simpl. rewrite Hp. simpl.
  rewrite (keyed i p Hp). f_equal. apply IH. intros j Hj. apply Hl. right. exact Hj.
Qed.

Lemma elem_of_omap_lookup (l : list string) p :
  p ∈ omap (fun i => m !! i) l <-> peer_id p ∈ l /\ m !! peer_id p = Some p.
Proof.
  rewrite list_elem_of_omap. split.
  - intros (i & Hi & Hp). rewrite (keyed i p Hp). auto.
  - intros [Hi Hp]. eauto.
Qed.

End Lookup.

Section Table.
Variable sha256 : string -> list Z.
Variable selfId : string.
Variable keys : gmap string Peer -> list string.
Hypothesis walk : Enumerates keys.

Lemma findClosestPeers_Inv ft targetId k :
  FingerTableSpec.Inv sha256 selfId ft ->
  let found := findClosestPeers sha256 keys targetId k ft in
  length found = Nat.min k (count ft) /\
  NoDup (map peer_id found) /\
  (forall p, p ∈ found -> getPeer (peer_id p) ft = Some p) /\
  StronglySorted (not_farther sha256 targetId) (map peer_id found) /\
  (forall p i q, p ∈ found -> getPeer i ft = Some q -> q ∉ found ->
     not_farther sha256 targetId (peer_id p) i).
Proof.
  intros HI found.
  pose proof (inv_key _ _ _ HI) as Hkey.
  destruct (walk (peerMap ft)) as [Hnd Hin].
  assert (Hids : map peer_id (values keys ft) = keys (peerMap ft)).
  { unfold values. apply omap_known; [exact Hkey|]. intros i Hi. apply Hin, Hi. }
  destruct (ClosestFacts.findKClosest_facts sha256 targetId (keys (peerMap ft)) k)
    as (Hlen & Hsort & rest & Hperm & Hclose).
  set (closest := XOR.findKClosest sha256 targetId (keys (peerMap ft)) k) in *.
  assert (Hfound : found = omap (fun i => peerMap ft !! i) closest).
  { subst found closest. unfold findClosestPeers. rewrite Hids. reflexivity. }
  assert (Hsub : forall i, i ∈ closest -> is_Some (peerMap ft !! i)).
  { intros i Hi. apply Hin. rewrite Hperm. apply elem_of_app. left. exact Hi. }
  assert (Hmap : map peer_id found = closest).
  { rewrite Hfound. apply omap_known; assumption. }
  split; [|split; [|split; [|split]]].
  - rewrite <- (length_map peer_id), Hmap, Hlen. unfold count.
    rewrite (Enumerates_length keys _ walk). reflexivity.
  - rewrite Hmap. rewrite Hperm in Hnd. apply NoDup_app in Hnd as [Hnd _]. exact Hnd.
  - intros p Hp. rewrite Hfound in Hp.
    apply (elem_of_omap_lookup _ Hkey) in Hp as [_ Hp]. exact Hp.
  - rewrite Hmap. exact Hsort.
  - intros p i q Hp Hq Hnq. unfold getPeer in Hq.
    assert (Hpi : peer_id p ∈ closest).
    { rewrite Hfound in Hp. apply (elem_of_omap_lookup _ Hkey) in Hp as [Hp _]. exact Hp. }
    assert (Hi : i ∈ closest ++ rest) by (rewrite <- Hperm; apply Hin; eauto).
    apply elem_of_app in Hi as [Hi|Hi]; [|apply Hclose; assumption].
    exfalso. apply Hnq. rewrite Hfound. apply (elem_of_omap_lookup _ Hkey).
    rewrite (Hkey i q Hq). auto.
Qed.

(** [findClosestPeers] answers with [k] peers of the table, or with all
    of them when there are fewer: each is the peer the table holds under
    its id, none comes twice, they are in the order of their distance to
    the target, and no peer of the table that is left out is closer to
    the target than one of them. *)
Theorem findClosestPeers_closest (calls : list call) (targetId : string) (k : nat) :
  let ft := run_calls sha256 selfId calls empty in
  let found := findClosestPeers sha256 keys targetId k ft in
  length found = Nat.min k (count ft) /\
  NoDup (map peer_id found) /\
  (forall p, p ∈ found -> getPeer (peer_id p) ft = Some p) /\
  StronglySorted (not_farther sha256 targetId) (map peer_id found) /\
  (forall p i q, p ∈ found -> getPeer i ft = Some q -> q ∉ found ->
     not_farther sha256 targetId (peer_id p) i).
Proof.
  intros ft. apply findClosestPeers_Inv.
  apply FingerTableFacts.run_calls_Inv, FingerTableFacts.ft_Inv_empty.
Qed.

End Table.

Lemma findClosestPeers_closest_witness :
  length (findClosestPeers Reference.codes by_key "s" 1
            (run_calls Reference.codes "self"
               [AddPeer {| peer_id := "alice"; peer_send := "c1" |};
                AddPeer {| peer_id := "bob"; peer_send := "c2" |}] empty))
  = Nat.min 1 (count (run_calls Reference.codes "self"
               [AddPeer {| peer_id := "alice"; peer_send := "c1" |};
                AddPeer {| peer_id := "bob"; peer_send := "c2" |}] empty)).
Proof.
  apply (proj1 (findClosestPeers_closest Reference.codes "self" by_key by_key_Enumerates
                  [AddPeer {| peer_id := "alice"; peer_send := "c1" |};
                   AddPeer {| peer_id := "bob"; peer_send := "c2" |}] "s" 1)).
Defined.

Section Routed.
Context `{Wire.Collaborators}.
Variable selfId : string.
Variable keys : gmap string Peer -> list string.
Hypothesis walk : Enumerates keys.

(** [routedSend] either broadcasts the frame or sends it to peers of the
    finger table, never both.  A frame that does not parse, a frame
    without a target (no [get] with a soul and no [put] with a first
    soul) and any frame while the table is empty are broadcast.  A frame
    with a target, while the table is not empty, is sent to the 6 peers
    closest to the target, or to all peers when there are fewer, over the
    connection each peer was registered with, and is not broadcast. *)
Theorem routedSend_deliveries (calls : list call) (data : string) :
  let ft := run_calls Wire.sha256 selfId calls empty in
  let out := Routing.routedSend keys data ft in
  (Wire.JSON_parse data = None -> out = [Routing.Broadcast data]) /\
  (forall msg, Wire.JSON_parse data = Some msg ->
     Schema.truthy (Routing.targetId msg) = None -> out = [Routing.Broadcast data]) /\
  (count ft = 0%nat -> out = [Routing.Broadcast data]) /\
  (forall msg target, Wire.JSON_parse data = Some msg ->
     Schema.truthy (Routing.targetId msg) = Some target -> count ft <> 0%nat ->
     out = map (fun p => Routing.SendTo (peer_send p) data)
               (findClosestPeers Wire.sha256 keys target DEFAULT_K ft) /\
     length out = Nat.min DEFAULT_K (count ft) /\
     (Routing.Broadcast data ∉ out) /\
     forall d, d ∈ out ->
       exists p, d = Routing.SendTo (peer_send p) data /\ getPeer (peer_id p) ft = Some p).
Proof.
  intros ft out.
  assert (HI : FingerTableSpec.Inv Wire.sha256 selfId ft)
    by apply FingerTableFacts.run_calls_Inv, FingerTableFacts.ft_Inv_empty.
  assert (Hfound : forall target,
            length (findClosestPeers Wire.sha256 keys target DEFAULT_K ft)
            = Nat.min DEFAULT_K (count ft) /\
            forall p, p ∈ findClosestPeers Wire.sha256 keys target DEFAULT_K ft ->
                      getPeer (peer_id p) ft = Some p).
  { intros target.
    destruct (findClosestPeers_Inv Wire.sha256 selfId keys walk ft target DEFAULT_K HI)
      as (Hl & _ & Hp & _). auto. }
  subst out. unfold Routing.routedSend.
  split; [intros ->; reflexivity|]. split; [intros msg -> ->; reflexivity|].
  split.
  - intros Hc. destruct (Wire.JSON_parse data) as [msg|]; [|reflexivity].
    destruct (Schema.truthy (Routing.targetId msg)) as [target|]; [|reflexivity].
    destruct (Hfound target) as [Hl _]. rewrite Hc, Nat.min_0_r in Hl.
    destruct (findClosestPeers _ _ _ _ _); [reflexivity|discriminate].
  - intros msg target -> -> Hc. destruct (Hfound target) as [Hl Hp].
    destruct (findClosestPeers Wire.sha256 keys target DEFAULT_K ft) as [|p0 peers] eqn:E.
    { cbn [length] in Hl. unfold DEFAULT_K in Hl. lia. }
    split; [reflexivity|]. split; [rewrite length_map; exact Hl|]. split.
    + intros Hin. apply list_elem_of_fmap in Hin as (p & Hd & _). discriminate.
    + intros d Hd. apply list_elem_of_fmap in Hd as (p & -> & Hin). eauto.
Qed.

End Routed.

(** The frame [put-s] is a PUT of soul [s]; the table holds one peer. *)
Lemma routedSend_deliveries_witness :
  @Routing.routedSend Scenarios.env by_key "put-s"
     (run_calls (@Wire.sha256 Scenarios.env) "self"
        [AddPeer {| peer_id := "alice"; peer_send := "c1" |}] empty)
  = [Routing.SendTo "c1" "put-s"].
Proof.
  apply (proj1 (proj2 (proj2 (proj2
           (@routedSend_deliveries Scenarios.env "self" by_key by_key_Enumerates
              [AddPeer {| peer_id := "alice"; peer_send := "c1" |}] "put-s")))
           (Scenarios.put_msg "m1" [("s", Some Scenarios.bob)]) "s" eq_refl eq_refl
           ltac:(vm_compute; discriminate))).
Defined.

End RoutingFacts.

(** ** createRateLimiter *)

Module LimiterFacts.
Import RateLimiter LimiterSpec.

Lemma in_window_length now l : (length (in_window now l) <= length l)%nat.
Proof. unfold in_window. apply List.filter_length_le. Qed.

Lemma in_window_app now l1 l2 :
  in_window now (l1 ++ l2) = in_window now l1 ++ in_window now l2.
Proof. unfold in_window. apply List.filter_app. Qed.

Lemma in_window_later tl now l :
  tl <= now -> in_window now (in_window tl l) = in_window now l.
Proof.
  intros Ht. unfold in_window. induction l as [|x l IH]; [reflexivity|].
  simpl. destruct (tl - x <? windowMs) eqn:E1; simpl; destruct (now - x <? windowMs) eqn:E2;
    rewrite ?IH; try reflexivity.
  apply Z.ltb_lt in E2. apply Z.ltb_ge in E1. lia.
Qed.

Lemma in_window_now now : in_window now [now] = [now].
Proof.
  unfold in_window. simpl. replace (now - now) with 0 by lia. reflexivity.
Qed.

Lemma getDelay_fst_zero now c clients :
  fst (getDelay now c clients) = 0 <->
  (length (in_window now (requests_of clients c)) < maxRequests)%nat.
Proof.
  assert (Er : requests (default (fresh_client now) (clients !! c)) = requests_of clients c).
  { unfold requests_of. destruct (clients !! c); reflexivity. }
  destruct (le_lt_dec maxRequests (length (in_window now (requests_of clients c))))
    as [Hover|Hunder].
  - rewrite <- Er in Hover.
    destruct (RateLimiterFacts.getDelay_over now c clients Hover) as (oldest & Hmin & Hd).
    rewrite Hd. cbn [fst].
    destruct (RateLimiterFacts.Math_min_spec _ _ Hmin) as [Hin _].
    apply RateLimiterFacts.in_window_spec in Hin as [_ Hw]. rewrite Er in Hover.
    split; [lia|intros; lia].
  - rewrite <- Er in Hunder.
    rewrite (RateLimiterFacts.getDelay_under now c clients Hunder). cbn [fst].
    rewrite Er in Hunder. tauto.
Qed.

Lemma requests_of_getDelay now c clients :
  requests_of (snd (getDelay now c clients)) c
  = if fst (getDelay now c clients) =? 0
    then in_window now (requests_of clients c) ++ [now]
    else in_window now (requests_of clients c).
Proof.
  assert (Er : requests (default (fresh_client now) (clients !! c)) = requests_of clients c).
  { unfold requests_of. destruct (clients !! c); reflexivity. }
  destruct (fst (getDelay now c clients) =? 0) eqn:E.
  - apply Z.eqb_eq, getDelay_fst_zero in E. rewrite <- Er in E.
    rewrite (RateLimiterFacts.getDelay_under now c clients E). cbn [snd].
    unfold requests_of at 1. rewrite lookup_insert_eq. cbn [requests]. rewrite Er. reflexivity.
  - apply Z.eqb_neq in E. rewrite getDelay_fst_zero in E.
    assert (Hover : (maxRequests <= length (in_window now (requests_of clients c)))%nat) by lia.
    rewrite <- Er in Hover.
    destruct (RateLimiterFacts.getDelay_over now c clients Hover) as (oldest & _ & Hd).
    rewrite Hd. cbn [snd]. unfold requests_of at 1. rewrite lookup_insert_eq. cbn [requests].
    rewrite Er. reflexivity.
Qed.

Lemma getDelay_others now c clients c' :
  c' <> c -> snd (getDelay now c clients) !! c' = clients !! c'.
Proof.
  intros Hne. unfold getDelay. cbv zeta.
  destruct (_ <=? _)%nat; cbn [snd]; apply lookup_insert_ne; congruence.
Qed.

Lemma requests_of_cleanup now clients c :
  requests_of (cleanup now clients) c = in_window now (requests_of clients c).
Proof.
  unfold requests_of, cleanup. rewrite lookup_fmap.
  destruct (clients !! c); reflexivity.
Qed.

(** *** The memory of the limiter *)

Lemma run_call_bounded clients call :
  (forall c, length (requests_of clients c) <= maxRequests)%nat ->
  (forall c, length (requests_of (run_call clients call) c) <= maxRequests)%nat.
Proof.
  intros Hb c. destruct call as [now id|now]; simpl.
  - destruct (decide (c = id)) as [->|Hne].
    + rewrite requests_of_getDelay.
      pose proof (in_window_length now (requests_of clients id)).
      destruct (fst (getDelay now id clients) =? 0) eqn:E.
      * apply Z.eqb_eq, getDelay_fst_zero in E. rewrite length_app. simpl. lia.
      * specialize (Hb id). lia.
    + unfold requests_of. rewrite getDelay_others by exact Hne. apply Hb.
  - rewrite requests_of_cleanup.
    pose proof (in_window_length now (requests_of clients c)). specialize (Hb c). lia.
Qed.

Lemma run_calls_bounded calls : forall clients,
  (forall c, length (requests_of clients c) <= maxRequests)%nat ->
  (forall c, length (requests_of (run_calls calls clients) c) <= maxRequests)%nat.
Proof.
  induction calls as [|call calls IH]; intros clients H0; [exact H0|].
  simpl. apply IH, run_call_bounded, H0.
Qed.

(** Whatever the calls, the limiter keeps at most 1500 time stamps per
    client. *)
Theorem limiter_bounded (calls : list call) (c : string) (client : Client) :
  run_calls calls ∅ !! c = Some client -> (length (requests client) <= 1500)%nat.
Proof.
  intros Hc.
  assert (Hb : (length (requests_of (run_calls calls ∅) c) <= maxRequests)%nat).
  { apply run_calls_bounded. intros c'. unfold requests_of. rewrite lookup_empty.
    simpl. lia. }
  unfold requests_of in Hb. rewrite Hc in Hb. exact Hb.
Qed.

Lemma limiter_bounded_witness :
  (length (requests {| requests := [5%Z]; lastCleanup := 5%Z; throttleCount := 0 |})
   <= 1500)%nat.
Proof.
  apply (limiter_bounded [GetDelay 5 "c"] "c"
           {| requests := [5]; lastCleanup := 5; throttleCount := 0 |}).
  vm_compute. reflexivity.
Defined.

(** *** The rate that is let through *)

(** At each moment a request was let through, the window count is within
    the cap. *)
Local Abbreviation Within prev :=
  (forall p1 t p2, prev = p1 ++ t :: p2 ->
     (length (in_window t (p1 ++ [t])) <= maxRequests)%nat).

Lemma Within_snoc prev now :
  Within prev -> (length (in_window now (prev ++ [now])) <= maxRequests)%nat ->
  Within (prev ++ [now]).
Proof.
  intros Hw Hn p1 t p2 E.
  destruct p2 as [|x p2 _] using rev_ind.
  - apply (app_inj_tail prev p1 now t) in E as [-> ->]. exact Hn.
  - rewrite app_comm_cons, app_assoc in E. apply app_inj_tail in E as [E _].
    eapply Hw, E.
Qed.

Lemma passed_Within c calls : forall clients prev tl last,
  Sorted Z.le (map call_time calls) ->
  Forall (fun call => last <= call_time call) calls ->
  tl <= last ->
  requests_of clients c = in_window tl prev ->
  Within prev ->
  Within (prev ++ passed c calls clients).
Proof.
  induction calls as [|call calls IH]; intros clients prev tl last Hs Hl Ht Hr Hw.
  { simpl. rewrite app_nil_r. exact Hw. }
  assert (Hge : Forall (fun c' => call_time call <= call_time c') calls).
  { apply Sorted_StronglySorted in Hs; [|intros x y z; lia].
    simpl in Hs. apply StronglySorted_inv in Hs as [_ Hs]. rewrite Forall_map in Hs.
    exact Hs. }
  apply Sorted_inv in Hs as [Hs _].
  inversion Hl as [|? ? Hnow Hl']; subst.
  destruct call as [now id|now]; cbn [passed call_time] in *.
  - destruct (String.eqb id c) eqn:Eid.
    + apply String.eqb_eq in Eid. subst id. cbn [andb].
      assert (Hreq : in_window now (requests_of clients c) = in_window now prev)
        by (rewrite Hr; apply in_window_later; lia).
      pose proof (requests_of_getDelay now c clients) as Hnew. rewrite Hreq in Hnew.
      destruct (fst (getDelay now c clients) =? 0) eqn:E.
      * apply Z.eqb_eq, getDelay_fst_zero in E. rewrite Hreq in E.
        replace (prev ++ now :: passed c calls (run_call clients (GetDelay now c)))
          with ((prev ++ [now]) ++ passed c calls (run_call clients (GetDelay now c)))
          by (rewrite <- app_assoc; reflexivity).
        apply (IH _ _ now now Hs Hge (Z.le_refl _)).
        -- cbn [run_call]. rewrite Hnew, in_window_app, in_window_now. reflexivity.
        -- apply Within_snoc; [exact Hw|].
           rewrite in_window_app, in_window_now, length_app. simpl. lia.
      * apply (IH _ _ now now Hs Hge (Z.le_refl _)); [|exact Hw].
        cbn [run_call]. exact Hnew.
    + cbn [andb]. apply String.eqb_neq in Eid.
      apply (IH _ _ tl now Hs Hge ltac:(lia)); [|exact Hw].
      cbn [run_call]. unfold requests_of. rewrite getDelay_others by congruence. exact Hr.
  - apply (IH _ _ now now Hs Hge (Z.le_refl _)); [|exact Hw].
    cbn [run_call]. rewrite requests_of_cleanup, Hr. apply in_window_later. lia.
Qed.

(** While the clock does not go back, each time a request of a client is
    let through without delay, at most 1500 requests of that client, this
    one included, have been let through in the 60 000 ms up to it. *)
Theorem limiter_rate (calls : list call) (c : string) (p1 p2 : list Z) (t : Z) :
  clock_ok calls ->
  passed c calls ∅ = p1 ++ t :: p2 ->
  (length (in_window t (p1 ++ [t])) <= 1500)%nat.
Proof.
  intros Hs Hp.
  destruct calls as [|call calls]; [destruct p1; discriminate|].
  assert (Hw : Within ([] ++ passed c (call :: calls) ∅)).
  { apply (passed_Within c (call :: calls) ∅ [] (call_time call) (call_time call)).
    - exact Hs.
    - constructor; [lia|]. unfold clock_ok in Hs. simpl in Hs.
      apply Sorted_StronglySorted in Hs; [|intros x y z; lia].
      apply StronglySorted_inv in Hs as [_ Hs]. rewrite Forall_map in Hs. exact Hs.
    - lia.
    - unfold requests_of. rewrite lookup_empty. reflexivity.
    - intros q1 t' q2 E. destruct q1; discriminate. }
  apply (Hw p1 t p2). exact Hp.
Qed.

Lemma limiter_rate_witness :
  (length (in_window 7%Z ([5%Z] ++ [7%Z])) <= 1500)%nat.
Proof.
  apply (limiter_rate [GetDelay 5 "c"; Sweep 6; GetDelay 7 "c"] "c" [5] [] 7).
  - repeat constructor; simpl; lia.
  - vm_compute. reflexivity.
Defined.

(** *** One call *)

(** A call of [getDelay] for a client leaves the record of every other
    client alone and never changes [lastCleanup]; the throttle counter of
    the client goes up by one exactly when the delay is not 0 and never
    goes down, so a client that is to be disconnected stays so; and the
    delay is never negative and, if no recorded request is in the future,
    at most 60 000 ms. *)
Theorem getDelay_step (now : Z) (c : string) (clients : gmap string Client) :
  let r := getDelay now c clients in
  let old := default (fresh_client now) (clients !! c) in
  (forall c', c' <> c -> snd r !! c' = clients !! c') /\
  (exists cl, snd r !! c = Some cl /\ lastCleanup cl = lastCleanup old /\
     throttleCount cl = (throttleCount old + if (fst r =? 0)%Z then 0 else 1)%nat) /\
  0 <= fst r /\
  (Forall (fun t => t <= now) (requests old) -> fst r <= 60000) /\
  (shouldDisconnect c clients = true -> shouldDisconnect c (snd r) = true).
Proof.
  intros r old.
  assert (Hcl : exists cl, snd r !! c = Some cl /\ lastCleanup cl = lastCleanup old /\
     throttleCount cl = (throttleCount old + if (fst r =? 0)%Z then 0 else 1)%nat).
  { subst r.
    destruct (le_lt_dec maxRequests (length (in_window now (requests old)))) as [Hover|Hunder].
    - destruct (RateLimiterFacts.getDelay_over now c clients Hover) as (oldest & Hmin & Hd).
      rewrite Hd. cbn [fst snd]. eexists. split; [apply lookup_insert_eq|].
      split; [reflexivity|]. cbn [throttleCount].
      destruct (RateLimiterFacts.Math_min_spec _ _ Hmin) as [Hin _].
      apply RateLimiterFacts.in_window_spec in Hin as [_ Hw].
      destruct (Z.max 0 (windowMs - (now - oldest)) =? 0) eqn:E; [|subst old; lia].
      apply Z.eqb_eq in E. lia.
    - rewrite (RateLimiterFacts.getDelay_under now c clients Hunder). cbn [fst snd].
      eexists. split; [apply lookup_insert_eq|]. split; [reflexivity|].
      cbn [throttleCount]. rewrite Z.eqb_refl. subst old. lia. }
  split; [intros c' Hne; apply getDelay_others, Hne|]. split; [exact Hcl|].
  split; [|split].
  - subst r. unfold getDelay. cbv zeta. destruct (_ <=? _)%nat; cbn [fst]; lia.
  - intros Hpast. subst r.
    destruct (le_lt_dec maxRequests (length (in_window now (requests old)))) as [Hover|Hunder].
    + destruct (RateLimiterFacts.getDelay_over now c clients Hover) as (oldest & Hmin & Hd).
      rewrite Hd. cbn [fst].
      destruct (RateLimiterFacts.Math_min_spec _ _ Hmin) as [Hin _].
      apply RateLimiterFacts.in_window_spec in Hin as [Hin _].
      rewrite List.Forall_forall in Hpast. specialize (Hpast _ Hin).
      unfold windowMs. lia.
    + rewrite (RateLimiterFacts.getDelay_under now c clients Hunder). cbn [fst]. lia.
  - intros Hs. apply RateLimiterFacts.shouldDisconnect_spec in Hs as (cl0 & Hc0 & Ht).
    destruct Hcl as (cl & Hc & _ & Htc).
    apply RateLimiterFacts.shouldDisconnect_spec. exists cl. split; [exact Hc|].
    subst old. rewrite Hc0 in Htc. cbn [default from_option id] in Htc. lia.
Qed.

End LimiterFacts.

(** ** createMessageQueue *)

Module QueueFacts.
Import MessageQueue.

Lemma process_length q :
  (length (queue (fst (process q))) <= length (queue q))%nat.
Proof.
  unfold process. destruct (processing q); [simpl; lia|].
  destruct (queue q) eqn:E; simpl; [rewrite E; simpl; lia|lia].
Qed.

Lemma step_bounded maxQueueLength s e :
  (length (queue (sq s)) <= maxQueueLength)%nat ->
  (length (queue (sq (step maxQueueLength s e))) <= maxQueueLength)%nat.
Proof.
  intros Hb. destruct e as [dt data|dt|dt]; unfold step.
  - unfold enqueue. destruct (maxQueueLength <=? length (queue (sq s)))%nat eqn:E.
    + cbn [sq]. exact Hb.
    + apply Nat.leb_gt in E.
      pose proof (process_length {| queue := queue (sq s) ++ [data];
                                    processing := processing (sq s) |}) as Hp.
      destruct (process _) as [q' out]. cbn [sq fst queue] in *.
      rewrite length_app in Hp. simpl in Hp. lia.
  - unfold flush. pose proof (process_length (sq s)) as Hp.
    destruct (process (sq s)) as [q' out]. cbn [sq fst] in *. lia.
  - destruct (timer s) as [deadline|]; [|exact Hb].
    destruct (deadline <=? _); [|exact Hb].
    unfold resume. destruct (queue (sq s)) eqn:E; cbn [sq queue]; simpl in Hb; simpl; lia.
Qed.

(** Whatever the enqueues, flushes and wake-ups, no more than
    [maxQueueLength] messages wait in the queue; and an enqueue is refused
    exactly when that many wait, in which case nothing is queued and
    nothing is sent. *)
Theorem queue_bounded (maxQueueLength : nat) (evs : list event) (data : string) :
  let s := run maxQueueLength evs init in
  (length (queue (sq s)) <= maxQueueLength)%nat /\
  (length (queue (sq s)) = maxQueueLength <->
   exists e, enqueue maxQueueLength data (sq s) = (Some e, (sq s, []))) /\
  ((length (queue (sq s)) < maxQueueLength)%nat <->
   fst (enqueue maxQueueLength data (sq s)) = None).
Proof.
  intros s.
  assert (Hb : (length (queue (sq s)) <= maxQueueLength)%nat).
  { subst s. unfold run. assert (H0 : (length (queue (sq init)) <= maxQueueLength)%nat)
      by (simpl; lia).
    revert H0. generalize init. induction evs as [|e evs IH]; intros s0 H0; [exact H0|].
    simpl. apply IH, step_bounded, H0. }
  split; [exact Hb|]. unfold enqueue.
  destruct (maxQueueLength <=? length (queue (sq s)))%nat eqn:E.
  - apply Nat.leb_le in E. split.
    + split; [eauto|lia].
    + cbn [fst]. split; [lia|discriminate].
  - apply Nat.leb_gt in E. split.
    + split; [lia|]. intros [e He]. destruct (process _). discriminate.
    + destruct (process _). cbn [fst]. tauto.
Qed.

End QueueFacts.

(** ** The wire *)

Module WireMore.
Import Schema Wire WireSpec GetSpec.

Section Wire.
Context `{Collaborators}.
Variable opt : Options.

(** *** Frames that are not messages *)

(** A frame over 10 MiB is dropped before anything is done with it, and a
    frame that [JSON.parse] rejects is dropped once the rate limiter has
    counted it: it changes nothing of the wire, and at most sets the
    timer that resumes a rate-limited frame. *)
Theorem handleMessage_invalid (data clientId : string) (now : Z) (st : State) :
  (validateMessage data = false -> handleMessage opt data clientId now st = st) /\
  (JSON_parse data = None ->
     handleMessage_body opt data clientId now st = st /\
     same_wire st (handleMessage opt data clientId now st) /\
     (timers (handleMessage opt data clientId now st) = timers st \/
      exists delay, 0 < delay /\
        timers (handleMessage opt data clientId now st)
        = timers st ++ [(now + delay, TRateResume data clientId)])).
Proof.
  split.
  - intros Hv. unfold handleMessage. rewrite Hv. reflexivity.
  - intros Hp.
    assert (Hb : forall s, handleMessage_body opt data clientId now s = s)
      by (intros s; unfold handleMessage_body; rewrite Hp; reflexivity).
    split; [apply Hb|]. unfold handleMessage.
    destruct (validateMessage data); [|split; [repeat split|left; reflexivity]].
    destruct (RateLimiter.getDelay now clientId (clients st)) as [delay c].
    destruct (0 <? delay) eqn:Hd.
    + destruct (RateLimiter.shouldDisconnect clientId c).
      * split; [repeat split|left; reflexivity].
      * split; [repeat split|]. right. exists delay. apply Z.ltb_lt in Hd.
        split; [exact Hd|reflexivity].
    + rewrite Hb. split; [repeat split|left; reflexivity].
Qed.

(** *** The answer to a GET *)

(** The message a callback gets from the ACK block: the frame without its
    ["#"] and ["@"]. *)
Local Abbreviation stripped msg :=
  {| msg_id := None; msg_at := None; msg_get := msg_get msg; msg_put := msg_put msg;
     msg_err := msg_err msg; msg_hello := msg_hello msg |}.


(** *** Listeners *)

Lemma normalize_soul lex : lex_soul (normalize lex) = lex_soul lex.
Proof. unfold normalize. destruct (lex_dot lex); reflexivity. Qed.


(** *** The subscription filter *)

Local Abbreviation keep :=
  (fun (acc : PutGraph * State) (e : string * option Node) =>
     if subscribed (fst e) (snd acc)
     then (obj_set (fst e) (snd e) (fst acc),
           set_pendingReferences (pendingReferences (snd acc) ∖ {[fst e]}) (snd acc))
     else acc).

Lemma obj_set_fresh k v (acc : PutGraph) :
  k ∉ souls acc -> obj_set k v acc = acc ++ [(k, v)].
Proof.
  unfold souls. induction acc as [|[k' v'] acc IH]; simpl; intros Hk; [reflexivity|].
  apply not_elem_of_cons in Hk as [Hne Hk].
  destruct (String.eqb k' k) eqn:E; [apply String.eqb_eq in E; congruence|].
  rewrite IH by exact Hk. reflexivity.
Qed.

Lemma filter_subscribed_ext (put : PutGraph) P k (st : State) :
  k ∉ souls put ->
  List.filter (fun e => subscribed (fst e) (set_pendingReferences (P ∖ {[k]}) st)) put
  = List.filter (fun e => subscribed (fst e) (set_pendingReferences P st)) put.
Proof.
  intros Hk. apply List.filter_ext_in. intros e He.
  rewrite !FilterFacts.subscribed_pending. f_equal. f_equal.
  assert (fst e <> k).
  { intros E. apply Hk. unfold souls. rewrite <- E.
    apply list_elem_of_fmap. exists e. split; [reflexivity|apply list_elem_of_In, He]. }
  apply bool_decide_ext. set_solver.
Qed.

Lemma keep_fold (st : State) (put : PutGraph) : forall acc P,
  NoDup (souls put) -> (forall s, s ∈ souls put -> s ∉ souls acc) ->
  let kept := List.filter (fun e => subscribed (fst e) (set_pendingReferences P st)) put in
  fold_left keep put (acc, set_pendingReferences P st)
  = (acc ++ kept, set_pendingReferences (P ∖ list_to_set (souls kept)) st).
Proof.
  induction put as [|[k v] put IH]; intros acc P Hnd Hacc kept.
  - subst kept. simpl. rewrite app_nil_r. f_equal. f_equal. set_solver.
  - unfold souls in Hnd. simpl in Hnd. apply NoDup_cons in Hnd as [Hk Hnd].
    subst kept. cbn [fold_left List.filter fst snd].
    destruct (subscribed k (set_pendingReferences P st)) eqn:E.
    + rewrite obj_set_fresh by (apply Hacc; left).
      change (set_pendingReferences (pendingReferences (set_pendingReferences P st) ∖ {[k]})
                (set_pendingReferences P st))
        with (set_pendingReferences (P ∖ {[k]}) st).
      rewrite IH; [|exact Hnd|].
      * rewrite filter_subscribed_ext by exact Hk.
        rewrite <- app_assoc. f_equal. f_equal. unfold souls. simpl. set_solver.
      * intros s Hs Hin. unfold souls in Hin. rewrite fmap_app in Hin.
        apply elem_of_app in Hin as [Hin|Hin].
        -- eapply Hacc; [right; exact Hs|exact Hin].
        -- apply list_elem_of_singleton in Hin. simpl in Hin. subst s. apply Hk, Hs.
    + apply IH; [exact Hnd|]. intros s Hs. apply Hacc. right. exact Hs.
Qed.

Lemma filter_souls_kept (put : PutGraph) (st : State) :
  NoDup (souls put) ->
  let kept := List.filter (fun e => subscribed (fst e) st) put in
  filter_souls put st
  = (kept, set_pendingReferences (pendingReferences st ∖ list_to_set (souls kept)) st).
Proof.
  intros Hnd kept. unfold filter_souls.
  rewrite <- (WireFacts.set_pendingReferences_eta st) at 1.
  rewrite keep_fold; [|exact Hnd|intros s _ Hin; apply elem_of_nil in Hin; done].
  rewrite (WireFacts.set_pendingReferences_eta st). reflexivity.
Qed.


(** *** A GET and the PUT that answers it *)

Lemma handleResponse_pending dupTrack request put err now st :
  pendingReferences (fst (handleResponse opt dupTrack request put err now st))
  = pendingReferences st.
Proof.
  unfold handleResponse.
  destruct (WireFacts.sub_eq_sendFunction opt request now st) as (_ & _ & _ & Hp).
  destruct (sendFunction opt request now st) as [r st1]. cbn [snd] in Hp.
  destruct (truthy r); [exact Hp|]. destruct put, (truthy err); exact Hp.
Qed.

Lemma getWithCallback_pending lex cb o now st :
  pendingReferences (getWithCallback opt lex (UserCb cb) o now st) = pendingReferences st.
Proof.
  unfold getWithCallback, getWithCallback_core, fresh_id.
  set (st1 := set_dup _ _).
  assert (H1 : pendingReferences st1 = pendingReferences st) by reflexivity.
  destruct (Get lex (graph st) (opt_fast o)) as [a|].
  - pose proof (handleResponse_pending (random (rng st))
                  (JSON_stringify {| msg_id := Some (random (rng st)); msg_at := None;
                                     msg_get := Some lex; msg_put := None; msg_err := None;
                                     msg_hello := None |}) (Some a) None now st1) as Hp.
    destruct (handleResponse _ _ _ _ _ _ _) as [st2 [m|]]; cbn [fst] in Hp |- *;
      [cbn [invoke emit pendingReferences set_effects]|]; congruence.
  - destruct (store_get lex o (disk st1)) as [err [a|]].
    + pose proof (handleResponse_pending (random (rng st))
                  (JSON_stringify {| msg_id := Some (random (rng st)); msg_at := None;
                                     msg_get := Some lex; msg_put := None; msg_err := None;
                                     msg_hello := None |}) (Some a) (truthy err) now st1) as Hp.
      destruct (handleResponse _ _ _ _ _ _ _) as [st2 [m|]]; cbn [fst] in Hp |- *;
        [cbn [invoke emit pendingReferences set_effects]|]; congruence.
    + match goal with |- context [handleResponse opt ?d ?r None None now ?s] =>
        pose proof (handleResponse_pending d r None None now s) as Hp;
        destruct (handleResponse opt d r None None now s) as [st2 [m|]] end;
        cbn [fst] in Hp |- *; [cbn [invoke emit pendingReferences set_effects]|];
        rewrite Hp; reflexivity.
Qed.

Lemma extract_references_grows put : forall st s,
  s ∈ pendingReferences st -> s ∈ pendingReferences (extract_references put st).
Proof.
  unfold extract_references. induction put as [|e put IH]; intros st s Hs; [exact Hs|].
  simpl. destruct (snd e) as [node|]; [|apply IH, Hs].
  destruct (subscribed (fst e) st); [|apply IH, Hs].
  apply IH. unfold add_references. cbn [pendingReferences set_pendingReferences].
  set_solver.
Qed.


(** *** A GET the graph can answer *)

Lemma calls_of_sends i out : calls_of i (map EffRoutedSend out) = [].
Proof. induction out; simpl; auto. Qed.

Lemma sendFunction_effects data now st :
  exists out ts,
    effects (snd (sendFunction opt data now st)) = effects st ++ map EffRoutedSend out /\
    timers (snd (sendFunction opt data now st)) = timers st ++ ts /\
    Forall (fun dt => snd dt = TQueuePause) ts /\
    queue (snd (sendFunction opt data now st)) = queue st.
Proof.
  unfold sendFunction. destruct (mode opt).
  3:{ exists [], []. cbn [snd map]. rewrite !app_nil_r. auto. }
  all: destruct (MessageQueue.enqueue _ _ _) as [err [q' out]]; cbn [snd];
    exists out; destruct out as [|m out'].
  all: try (exists []; cbn [emit effects timers set_effects set_messageQueue queue map];
            rewrite ?app_nil_r; repeat split; auto; fail).
  all: eexists; cbn [setTimeout emit effects timers set_timers set_effects
                     set_messageQueue queue];
    repeat split; auto.
Qed.

Lemma sendFunction_full data now st :
  mode opt <> LocalOnly ->
  (maxQueueLength opt <= length (MessageQueue.queue (messageQueue st)))%nat ->
  fst (sendFunction opt data now st)
  = Some ("Message queue exceeded maximum length (" +:+ pretty (maxQueueLength opt) +:+ ")").
Proof.
  intros Hm Hfull. unfold sendFunction, MessageQueue.enqueue.
  apply Nat.leb_le in Hfull. destruct (mode opt); [| |done]; rewrite Hfull; reflexivity.
Qed.


(** *** The handshake *)

(** The HELLO a server sends when a connection opens is
    [{hello: {pub: selfId}}], without ["#"].  A wire that receives this
    frame drops it at the check of ["#"], before the HELLO block: the
    frame adds no peer to the finger table of the receiver. *)
Theorem own_hello_dropped (receiver : Options) (conn clientId : string) (now now' : Z)
    (st st' : State) :
  JSON_parse (hello_msg opt)
  = Some {| msg_id := None; msg_at := None; msg_get := None; msg_put := None;
            msg_err := None; msg_hello := Some (Some (selfId opt)) |} ->
  mode opt = ServerMode ->
  effects (step opt st (now, EvConnection conn))
  = effects st ++ [EffSendTo conn (hello_msg opt)] /\
  handleMessage_body receiver (hello_msg opt) clientId now' st' = st' /\
  fingerTable (handleMessage receiver (hello_msg opt) clientId now' st') = fingerTable st'.
Proof.
  intros Hp Hm.
  assert (Hb : forall s, handleMessage_body receiver (hello_msg opt) clientId now' s = s).
  { intros s. unfold handleMessage_body. rewrite Hp. reflexivity. }
  split; [|split].
  - unfold step. cbn [snd]. rewrite Hm. reflexivity.
  - apply Hb.
  - unfold handleMessage. destruct (validateMessage _); [|reflexivity].
    destruct (RateLimiter.getDelay _ _ _) as [delay c].
    destruct (0 <? delay); [destruct (RateLimiter.shouldDisconnect _ _); reflexivity|].
    rewrite Hb. reflexivity.
Qed.

(** A HELLO that carries an id the finger table knows maps the id to the
    connection the frame came over, whoever sent it: the peer that was
    registered under the id is replaced, and every other peer stays. *)
Theorem hello_remaps (pub conn : string) (st : State) (old : FingerTable.Peer) :
  WalkSpec.reachable sha256 (selfId opt) (fingerTable st) ->
  pub <> "" -> conn <> "" ->
  FingerTable.getPeer pub (fingerTable st) = Some old ->
  let st' := handleHello opt (Some pub) conn st in
  FingerTable.getPeer pub (fingerTable st')
  = Some {| FingerTable.peer_id := pub; FingerTable.peer_send := conn |} /\
  FingerTable.count (fingerTable st') = FingerTable.count (fingerTable st) /\
  forall j, j <> pub ->
    FingerTable.getPeer j (fingerTable st') = FingerTable.getPeer j (fingerTable st).
Proof.
  intros Hr Hpub Hconn Hold st'. subst st'. unfold handleHello, truthy.
  apply String.eqb_neq in Hpub. apply String.eqb_neq in Hconn. rewrite Hpub, Hconn.
  cbn [fingerTable set_fingerTable].
  destruct (TableFacts.addPeer_again_Inv sha256 (selfId opt) (fingerTable st)
              {| FingerTable.peer_id := pub; FingerTable.peer_send := conn |} old
              (TableFacts.reachable_Inv _ _ _ Hr) (TableFacts.reachable_self _ _ _ Hr) Hold)
    as (_ & Hg & Hc & Ho & _).
  auto.
Qed.

(** *** What no handler does *)

Local Abbreviation Never := (fun _ : string => False).
Local Abbreviation Any := (fun _ : PutGraph => True).
Local Abbreviation All := (fun _ : string => True).

Lemma any_mix : forall now change g sec l,
  Any change ->
  Any (Ham.mix_now (Ham_mix now change g sec l)) /\
  Any (Ham.mix_defer (Ham_mix now change g sec l)).
Proof. auto. Qed.

Lemma any_fresh st : Frame.Fresh Never st.
Proof. intros k _ []. Qed.

Lemma any_checks st : Frame.GoodChecks Any st.
Proof.
  intros k cc _. unfold Frame.PC. destruct (cc_after cc); simpl; auto. split; auto.
Qed.

Lemma any_body data st : Frame.BodyOK Never Any data st.
Proof. intros msg _. split; [split; intros []|]. auto. Qed.

Lemma any_fire t st : Frame.FireOK Never Any All t st.
Proof. split; destruct t; simpl; auto; try apply any_body. Qed.

Lemma any_event ev st : Frame.EventOK opt Never Any All ev st.
Proof.
  unfold Frame.EventOK. destruct (snd ev); auto. right. split; [apply any_body|exact I].
Qed.

(** No event makes the wire take back what it did or cancel what it
    planned: the log of its calls to the environment only grows, the
    counter of the tokens drawn never goes down, and the pending timers
    stay as they are and in their order, new ones coming after them; the
    only timer that goes is the one that fires, and it goes when it is
    due. *)
Theorem step_only_adds (ev : Z * Event) (st : State) :
  let st' := step opt st ev in
  (rng st <= rng st')%nat /\
  (exists new, effects st' = effects st ++ new) /\
  ((forall k, snd ev <> EvTimer k) -> exists new, timers st' = timers st ++ new) /\
  (forall k, snd ev = EvTimer k ->
     st' = st \/
     exists deadline t new, timers st !! k = Some (deadline, t) /\ deadline <= fst ev /\
       timers st' = delete k (timers st) ++ new).
Proof.
  intros st'.
  assert (Hplain : (forall k, snd ev <> EvTimer k) ->
            Frame.D Never Any All st st').
  { intros Hk. apply (WireFacts.D_step opt Never Any All any_mix);
      [apply any_fresh|apply any_checks|apply any_event|exact Hk]. }
  destruct ev as [now e]. cbn [fst snd] in *.
  destruct (match e with EvTimer k => Some k | _ => None end) as [k|] eqn:Ek.
  - destruct e; try discriminate. inversion Ek; subst k0. subst st'. unfold step. cbn [fst snd].
    destruct (WireFacts.fire_timer_cases opt k now st) as [E|(d & t & Hk & Hd & E)].
    + rewrite E. split; [lia|]. split; [exists []; rewrite app_nil_r; reflexivity|].
      split; [intros Hn; exfalso; eapply Hn; reflexivity|]. intros k' _. left. reflexivity.
    + rewrite E.
      destruct (WireFacts.D_fire opt Never Any All any_mix t now
                  (set_timers (delete k (timers st)) st)
                  (any_fresh _) (any_checks _) (any_fire _ _))
        as [Hr _ (newt & Ht & _) (newe & He & _) _].
      split; [exact Hr|]. split; [exists newe; exact He|].
      split; [intros Hn; exfalso; eapply Hn; reflexivity|].
      intros k' Ek'. inversion Ek'; subst k'. right. exists d, t, newt. auto.
  - assert (Hk : forall k, e <> EvTimer k) by (intros k ->; discriminate).
    destruct (Hplain Hk) as [Hr _ (newt & Ht & _) (newe & He & _) _].
    split; [exact Hr|]. split; [exists newe; exact He|].
    split; [intros _; exists newt; exact Ht|]. intros k E. exfalso. eapply Hk, E.
Qed.

(** *** The reply to a GET *)

(** [handleGet] answers every GET with one frame whose ["@"] is the id of
    the request and whose [put] is what the graph has for the request or,
    if the graph has nothing, what the store has.  The frame is handed to
    the outbound queue behind the frames that wait there.  The result of
    the send is not looked at: when the queue is full, the request gets
    no reply and nothing tells so.  In no case does a GET change the
    graph, the store, the subscriptions or the pending references. *)
Theorem handleGet_reply (lex : Lex) (msgid : string) (now : Z) (st : State) :
  let put := match Get lex (graph st) false with
             | Some ack => Some ack
             | None => snd (store_get lex {| opt_wait := None; opt_fast := false;
                                             opt_secure := true |} (disk st))
             end in
  let st' := handleGet opt lex msgid now st in
  Frame.sub_eq st st' /\
  exists err,
    let reply := JSON_stringify {| msg_id := Some (random (rng st)); msg_at := Some msgid;
                                   msg_get := None; msg_put := put; msg_err := err;
                                   msg_hello := None |} in
    (mode opt <> LocalOnly ->
     (length (MessageQueue.queue (messageQueue st)) < maxQueueLength opt)%nat ->
     exists out, effects st' = effects st ++ map EffRoutedSend out /\
       out ++ MessageQueue.queue (messageQueue st')
       = MessageQueue.queue (messageQueue st) ++ [reply]) /\
    (mode opt <> LocalOnly ->
     (maxQueueLength opt <= length (MessageQueue.queue (messageQueue st)))%nat ->
     effects st' = effects st /\ timers st' = timers st /\
     messageQueue st' = messageQueue st).
Proof.
  intros put st'. split; [apply WireFacts.sub_eq_handleGet|].
  assert (Hsend : forall data st0,
    messageQueue st0 = messageQueue st -> effects st0 = effects st ->
    timers st0 = timers st ->
    (mode opt <> LocalOnly ->
     (length (MessageQueue.queue (messageQueue st)) < maxQueueLength opt)%nat ->
     exists out, effects (snd (sendFunction opt data now st0))
                 = effects st ++ map EffRoutedSend out /\
       out ++ MessageQueue.queue (messageQueue (snd (sendFunction opt data now st0)))
       = MessageQueue.queue (messageQueue st) ++ [data]) /\
    (mode opt <> LocalOnly ->
     (maxQueueLength opt <= length (MessageQueue.queue (messageQueue st)))%nat ->
     effects (snd (sendFunction opt data now st0)) = effects st /\
     timers (snd (sendFunction opt data now st0)) = timers st /\
     messageQueue (snd (sendFunction opt data now st0)) = messageQueue st)).
  { intros data st0 Hm He Ht. unfold sendFunction, MessageQueue.enqueue. rewrite Hm.
    split; intros Hmode Hlen.
    - apply Nat.leb_gt in Hlen. rewrite Hlen. unfold MessageQueue.process.
      cbn [MessageQueue.processing MessageQueue.queue].
      destruct (mode opt); [| |done];
        destruct (MessageQueue.processing (messageQueue st));
        [exists []|destruct (MessageQueue.queue (messageQueue st) ++ [data]) as [|m rest] eqn:E;
                    [exists []|exists [m]]
        |exists []|destruct (MessageQueue.queue (messageQueue st) ++ [data]) as [|m rest] eqn:E;
                    [exists []|exists [m]]];
        cbn [snd emit setTimeout effects messageQueue set_effects set_timers
             set_messageQueue map MessageQueue.queue app];
        rewrite ?He, ?app_nil_r; auto.
    - apply Nat.leb_le in Hlen. rewrite Hlen.
      destruct (mode opt); [| |done];
        cbn [snd emit effects timers messageQueue set_effects set_messageQueue map];
        rewrite ?He, ?Ht, ?app_nil_r; destruct (messageQueue st); auto. }
  subst st'. unfold handleGet, fresh_id.
  destruct (Get lex (graph st) false) as [ack|].
  - exists None. apply Hsend; reflexivity.
  - subst put. destruct (store_get lex _ (disk st)) as [err ack]. cbn [snd].
    exists (truthy err). apply Hsend; reflexivity.
Qed.

(** *** The callback of a put *)

Lemma put_calls_app es1 es2 :
  PutSpec.put_calls (es1 ++ es2) = PutSpec.put_calls es1 ++ PutSpec.put_calls es2.
Proof. unfold PutSpec.put_calls. apply omap_app. Qed.

Lemma put_calls_sends out : PutSpec.put_calls (map EffRoutedSend out) = [].
Proof. induction out; simpl; auto. Qed.

Lemma put_calls_listeners ls : PutSpec.put_calls (map EffListener ls) = [].
Proof. induction ls; simpl; auto. Qed.

Lemma store_writes_app es1 es2 :
  store_writes (es1 ++ es2) = store_writes es1 ++ store_writes es2.
Proof. unfold store_writes. apply omap_app. Qed.

Lemma store_writes_sends out : store_writes (map EffRoutedSend out) = [].
Proof. induction out; simpl; auto. Qed.

Lemma store_writes_listeners ls : store_writes (map EffListener ls) = [].
Proof. induction ls; simpl; auto. Qed.


End Wire.






Lemma own_hello_dropped_witness :
  @handleMessage_body Samples.hello_env Scenarios.server
     (@hello_msg Samples.hello_env Scenarios.server) "ws_1" 1000
     (@init Samples.hello_env (∅ : gmap string Node))
  = @init Samples.hello_env (∅ : gmap string Node).
Proof.
  apply (proj1 (proj2
           (@own_hello_dropped Samples.hello_env Scenarios.server Scenarios.server
              "ws_1" "ws_1" 1000 1000
              (@init Samples.hello_env (∅ : gmap string Node))
              (@init Samples.hello_env (∅ : gmap string Node)) eq_refl eq_refl))).
Defined.

Lemma met_reachable :
  WalkSpec.reachable (@sha256 Scenarios.env) (selfId Scenarios.server)
    (@fingerTable Scenarios.env Samples.met).
Proof.
  exists [FingerTable.AddPeer {| FingerTable.peer_id := "alice-key";
                                 FingerTable.peer_send := "ws_1" |}].
  vm_compute. reflexivity.
Qed.

Lemma hello_remaps_witness :
  FingerTable.getPeer "alice-key"
    (@fingerTable Scenarios.env
       (@handleHello Scenarios.env Scenarios.server (Some "alice-key") "ws_2" Samples.met))
  = Some {| FingerTable.peer_id := "alice-key"; FingerTable.peer_send := "ws_2" |}.
Proof.
  apply (proj1
           (@hello_remaps Scenarios.env Scenarios.server "alice-key" "ws_2" Samples.met
              {| FingerTable.peer_id := "alice-key"; FingerTable.peer_send := "ws_1" |}
              met_reachable ltac:(discriminate) ltac:(discriminate)
              ltac:(vm_compute; reflexivity))).
Defined.

End WireMore.
